(** * KVideo: the search route, the search-stream client, the search-history
    store and the episode parser, embedded in Rocq.

    Strings are Rocq [string]s (byte sequences); every delimiter the code
    looks for ('#', '$', ':', '/') is a single ASCII byte, so splitting and
    rewriting on bytes agrees with the code's work on UTF-16 code units.
    A JavaScript [Map] keeps its keys in insertion order and the code reads
    that order back ([Array.from(map.entries())]), so maps are association
    lists kept in insertion order.  Collaborators that live outside the
    files at hand ([String.prototype.trim], [getSourceById], [searchVideos],
    [checkMultipleVideos]) are parameters of the sections that use them. *)

From Stdlib Require Import String Ascii List ZArith Arith Lia Bool Permutation.
From Stdlib Require Import DecimalString.
Import ListNotations.
Open Scope string_scope.
Open Scope list_scope.

(* ------------------------------------------------------------------ *)
(** ** A few JavaScript built-ins *)

Module JS.

(** [s.split(sep)] for a one-character separator: always at least one
    piece, empty pieces kept. *)
Fixpoint split (sep : ascii) (s : string) : list string :=
  match s with
  | EmptyString => [EmptyString]
  | String c rest =>
      if Ascii.eqb c sep then EmptyString :: split sep rest
      else match split sep rest with
           | [] => [String c EmptyString]
           | piece :: pieces => String c piece :: pieces
           end
  end.

(** Truthiness of a string: [Boolean(s)], [!s], [s || d]. *)
Definition truthy (s : string) : bool :=
  match s with EmptyString => false | String _ _ => true end.

(** [s || d] on strings. *)
Definition or_else (s d : string) : string := if truthy s then s else d.

(** [xs.map((x, index) => f(x, index))]. *)
Fixpoint mapi_from {A B} (i : nat) (f : A -> nat -> B) (xs : list A) : list B :=
  match xs with
  | [] => []
  | x :: xs' => f x i :: mapi_from (S i) f xs'
  end.

Definition mapi {A B} (f : A -> nat -> B) (xs : list A) : list B := mapi_from 0 f xs.

(** Template-literal printing of a non-negative integer. *)
Definition show_nat (n : nat) : string := NilZero.string_of_uint (Nat.to_uint n).

(** The names every object literal inherits from [Object.prototype]; a
    property read [obj[key]] that finds no own property [key] walks the
    prototype chain and yields these members (functions, and the prototype
    object itself for [__proto__]), all of them truthy and none a string. *)
Definition object_prototype_members : list string :=
  [ "constructor"; "__defineGetter__"; "__defineSetter__"; "hasOwnProperty";
    "__lookupGetter__"; "__lookupSetter__"; "isPrototypeOf";
    "propertyIsEnumerable"; "toString"; "valueOf"; "__proto__";
    "toLocaleString" ].

Definition inherited (key : string) : bool :=
  existsb (String.eqb key) object_prototype_members.

(** A concrete [trim] for worked inputs: it strips tab, line feed, vertical
    tab, form feed, carriage return and space from both ends, which is what
    [String.prototype.trim] does on a string whose white space is ASCII.
    The models below take [trim] as a parameter; this one instantiates it. *)
Definition is_space (c : ascii) : bool :=
  let n := nat_of_ascii c in
  (Nat.leb 9 n && Nat.leb n 13) || Nat.eqb n 32.

Fixpoint trim_start (s : string) : string :=
  match s with
  | EmptyString => EmptyString
  | String c rest => if is_space c then trim_start rest else s
  end.

Definition reverse (s : string) : string :=
  string_of_list_ascii (rev (list_ascii_of_string s)).

Definition trim_ascii (s : string) : string :=
  reverse (trim_start (reverse (trim_start s))).

(** What a call can do: return a value, or throw.  A thrown value either is
    an [Error] (it has a [message]) or is something else. *)
Inductive thrown :=
| ErrorObject (message : string)
| OtherValue.

Inductive outcome (A : Type) :=
| Returns (a : A)
| Throws (e : thrown).

Arguments Returns {A} a.
Arguments Throws {A} e.

(** An insertion-ordered [Map] with string keys. *)
Definition Map (V : Type) := list (string * V).

Definition map_get {V} (key : string) (m : Map V) : option V :=
  option_map snd (find (fun entry => String.eqb (fst entry) key) m).

Definition map_has {V} (key : string) (m : Map V) : bool :=
  existsb (fun entry => String.eqb (fst entry) key) m.

(** [m.set(key, v)]: an existing key keeps its place, a new key goes last. *)
Fixpoint map_set {V} (key : string) (v : V) (m : Map V) : Map V :=
  match m with
  | [] => [(key, v)]
  | (k, w) :: m' =>
      if String.eqb k key then (k, v) :: m' else (k, w) :: map_set key v m'
  end.

(** [m.get(key)!.push(x)]: the array stored under [key] grows in place. *)
Fixpoint map_push {A} (key : string) (x : A) (m : Map (list A)) : Map (list A) :=
  match m with
  | [] => []
  | (k, xs) :: m' =>
      if String.eqb k key then (k, xs ++ [x]) :: m' else (k, xs) :: map_push key x m'
  end.

End JS.

(* ------------------------------------------------------------------ *)
(** ** API response parsers: [parseEpisodes] *)

Module Parsers.

Record Episode := { name : string; url : string; index : nat }.

(** [u.replace(/([^:])\/\//g, '$1/')]: the scan goes left to right; where a
    character other than ':' is followed by two slashes the three are
    replaced by the character and one slash and the scan resumes after
    them, otherwise the character is copied and the scan moves on by one. *)
Fixpoint cleanUrl (u : string) : string :=
  match u with
  | EmptyString => EmptyString
  | String c tl =>
      match tl with
      | String a (String b rest) =>
          if negb (Ascii.eqb c ":") && Ascii.eqb a "/" && Ascii.eqb b "/"
          then String c (String "/" (cleanUrl rest))
          else String c (cleanUrl tl)
      | _ => String c (cleanUrl tl)
      end
  end.

(** [const [name, url] = episode.split('$')]: the first two pieces; a
    missing second piece is [undefined]. *)
Definition destructure2 (pieces : list string) : option string * option string :=
  (nth_error pieces 0, nth_error pieces 1).

Definition or_empty (o : option string) : string :=
  match o with Some s => s | None => EmptyString end.

Definition toEpisode (episode : string) (i : nat) : Episode :=
  let '(name_, url_) := destructure2 (JS.split "$" episode) in
  let cleanUrl_ := cleanUrl (or_empty url_) in
  {| name := JS.or_else (or_empty name_) ("Episode " ++ JS.show_nat (i + 1));
     url := cleanUrl_;
     index := i |}.

Definition parseEpisodes (playUrl : string) : list Episode :=
  if negb (JS.truthy playUrl) then []
  else
    let episodes := filter JS.truthy (JS.split "#" playUrl) in
    JS.mapi toEpisode episodes.

(** Text of a segment before its first [sep] (the whole segment when there
    is none) and text after its first [sep] (empty when there is none). *)
Fixpoint before (sep : ascii) (s : string) : string :=
  match s with
  | EmptyString => EmptyString
  | String c rest => if Ascii.eqb c sep then EmptyString else String c (before sep rest)
  end.

Fixpoint after (sep : ascii) (s : string) : string :=
  match s with
  | EmptyString => EmptyString
  | String c rest => if Ascii.eqb c sep then rest else after sep rest
  end.

(** Text after the last [sep] of a segment (empty when there is none). *)
Fixpoint after_last (sep : ascii) (s : string) : string :=
  match s with
  | EmptyString => EmptyString
  | String c rest =>
      if Ascii.eqb c sep
      then (if existsb (Ascii.eqb sep) (list_ascii_of_string rest)
            then after_last sep rest else rest)
      else after_last sep rest
  end.

(** The rewriting of a URL, as a relation: scanning from the left, a
    character other than ':' with two slashes behind it is rewritten to the
    character and one slash, and the scan resumes behind the three; any
    other character is copied. *)
Definition hit (c : ascii) (tl : string) : bool :=
  match tl with
  | String a (String b _) => negb (Ascii.eqb c ":") && Ascii.eqb a "/" && Ascii.eqb b "/"
  | _ => false
  end.

Inductive Scan : string -> string -> Prop :=
| scan_end : Scan EmptyString EmptyString
| scan_rewrite (c : ascii) (rest out : string) :
    Ascii.eqb c ":" = false -> Scan rest out ->
    Scan (String c (String "/" (String "/" rest))) (String c (String "/" out))
| scan_copy (c : ascii) (tl out : string) :
    hit c tl = false -> Scan tl out ->
    Scan (String c tl) (String c out).

(** The episode of a segment in the words of the documentation: the name is
    the text before '$', the url the (rewritten) text after '$'. *)
Definition episodeAsDocumented (segment : string) (i : nat) : Episode :=
  {| name := JS.or_else (before "$" segment) ("Episode " ++ JS.show_nat (i + 1));
     url := cleanUrl (after "$" segment);
     index := i |}.

(** The episode of a segment as the code computes it, in terms of the text
    around the segment's '$' signs. *)
Definition episodeOf (segment : string) (i : nat) : Episode :=
  {| name := JS.or_else (before "$" segment) ("Episode " ++ JS.show_nat (i + 1));
     url := cleanUrl (before "$" (after "$" segment));
     index := i |}.

End Parsers.

(* ------------------------------------------------------------------ *)
(** ** Display names of the sources: [getSourceName], [SOURCE_IDS] *)

Module SourceNames.

(** What a property read on the name table can yield: a string, or a
    member inherited from [Object.prototype]. *)
Inductive property_value :=
| Str (s : string)
| Inherited (member : string).

Definition sourceNames : list (string * string) :=
  [ ("dytt", "电影天堂"); ("ruyi", "如意"); ("baofeng", "暴风");
    ("tianya", "天涯"); ("feifan", "非凡影视"); ("sanliuling", "360");
    ("wolong", "卧龙"); ("jisu", "极速"); ("mozhua", "魔爪");
    ("modu", "魔都"); ("zuida", "最大"); ("yinghua", "樱花");
    ("baiduyun", "百度云"); ("wujin", "无尽"); ("wangwang", "旺旺");
    ("ikun", "iKun") ].

(** The own property [key] of the table, if it has one. *)
Definition own (key : string) : option string :=
  option_map snd (find (fun entry => String.eqb (fst entry) key) sourceNames).

(** [sourceNames[sourceId] || sourceId].  The route handler carries a copy
    of the same table and the same expression. *)
Definition getSourceName (sourceId : string) : property_value :=
  match own sourceId with
  | Some displayName => if JS.truthy displayName then Str displayName else Str sourceId
  | None => if JS.inherited sourceId then Inherited sourceId else Str sourceId
  end.

Definition SOURCE_IDS : list string :=
  [ "dytt"; "ruyi"; "baofeng"; "tianya"; "feifan"; "sanliuling";
    "wolong"; "jisu"; "mozhua"; "modu"; "zuida"; "yinghua";
    "baiduyun"; "wujin"; "wangwang"; "ikun" ].

End SourceNames.

(* ------------------------------------------------------------------ *)
(** ** The search-history store *)

Module SearchHistory.

Definition MAX_SEARCH_HISTORY : nat := 20.

Record SearchHistoryItem := { query : string; timestamp : Z }.

Record Store := { searchHistory : list SearchHistoryItem }.

Definition initial : Store := {| searchHistory := [] |}.

(** One call on the store; [Add] carries the reading of [Date.now()] that
    the call makes. *)
Inductive action :=
| Add (query : string) (now : Z)
| Remove (query : string)
| Clear.

(** At most twenty entries, no query twice. *)
Definition well_formed (s : Store) : Prop :=
  List.length (searchHistory s) <= 20 /\ NoDup (map query (searchHistory s)).

Section Actions.

Variable trim : string -> string.

Definition addSearchHistory (query_ : string) (now : Z) (state : Store) : Store :=
  let trimmedQuery := trim query_ in
  if negb (JS.truthy trimmedQuery) then state
  else
    let filtered :=
      filter (fun item => negb (String.eqb (query item) trimmedQuery)) (searchHistory state) in
    let newHistory :=
      firstn MAX_SEARCH_HISTORY ({| query := trimmedQuery; timestamp := now |} :: filtered) in
    {| searchHistory := newHistory |}.

Definition removeSearchHistory (query_ : string) (state : Store) : Store :=
  {| searchHistory :=
       filter (fun item => negb (String.eqb (query item) query_)) (searchHistory state) |}.

Definition clearSearchHistory (state : Store) : Store := {| searchHistory := [] |}.

Definition getSearchHistory (state : Store) : list SearchHistoryItem := searchHistory state.

Definition apply (state : Store) (a : action) : Store :=
  match a with
  | Add q now => addSearchHistory q now state
  | Remove q => removeSearchHistory q state
  | Clear => clearSearchHistory state
  end.

Definition run (actions : list action) : Store := fold_left apply actions initial.

End Actions.

End SearchHistory.

(* ------------------------------------------------------------------ *)
(** ** Shared data types *)

Module Types.

(** Modelled from the spec: the video item type of [@/lib/types] is not
    among the files; section 3 gives a Candidate a source id, an external
    video id and a title, of which the code at hand reads [source] and
    [vod_id]. *)
Record Video := { vod_id : Z; source : string; vod_name : string }.

(** Modelled from the spec: the source descriptor of
    [@/lib/api/video-sources] is not among the files; section 3 gives it an
    id, a display name, an enabled flag and an endpoint template. *)
Record VideoSource := { id : string; name : string; enabled : bool; baseUrl : string }.

(** [SearchResult]: the fields the route handler reads and writes;
    [result_source] is its [source] field (a [Video] has a [source] too),
    and [responseTime] may be absent. *)
Record SearchResult := {
  results : list Video;
  result_source : string;
  responseTime : option Z
}.

(** Identity of a video in the output: (source, external id). *)
Definition key (v : Video) : string * Z := (source v, vod_id v).

Definition video_eqb (a b : Video) : bool :=
  Z.eqb (vod_id a) (vod_id b) && String.eqb (source a) (source b)
  && String.eqb (vod_name a) (vod_name b).

Definition key_eqb (a b : string * Z) : bool :=
  String.eqb (fst a) (fst b) && Z.eqb (snd a) (snd b).

(** Does a list of keys hold some key twice? *)
Fixpoint has_duplicate (ks : list (string * Z)) : bool :=
  match ks with
  | [] => false
  | k :: ks' => existsb (key_eqb k) ks' || has_duplicate ks'
  end.

End Types.

(* ------------------------------------------------------------------ *)
(** ** The search API route: [POST] *)

Module SearchRoute.

Import JS Types.

(** A property of the request body as [request.json()] delivers it.  The
    handler tests [query] and [sources] at run time, so any JSON value may
    stand there; the members of a [sources] array are strings, as
    [SearchRequest] declares them. *)
Inductive value :=
| Undefined
| Null
| Bool (b : bool)
| Number (n : Z)
| Text (s : string)
| Array (items : list string)
| Object.

(** The parsed body: JSON [null], or a value whose properties [query],
    [sources] and [page] are read by the destructuring (a property that is
    not there reads as [Undefined]; so does every property of a number, a
    string, a boolean or an array sent as the body). *)
Inductive request_body :=
| BodyNull
| BodyObject (query sources page : value).

(** [!v]. *)
Definition falsy (v : value) : bool :=
  match v with
  | Undefined | Null | Bool false | Number 0%Z | Text EmptyString => true
  | _ => false
  end.

Definition is_string (v : value) : bool :=
  match v with Text _ => true | _ => false end.

Definition is_array (v : value) : bool :=
  match v with Array _ => true | _ => false end.

Definition text_of (v : value) : string :=
  match v with Text s => s | _ => EmptyString end.

Definition items_of (v : value) : list string :=
  match v with Array items => items | _ => [] end.

Record SourceStat := {
  sourceId : string;
  sourceName : SourceNames.property_value;
  count : nat
}.

Record SearchResponse := {
  success : bool;
  query : string;
  page : value;
  sources : list SearchResult;
  totalResults : nat;
  sourceStats : list SourceStat
}.

(** The JSON body of a response: an error object, whose [success] property
    may be absent, or the result object. *)
Inductive ResponseBody :=
| ErrorBody (success_ : option bool) (error : string)
| ResultBody (r : SearchResponse).

Record HttpResponse := { body : ResponseBody; status : nat }.

(** [NextResponse.json(body)] answers 200 unless a status is given. *)
Definition json (b : ResponseBody) (status_ : option nat) : HttpResponse :=
  {| body := b; status := match status_ with Some s => s | None => 200 end |}.

(** The calls the handler makes on its collaborators, in order. *)
Inductive call :=
| SearchCall (query : string) (sources : list VideoSource) (page : value)
| CheckCall (videos : list Video) (concurrency : nat).

(** Code that may throw and that calls collaborators: its outcome and the
    calls made up to there. *)
Definition M (A : Type) : Type := outcome A * list call.

Definition ret {A} (a : A) : M A := (Returns a, []).

Definition raise {A} (e : thrown) : M A := (Throws e, []).

Definition bind {A B} (m : M A) (k : A -> M B) : M B :=
  match m with
  | (Returns a, log) => let '(r, log') := k a in (r, log ++ log')
  | (Throws e, log) => (Throws e, log)
  end.

Notation "x <- m ;; k" := (bind m (fun x => k))
  (at level 61, m at next level, right associativity).

(** [try { ... } catch (error) { return handler(error) }]. *)
Definition try_catch {A} (m : M A) (handler : thrown -> A) : A * list call :=
  match m with
  | (Returns a, log) => (a, log)
  | (Throws e, log) => (handler e, log)
  end.

(** [page = 1] in the destructuring. *)
Definition page_or_1 (page_ : value) : value :=
  match page_ with Undefined => Number 1 | p => p end.

(** [const { query, sources: sourceIds, page = 1 } = body]. *)
Definition destructure (b : request_body) : M (value * value * value) :=
  match b with
  | BodyNull => raise (ErrorObject "Cannot destructure property 'query' of 'body' as it is null.")
  | BodyObject query_ sourceIds page_ =>
      ret (query_, sourceIds, page_or_1 page_)
  end.

(** [.filter(source => source !== undefined)]. *)
Fixpoint defined_only {A} (xs : list (option A)) : list A :=
  match xs with
  | [] => []
  | Some x :: xs' => x :: defined_only xs'
  | None :: xs' => defined_only xs'
  end.

(** One turn of [for (const video of availableVideos)]. *)
Definition group_step (videosBySource : Map (list Video)) (video : Video) : Map (list Video) :=
  let sourceId_ := source video in
  let m := if negb (map_has sourceId_ videosBySource)
           then map_set sourceId_ [] videosBySource
           else videosBySource in
  map_push sourceId_ video m.

Definition group (availableVideos : list Video) : Map (list Video) :=
  fold_left group_step availableVideos [].

(** [searchResults.find(sr => sr.source === sourceId)?.responseTime]. *)
Definition responseTime_of (searchResults : list SearchResult) (sourceId_ : string) : option Z :=
  match find (fun sr => String.eqb (result_source sr) sourceId_) searchResults with
  | Some sr => responseTime sr
  | None => None
  end.

Definition getSourceName : string -> SourceNames.property_value := SourceNames.getSourceName.

Section Handler.

Variable trim : string -> string.
Variable getSourceById : string -> option VideoSource.
Variable searchVideos : string -> list VideoSource -> value -> outcome (list SearchResult).
Variable checkMultipleVideos : list Video -> nat -> outcome (list Video).

Definition invalid_query (query_ : value) : bool :=
  falsy query_ || negb (is_string query_) || Nat.eqb (String.length (trim (text_of query_))) 0.

Definition invalid_sources (sourceIds : value) : bool :=
  falsy sourceIds || negb (is_array sourceIds) || Nat.eqb (List.length (items_of sourceIds)) 0.

(** Lines 98 to 138: what the handler makes of the collaborators' answers. *)
Definition respond (query_ : string) (page_ : value) (sourceIds : list string)
    (searchResults : list SearchResult) (availableVideos : list Video) : HttpResponse :=
  let videosBySource := group availableVideos in
  let response :=
    map (fun entry : string * list Video =>
           let '(sourceId_, videos) := entry in
           {| results := videos;
              result_source := sourceId_;
              responseTime := responseTime_of searchResults sourceId_ |})
        videosBySource in
  let sourceStats_ :=
    map (fun sourceId_ =>
           let count_ := match map_get sourceId_ videosBySource with
                         | Some videos => List.length videos
                         | None => 0
                         end in
           {| sourceId := sourceId_;
              sourceName := getSourceName sourceId_;
              count := count_ |})
        sourceIds in
  json (ResultBody {| success := true;
                      query := trim query_;
                      page := page_;
                      sources := response;
                      totalResults := List.length availableVideos;
                      sourceStats := sourceStats_ |}) None.

Definition POST (request_json : outcome request_body) : HttpResponse * list call :=
  try_catch
    (body_ <- (request_json, []) ;;
     fields <- destructure body_ ;;
     let '(query_, sourceIds, page_) := fields in
     if invalid_query query_ then
       ret (json (ErrorBody None "Invalid or missing query parameter") (Some 400))
     else if invalid_sources sourceIds then
       ret (json (ErrorBody None "At least one source must be specified") (Some 400))
     else
       let sources_ := defined_only (map getSourceById (items_of sourceIds)) in
       if Nat.eqb (List.length sources_) 0 then
         ret (json (ErrorBody None "No valid sources found") (Some 400))
       else
         searchResults <- (searchVideos (trim (text_of query_)) sources_ page_,
                           [SearchCall (trim (text_of query_)) sources_ page_]) ;;
         let allVideos := flat_map results searchResults in
         availableVideos <- (checkMultipleVideos allVideos 8, [CheckCall allVideos 8]) ;;
         ret (respond (text_of query_) page_ (items_of sourceIds) searchResults availableVideos))
    (fun error =>
       json (ErrorBody (Some false)
               (match error with
                | ErrorObject message => message
                | OtherValue => "Internal server error"
                end))
            (Some 500)).

(** The faults of a request: the query is missing, is not a string, or is
    empty after trimming; the source list is missing, is not an array, or
    is empty; no requested id resolves to a source. *)
Definition bad_query (query_ : value) : Prop :=
  query_ = Undefined \/ is_string query_ = false
  \/ exists s, query_ = Text s /\ trim s = EmptyString.

Definition bad_sources (sourceIds : value) : Prop :=
  sourceIds = Undefined \/ is_array sourceIds = false \/ sourceIds = Array [].

Definition none_resolves (sourceIds : value) : Prop :=
  forall sourceId_, In sourceId_ (items_of sourceIds) -> getSourceById sourceId_ = None.

End Handler.

(** All videos of a response, over [sources[].results]. *)
Definition listed (r : SearchResponse) : list Video := flat_map results (sources r).

(** [get_or_nil key m]: the array under [key], empty when there is none. *)
Definition get_or_nil {A} (key : string) (m : Map (list A)) : list A :=
  match map_get key m with Some xs => xs | None => [] end.

End SearchRoute.

(* ------------------------------------------------------------------ *)
(** ** The search-stream client: [useSearchStream], [performSearch] *)

Module SearchStream.

Import JS Types.

Inductive Stage := searching | checking.

(** The object [JSON.parse] yields for one line, read through the
    properties the loop touches; a property that is not there is [None]
    ([undefined]).  Properties that are there have the types of the wire
    format. *)
Record Data := {
  type : option string;
  stage : option string;
  checkedSources_ : option Z;
  checkedVideos_ : option Z;
  totalVideos_ : option Z;
  videos : option (list Video);
  error : option string
}.

(** One complete line of the response stream. *)
Inductive Line :=
| NotData                (* the line does not start with 'data: ' *)
| Unparsable             (* 'data: ' followed by text that JSON.parse rejects,
                            or by the text null, whose properties cannot be read *)
| Parsed (data : Data).  (* 'data: ' followed by the JSON text of [data] *)

(** A video as the hook keeps it:
    [{ ...video, sourceName, isNew: true, addedAt: Date.now() }]. *)
Record ShownVideo := {
  video : Video;
  sourceName : SourceNames.property_value;
  isNew : bool;
  addedAt : Z
}.

Record SourceCount := {
  sc_id : string;
  sc_name : SourceNames.property_value;
  sc_count : nat
}.

(** The hook's React state. *)
Record State := {
  loading : bool;
  results : list ShownVideo;
  availableSources : list SourceCount;
  checkedSources : option Z;
  searchStage : Stage;
  checkedVideos : option Z;
  totalVideos : option Z;
  currentSource : string
}.

Definition initial : State :=
  {| loading := false; results := []; availableSources := [];
     checkedSources := Some 0%Z; searchStage := searching;
     checkedVideos := Some 0%Z; totalVideos := Some 0%Z; currentSource := "" |}.

(** One [onCacheUpdate(query, results, sources)] call, with the arguments as
    they are when the call is made. *)
Record CacheUpdate := {
  cached_query : string;
  cached_results : list ShownVideo;
  cached_sources : list SourceCount
}.

(** Everything one run of [performSearch] can change: the hook state, the
    two locals of the run, and the calls made on the two callbacks. *)
Record Run := {
  state : State;
  allVideos : list ShownVideo;
  sourceVideoCounts : Map nat;
  cache : list CacheUpdate;
  urls : list string
}.

Definition with_state (f : State -> State) (r : Run) : Run :=
  {| state := f (state r); allVideos := allVideos r;
     sourceVideoCounts := sourceVideoCounts r; cache := cache r; urls := urls r |}.

Definition setLoading (b : bool) (s : State) : State :=
  {| loading := b; results := results s; availableSources := availableSources s;
     checkedSources := checkedSources s; searchStage := searchStage s;
     checkedVideos := checkedVideos s; totalVideos := totalVideos s;
     currentSource := currentSource s |}.

Definition setResults (rs : list ShownVideo) (s : State) : State :=
  {| loading := loading s; results := rs; availableSources := availableSources s;
     checkedSources := checkedSources s; searchStage := searchStage s;
     checkedVideos := checkedVideos s; totalVideos := totalVideos s;
     currentSource := currentSource s |}.

Definition setAvailableSources (a : list SourceCount) (s : State) : State :=
  {| loading := loading s; results := results s; availableSources := a;
     checkedSources := checkedSources s; searchStage := searchStage s;
     checkedVideos := checkedVideos s; totalVideos := totalVideos s;
     currentSource := currentSource s |}.

Definition setCheckedSources (n : option Z) (s : State) : State :=
  {| loading := loading s; results := results s; availableSources := availableSources s;
     checkedSources := n; searchStage := searchStage s;
     checkedVideos := checkedVideos s; totalVideos := totalVideos s;
     currentSource := currentSource s |}.

Definition setSearchStage (g : Stage) (s : State) : State :=
  {| loading := loading s; results := results s; availableSources := availableSources s;
     checkedSources := checkedSources s; searchStage := g;
     checkedVideos := checkedVideos s; totalVideos := totalVideos s;
     currentSource := currentSource s |}.

Definition setCheckedVideos (n : option Z) (s : State) : State :=
  {| loading := loading s; results := results s; availableSources := availableSources s;
     checkedSources := checkedSources s; searchStage := searchStage s;
     checkedVideos := n; totalVideos := totalVideos s;
     currentSource := currentSource s |}.

Definition setTotalVideos (n : option Z) (s : State) : State :=
  {| loading := loading s; results := results s; availableSources := availableSources s;
     checkedSources := checkedSources s; searchStage := searchStage s;
     checkedVideos := checkedVideos s; totalVideos := n;
     currentSource := currentSource s |}.

Definition setCurrentSource (c : string) (s : State) : State :=
  {| loading := loading s; results := results s; availableSources := availableSources s;
     checkedSources := checkedSources s; searchStage := searchStage s;
     checkedVideos := checkedVideos s; totalVideos := totalVideos s;
     currentSource := c |}.

Definition equals (o : option string) (s : string) : bool :=
  match o with Some t => String.eqb t s | None => false end.

(** [Array.from(sourceVideoCounts.entries()).map(...)]. *)
Definition sourcesArray (counts : Map nat) : list SourceCount :=
  map (fun entry : string * nat =>
         let '(sourceId, count) := entry in
         {| sc_id := sourceId; sc_name := SourceNames.getSourceName sourceId; sc_count := count |})
      counts.

(** [newVideos.forEach(video => counts.set(video.source, (counts.get(video.source) || 0) + 1))]. *)
Definition count_step (counts : Map nat) (v : ShownVideo) : Map nat :=
  let count := match map_get (source (video v)) counts with Some n => n | None => 0 end in
  map_set (source (video v)) (count + 1) counts.

(** The statements inside the inner [try], for a line that starts with
    'data: '.  [now] is what [Date.now()] reads while the line is handled.
    Each [throw] comes before any update of its branch, so a thrown outcome
    leaves the run as it was.  The timer a 'videos' record starts runs its
    callback later, outside the loop; [SearchStreamTimers] has the timers
    and runs the search with them. *)
Definition handle (searchQuery : string) (now : Z) (l : Line) (r : Run) : outcome Run :=
  match l with
  | NotData => Returns r
  | Unparsable => Throws (ErrorObject "Unexpected token in JSON")
  | Parsed data =>
      if equals (type data) "progress" then
        if equals (stage data) "searching" then
          Returns (with_state (fun s => setCheckedSources (checkedSources_ data)
                                          (setSearchStage searching s)) r)
        else if equals (stage data) "checking" then
          Returns (with_state (fun s => setTotalVideos (totalVideos_ data)
                                          (setCheckedVideos (checkedVideos_ data)
                                             (setSearchStage checking s))) r)
        else Returns r
      else if equals (type data) "videos" then
        match videos data with
        | None => Throws (ErrorObject "Cannot read properties of undefined (reading 'map')")
        | Some vs =>
            let newVideos :=
              map (fun v => {| video := v;
                               sourceName := SourceNames.getSourceName (source v);
                               isNew := true;
                               addedAt := now |}) vs in
            let allVideos_ := allVideos r ++ newVideos in
            let counts := fold_left count_step newVideos (sourceVideoCounts r) in
            Returns
              {| state := setAvailableSources (sourcesArray counts)
                            (setTotalVideos (totalVideos_ data)
                               (setCheckedVideos (checkedVideos_ data)
                                  (setResults allVideos_ (state r))));
                 allVideos := allVideos_;
                 sourceVideoCounts := counts;
                 cache := cache r;
                 urls := urls r |}
        end
      else if equals (type data) "complete" then
        Returns
          {| state := setLoading false (setCheckedVideos (totalVideos_ data) (state r));
             allVideos := allVideos r;
             sourceVideoCounts := sourceVideoCounts r;
             cache := cache r ++ [ {| cached_query := searchQuery;
                                      cached_results := allVideos r;
                                      cached_sources := sourcesArray (sourceVideoCounts r) |} ];
             urls := urls r |}
      else if equals (type data) "error" then
        Throws (ErrorObject (match error data with Some m => m | None => EmptyString end))
      else Returns r
  end.

(** One turn of [for (const line of lines)]: the inner [try] with its
    [catch (err) { /* skip */ }]. *)
Definition processLine (searchQuery : string) (r : Run) (timed : Z * Line) : Run :=
  match handle searchQuery (fst timed) (snd timed) r with
  | Returns r' => r'
  | Throws _ => r
  end.

Definition processLines (searchQuery : string) (lines : list (Z * Line)) (r : Run) : Run :=
  fold_left (processLine searchQuery) lines r.

(** How the request went: [fetch] rejected (an abort counts), the response
    was not ok, it had no body, or it delivered complete lines (each with
    the clock reading at which the loop handles it) until the reader
    reported [done] or a read rejected.  Text after the last line feed
    stays in [buffer] and is never handled. *)
Inductive Ending := Done | ReadRejected.

Inductive Fetch :=
| FetchRejected
| NotOk
| NoBody
| Stream (lines : list (Z * Line)) (ending : Ending).

Section Hook.

Variable trim : string -> string.

(** The state updates between the guard and the [try]. *)
Definition reset (s : State) : State :=
  setTotalVideos (Some 0%Z)
    (setCheckedVideos (Some 0%Z)
       (setSearchStage searching
          (setCheckedSources (Some 0%Z)
             (setAvailableSources [] (setResults [] (setLoading true s)))))).

Definition performSearch (searchQuery : string) (response : Fetch) (r0 : Run) : Run :=
  if negb (truthy (trim searchQuery)) || loading (state r0) then r0
  else
    let started :=
      {| state := reset (state r0); allVideos := []; sourceVideoCounts := [];
         cache := cache r0; urls := urls r0 ++ [searchQuery] |} in
    let after_try :=
      match response with
      | FetchRejected | NotOk | NoBody => with_state (setLoading false) started
      | Stream lines Done => processLines searchQuery lines started
      | Stream lines ReadRejected =>
          with_state (setLoading false) (processLines searchQuery lines started)
      end in
    with_state (setCurrentSource "") after_try.

End Hook.

(** The records of the wire format. *)
Definition progress_searching (checked : Z) : Data :=
  {| type := Some "progress"; stage := Some "searching"; checkedSources_ := Some checked;
     checkedVideos_ := None; totalVideos_ := None; videos := None; error := None |}.

Definition progress_checking (checked total : Z) : Data :=
  {| type := Some "progress"; stage := Some "checking"; checkedSources_ := None;
     checkedVideos_ := Some checked; totalVideos_ := Some total; videos := None;
     error := None |}.

Definition videos_found (vs : list Video) (checked total : Z) : Data :=
  {| type := Some "videos"; stage := None; checkedSources_ := None;
     checkedVideos_ := Some checked; totalVideos_ := Some total; videos := Some vs;
     error := None |}.

Definition complete (total : Z) : Data :=
  {| type := Some "complete"; stage := None; checkedSources_ := None;
     checkedVideos_ := None; totalVideos_ := Some total; videos := None; error := None |}.

Definition error_event (message : string) : Data :=
  {| type := Some "error"; stage := None; checkedSources_ := None;
     checkedVideos_ := None; totalVideos_ := None; videos := None; error := Some message |}.

(** The videos a line delivers: those of a 'videos' record. *)
Definition delivered_by (l : Line) : list Video :=
  match l with
  | Parsed data =>
      if equals (type data) "videos"
      then match videos data with Some vs => vs | None => [] end
      else []
  | _ => []
  end.

Definition delivered (lines : list (Z * Line)) : list Video :=
  flat_map (fun timed => delivered_by (snd timed)) lines.

(** A fresh hook: initial state, nothing cached, no URL pushed. *)
Definition fresh : Run :=
  {| state := initial; allVideos := []; sourceVideoCounts := []; cache := []; urls := [] |}.

End SearchStream.

(* ------------------------------------------------------------------ *)
(** ** The collaborators the route calls, after the specification *)

Module Pipeline.

Import JS Types.

(** What one source answers to one query: its candidates and the elapsed
    time, or a failure (network error, timeout, unreadable payload). *)
Inductive SourceAnswer :=
| Answered (candidates : list Video) (elapsed : Z)
| Failed.

Section Collaborators.

Variable client : string -> VideoSource -> SearchRoute.value -> SourceAnswer.
Variable available : Video -> bool.

(** Modelled from the spec: [searchVideos] of [@/lib/api/client] is not
    among the files.  Section 4.2: the query goes to every requested
    source; a source that fails is swallowed and recorded as a contributor
    of no results with no elapsed time; the output is the per-source results
    with, per source, the elapsed time or its absence. *)
Definition searchOne (query : string) (page : SearchRoute.value) (s : VideoSource) : SearchResult :=
  match client query s page with
  | Answered candidates elapsed =>
      {| results := candidates; result_source := id s; responseTime := Some elapsed |}
  | Failed =>
      {| results := []; result_source := id s; responseTime := None |}
  end.

(** Modelled from the spec: [searchVideos] itself, which is not among the
    files: one [searchOne] per requested source (section 4.2); it never
    throws, a failing source being swallowed. *)
Definition searchVideos (query : string) (sources : list VideoSource) (page : SearchRoute.value)
  : outcome (list SearchResult) :=
  Returns (map (searchOne query page) sources).

(** Modelled from the spec: the verification scheduler behind
    [checkMultipleVideos] of [@/lib/utils/source-checker] is not among the
    files.  Section 4.4: a queue of pending candidates; [cap] checks in
    flight until the queue drains; when a check completes its verdict is
    emitted at once and the next queued candidate is admitted at once;
    verdicts come out in completion order. *)
Record Scheduler := {
  pending : list Video;
  inflight : list Video;
  emitted : list (Video * bool)
}.

(** Modelled from the spec: the scheduler's first state, which is not among
    the files: the first [cap] candidates are admitted, the others wait
    (section 4.4). *)
Definition start (cap : nat) (candidates : list Video) : Scheduler :=
  {| pending := skipn cap candidates;
     inflight := firstn cap candidates;
     emitted := [] |}.

Fixpoint remove_at {A} (i : nat) (xs : list A) : list A :=
  match i, xs with
  | _, [] => []
  | O, _ :: xs' => xs'
  | S j, x :: xs' => x :: remove_at j xs'
  end.

(** Modelled from the spec: a completion, which is not among the files:
    the in-flight check at position [i] completes, its verdict is emitted
    and the next pending candidate is admitted (section 4.4); nothing
    happens when there is no such check. *)
Definition complete (s : Scheduler) (i : nat) : Scheduler :=
  match nth_error (inflight s) i with
  | None => s
  | Some v =>
      {| pending := skipn 1 (pending s);
         inflight := remove_at i (inflight s) ++ firstn 1 (pending s);
         emitted := emitted s ++ [(v, available v)] |}
  end.

(** The scheduler after the completions named by [order]. *)
Definition after_completions (cap : nat) (candidates : list Video) (order : list nat) : Scheduler :=
  fold_left complete order (start cap candidates).

(** Modelled from the spec: the drain of the queue, which is not among the
    files: while a check is in flight one of them completes (section 4.4);
    [order] says which (read modulo the number in flight, the first one
    when [order] has run out). *)
Fixpoint drain (fuel : nat) (order : list nat) (s : Scheduler) : Scheduler :=
  match fuel with
  | O => s
  | S fuel' =>
      match inflight s with
      | [] => s
      | _ :: _ =>
          drain fuel' (tl order) (complete s (Nat.modulo (hd 0 order) (List.length (inflight s))))
      end
  end.

(** Modelled from the spec: what the scheduler hands on, which is not among
    the files: only candidates whose verdict is available, in completion
    order (section 4.4). *)
Definition forwarded (s : Scheduler) : list Video :=
  map fst (filter snd (emitted s)).

(** Modelled from the spec: [checkMultipleVideos] itself, which is not
    among the files: every candidate is checked under the cap and the
    available ones are returned (section 4.4); it never throws, a failed
    check being the verdict "unavailable" (section 4.3). *)
Definition checkMultipleVideos (order : list nat) (candidates : list Video) (cap : nat)
  : outcome (list Video) :=
  Returns (forwarded (drain (List.length candidates) order (start cap candidates))).

End Collaborators.

(** Every candidate the scheduler holds: judged, in flight, or pending. *)
Definition contents (s : Scheduler) : list Video :=
  map fst (emitted s) ++ inflight s ++ pending s.

(** What the scheduler keeps true: never more than [cap] checks in flight,
    exactly [cap] while candidates are pending, and every verdict is the
    checker's. *)
Record steady (available : Video -> bool) (cap : nat) (s : Scheduler) : Prop := {
  within_cap : List.length (inflight s) <= cap;
  saturated : pending s = [] \/ List.length (inflight s) = cap;
  verdicts : emitted s = map (fun v => (v, available v)) (map fst (emitted s))
}.

End Pipeline.

(* ------------------------------------------------------------------ *)
(** ** Worked inputs *)

Module Scenario.

Import JS Types.

Definition dytt : VideoSource :=
  {| id := "dytt"; name := "电影天堂"; enabled := true; baseUrl := "http://dytt.example/api" |}.

Definition ruyi : VideoSource :=
  {| id := "ruyi"; name := "如意"; enabled := true; baseUrl := "http://ruyi.example/api" |}.

Definition getSourceById (sourceId : string) : option VideoSource :=
  find (fun s => String.eqb (id s) sourceId) [dytt; ruyi].

Definition matrix1 : Video := {| vod_id := 1; source := "dytt"; vod_name := "The Matrix" |}.
Definition matrix2 : Video := {| vod_id := 2; source := "dytt"; vod_name := "The Matrix Reloaded" |}.
Definition matrix3 : Video := {| vod_id := 7; source := "ruyi"; vod_name := "The Matrix" |}.

(** dytt answers with two candidates; ruyi answers with one. *)
Definition client (query : string) (s : VideoSource) (page : SearchRoute.value) : Pipeline.SourceAnswer :=
  if String.eqb (id s) "dytt" then Pipeline.Answered [matrix1; matrix2] 50
  else if String.eqb (id s) "ruyi" then Pipeline.Answered [matrix3] 100
  else Pipeline.Failed.

(** The same, with ruyi timing out. *)
Definition client_ruyi_down (query : string) (s : VideoSource) (page : SearchRoute.value)
  : Pipeline.SourceAnswer :=
  if String.eqb (id s) "dytt" then Pipeline.Answered [matrix1; matrix2] 50
  else Pipeline.Failed.

Definition all_available (v : Video) : bool := true.

(** The route wired to the modelled collaborators. *)
Definition POST (client_ : string -> VideoSource -> SearchRoute.value -> Pipeline.SourceAnswer)
    (order : list nat) (request : SearchRoute.request_body) :=
  SearchRoute.POST trim_ascii getSourceById
    (Pipeline.searchVideos client_)
    (Pipeline.checkMultipleVideos all_available order)
    (Returns request).

Definition request (query : string) (sourceIds : list string) : SearchRoute.request_body :=
  SearchRoute.BodyObject (SearchRoute.Text query) (SearchRoute.Array sourceIds) SearchRoute.Undefined.

End Scenario.

(* ------------------------------------------------------------------ *)
(** ** The search-stream client: [resetSearch] and the kinds of lines *)

Module SearchStreamMore.

Import JS Types SearchStream.


(** A line that carries a record of type 'complete'. *)
Definition completes (l : Line) : bool :=
  match l with
  | Parsed data => equals (type data) "complete"
  | _ => false
  end.

(** A line the loop has no branch for, or whose branch throws at once: a
    line without the 'data: ' prefix, an unparsable one, a 'progress'
    record whose stage is neither 'searching' nor 'checking', a 'videos'
    record without a [videos] array, and a record of any type other than
    'progress', 'videos' and 'complete' (the type 'error' among them). *)
Definition inert (l : Line) : bool :=
  match l with
  | NotData | Unparsable => true
  | Parsed data =>
      if equals (type data) "progress"
      then negb (equals (stage data) "searching" || equals (stage data) "checking")
      else if equals (type data) "videos"
      then match videos data with Some _ => false | None => true end
      else negb (equals (type data) "complete")
  end.

(** How many of the shown videos come from the source [k]. *)
Definition tally (k : string) (shown : list ShownVideo) : nat :=
  List.length (filter (fun v => String.eqb (source (video v)) k) shown).

(** The map of counts agrees with the shown videos: no source twice, the
    counts add up to the number of videos, and a source has an entry
    exactly when it has videos, the entry being their number. *)
Definition counted (counts : Map nat) (shown : list ShownVideo) : Prop :=
  NoDup (map fst counts)
  /\ list_sum (map snd counts) = List.length shown
  /\ forall k, map_get k counts
              = if Nat.eqb (tally k shown) 0 then None else Some (tally k shown).

(** What a run keeps true from its reset on. *)
Definition consistent (r : Run) : Prop :=
  results (state r) = allVideos r
  /\ availableSources (state r) = sourcesArray (sourceVideoCounts r)
  /\ counted (sourceVideoCounts r) (allVideos r).

End SearchStreamMore.

(* ------------------------------------------------------------------ *)
(** ** The search API route: order of the groups *)

Module SearchRouteMore.

Import JS Types SearchRoute.

(** The members of a list of ids, each once, in the order in which they
    first occur. *)
Fixpoint first_occurrences (ids : list string) : list string :=
  match ids with
  | [] => []
  | i :: rest => i :: filter (fun j => negb (String.eqb i j)) (first_occurrences rest)
  end.

(** [k] is not among [keys]. *)
Definition absent (keys : list string) (k : string) : bool :=
  negb (existsb (String.eqb k) keys).

(** The error text the [catch] puts into the body. *)
Definition message_of (e : thrown) : string :=
  match e with
  | ErrorObject message => message
  | OtherValue => "Internal server error"
  end.

End SearchRouteMore.

(* ------------------------------------------------------------------ *)
(** ** The search API route: [GET] *)

Module SearchRouteGet.

Import JS Types.

(** The query string of the request, as [searchParams.get] reads it: the
    first value of each name, or null. *)
Record SearchParams := {
  param_q : option string;
  param_query : option string;
  param_sources : option string;
  param_page : option string
}.

(** [a || b] on two results of [searchParams.get]: null and the empty
    string are falsy. *)
Definition or_get (a b : option string) : option string :=
  match a with
  | Some s => if truthy s then a else b
  | None => b
  end.

(** Truthiness of a result of [searchParams.get]. *)
Definition present (o : option string) : bool :=
  match o with Some s => truthy s | None => false end.

Definition string_of (o : option string) : string :=
  match o with Some s => s | None => EmptyString end.

Section Handler.

(** The numbers [parseInt] yields, NaN among them, are left abstract. *)
Variable Page : Type.
Variable trim : string -> string.
Variable parseInt : string -> Page.
Variable getEnabledSources : list VideoSource.
Variable getSourceById : string -> option VideoSource.
Variable searchVideos : string -> list VideoSource -> Page -> outcome (list SearchResult).
Variable checkMultipleVideos : list Video -> nat -> outcome (list Video).

Record Result := {
  success : bool;
  query : string;
  page : Page;
  sources : list SearchResult;
  totalResults : nat;
  sourceStats : list SearchRoute.SourceStat
}.

Inductive Body :=
| ErrorBody (success_ : option bool) (error : string)
| ResultBody (r : Result).

Record Http := { body : Body; status : nat }.

Inductive call :=
| SearchCall (query : string) (sources : list VideoSource) (page : Page)
| CheckCall (videos : list Video) (concurrency : nat).

(** [sourcesParam ? sourcesParam.split(',') : getEnabledSources().map(s => s.id)]. *)
Definition requested (searchParams : SearchParams) : list string :=
  if present (param_sources searchParams)
  then split "," (string_of (param_sources searchParams))
  else map id getEnabledSources.

(** [parseInt(searchParams.get('page') || '1', 10)]. *)
Definition requested_page (searchParams : SearchParams) : Page :=
  parseInt (if present (param_page searchParams)
            then string_of (param_page searchParams) else "1").

(** The handler's second half, the same statements as in [POST]. *)
Definition respond (query_ : string) (page_ : Page) (sourceIds : list string)
    (searchResults : list SearchResult) (availableVideos : list Video) : Http :=
  let videosBySource := SearchRoute.group availableVideos in
  let response :=
    map (fun entry : string * list Video =>
           let '(sourceId_, videos) := entry in
           {| results := videos;
              result_source := sourceId_;
              responseTime := SearchRoute.responseTime_of searchResults sourceId_ |})
        videosBySource in
  let sourceStats_ :=
    map (fun sourceId_ =>
           let count_ := match map_get sourceId_ videosBySource with
                         | Some videos => List.length videos
                         | None => 0
                         end in
           {| SearchRoute.sourceId := sourceId_;
              SearchRoute.sourceName := SearchRoute.getSourceName sourceId_;
              SearchRoute.count := count_ |})
        sourceIds in
  {| body := ResultBody {| success := true;
                           query := trim query_;
                           page := page_;
                           sources := response;
                           totalResults := List.length availableVideos;
                           sourceStats := sourceStats_ |};
     status := 200 |}.

(** The [catch] of the handler. *)
Definition failed (error : thrown) : Http :=
  {| body := ErrorBody (Some false)
               (match error with
                | ErrorObject message => message
                | OtherValue => "Internal server error"
                end);
     status := 500 |}.

Definition GET (searchParams : SearchParams) : Http * list call :=
  let query_ := or_get (param_q searchParams) (param_query searchParams) in
  let page_ := requested_page searchParams in
  if negb (present query_) then
    ({| body := ErrorBody None "Missing query parameter"; status := 400 |}, [])
  else
    let sourceIds := requested searchParams in
    let sources_ := SearchRoute.defined_only (map getSourceById sourceIds) in
    if Nat.eqb (List.length sources_) 0 then
      ({| body := ErrorBody None "No valid sources found"; status := 400 |}, [])
    else
      match searchVideos (trim (string_of query_)) sources_ page_ with
      | Throws e => (failed e, [SearchCall (trim (string_of query_)) sources_ page_])
      | Returns searchResults =>
          let allVideos := flat_map results searchResults in
          match checkMultipleVideos allVideos 8 with
          | Throws e =>
              (failed e, [SearchCall (trim (string_of query_)) sources_ page_;
                          CheckCall allVideos 8])
          | Returns availableVideos =>
              (respond (string_of query_) page_ sourceIds searchResults availableVideos,
               [SearchCall (trim (string_of query_)) sources_ page_;
                CheckCall allVideos 8])
          end
      end.

End Handler.

Arguments ErrorBody {Page} success_ error.
Arguments ResultBody {Page} r.
Arguments SearchCall {Page} query sources page.
Arguments CheckCall {Page} videos concurrency.

(** A [GET] answer and a [GET] call read as [POST]'s, where the page is a
    JSON value. *)
Definition as_route_response (h : Http SearchRoute.value) : SearchRoute.HttpResponse :=
  {| SearchRoute.body :=
       match body _ h with
       | ErrorBody flag message => SearchRoute.ErrorBody flag message
       | ResultBody r =>
           SearchRoute.ResultBody
             {| SearchRoute.success := success _ r;
                SearchRoute.query := query _ r;
                SearchRoute.page := page _ r;
                SearchRoute.sources := sources _ r;
                SearchRoute.totalResults := totalResults _ r;
                SearchRoute.sourceStats := sourceStats _ r |}
       end;
     SearchRoute.status := status _ h |}.

Definition as_route_call (c : call SearchRoute.value) : SearchRoute.call :=
  match c with
  | SearchCall q s p => SearchRoute.SearchCall q s p
  | CheckCall vs n => SearchRoute.CheckCall vs n
  end.

End SearchRouteGet.

(* ------------------------------------------------------------------ *)
(** ** Episode strings: writing them, and what a clean URL is *)

Module ParsersMore.

Import JS Parsers.

(** [pieces.join(sep)] for a one-character separator. *)
Fixpoint join (sep : ascii) (pieces : list string) : string :=
  match pieces with
  | [] => EmptyString
  | [piece] => piece
  | piece :: rest => (piece ++ String sep (join sep rest))%string
  end.

(** The play-URL string of a list of (name, url) pairs, in the format the
    parser's comment gives: "Episode1$url1#Episode2$url2#...". *)
Definition render (episodes : list (string * string)) : string :=
  join "#" (map (fun e => (fst e ++ String "$" (snd e))%string) episodes).

(** The character [c] does not occur in [s]. *)
Fixpoint free_of (c : ascii) (s : string) : bool :=
  match s with
  | EmptyString => true
  | String d rest => negb (Ascii.eqb d c) && free_of c rest
  end.

(** Somewhere in [u] a character other than ':' has two slashes behind it. *)
Fixpoint dirty (u : string) : bool :=
  match u with
  | EmptyString => false
  | String c tl => hit c tl || dirty tl
  end.

(** Somewhere in [u] three slashes stand in a row. *)
Fixpoint triple_slash (u : string) : bool :=
  match u with
  | String a ((String b (String c _)) as tl) =>
      (Ascii.eqb a "/" && Ascii.eqb b "/" && Ascii.eqb c "/") || triple_slash tl
  | _ => false
  end.

(** A (name, url) pair that survives the round trip through the play-URL
    string: the name is not empty, neither holds '#' or '$', and the url
    is clean. *)
Definition plain (e : string * string) : Prop :=
  fst e <> EmptyString
  /\ free_of "#" (fst e) = true /\ free_of "$" (fst e) = true
  /\ free_of "#" (snd e) = true /\ free_of "$" (snd e) = true
  /\ dirty (snd e) = false.

End ParsersMore.

(* ------------------------------------------------------------------ *)
(** ** The HLS manifest parser: [parseHLSManifest] *)

Module HlsManifest.

Import JS.

(** [s.startsWith(p)]. *)
Definition startsWith (p s : string) : bool := String.prefix p s.

(** [s.substring(n)]. *)
Fixpoint drop (n : nat) (s : string) : string :=
  match n, s with
  | O, _ => s
  | S m, EmptyString => EmptyString
  | S m, String _ rest => drop m rest
  end.

Definition newline : ascii := ascii_of_nat 10.

(** What [fetch(src)] resolves to: a response with its [ok] flag, its
    status and the outcome of [response.text()]. *)
Record Response := { ok : bool; status : nat; text : outcome string }.

Section Parser.

(** JavaScript numbers are floating point; the parser only takes the
    number a duration text stands for, starts at 0 and adds, so the numbers
    and these three operations are left abstract. *)
Variable Num : Type.
Variable zero : Num.
Variable add : Num -> Num -> Num.
Variable parseFloat : string -> Num.
Variable trim : string -> string.

(** [new URL(relative, base).toString()], which throws on a base that is
    not an absolute URL. *)
Variable resolve : string -> string -> outcome string.

Record Segment := { url : string; duration : Num; startTime : Num }.

(** The variables of the loop. *)
Record Loop := {
  segments : list Segment;
  currentSegmentDuration : Num;
  currentStartTime : Num
}.

Definition is_absolute (trimmed : string) : bool :=
  startsWith "http://" trimmed || startsWith "https://" trimmed || startsWith "/" trimmed.

(** A line that names a segment: not empty and not a tag or comment. *)
Definition names_segment (trimmed : string) : bool :=
  truthy trimmed && negb (startsWith "#" trimmed).

(** One turn of [for (const line of lines)]. *)
Definition step (src : string) (l : Loop) (line : string) : outcome Loop :=
  let trimmed := trim line in
  if startsWith "#EXTINF:" trimmed then
    let durationStr := hd EmptyString (split "," (drop 8 trimmed)) in
    Returns {| segments := segments l;
               currentSegmentDuration := parseFloat durationStr;
               currentStartTime := currentStartTime l |}
  else if truthy trimmed && negb (startsWith "#" trimmed) then
    match (if is_absolute trimmed then Returns trimmed else resolve trimmed src) with
    | Throws e => Throws e
    | Returns segmentUrl =>
        Returns {| segments := segments l ++ [ {| url := segmentUrl;
                                                  duration := currentSegmentDuration l;
                                                  startTime := currentStartTime l |} ];
                   currentSegmentDuration := currentSegmentDuration l;
                   currentStartTime := add (currentStartTime l) (currentSegmentDuration l) |}
    end
  else Returns l.

Fixpoint loop (src : string) (lines : list string) (l : Loop) : outcome Loop :=
  match lines with
  | [] => Returns l
  | line :: rest =>
      match step src l line with
      | Throws e => Throws e
      | Returns l' => loop src rest l'
      end
  end.

(** [parseHLSManifest(src)], given what [fetch(src)] does. *)
Definition parseHLSManifest (src : string) (fetched : outcome Response)
  : outcome (list Segment) :=
  match fetched with
  | Throws e => Throws e
  | Returns response =>
      if negb (ok response) then
        Throws (ErrorObject ("Failed to fetch manifest: " ++ show_nat (status response)))
      else
        match text response with
        | Throws e => Throws e
        | Returns manifestText =>
            match loop src (split newline manifestText)
                    {| segments := []; currentSegmentDuration := zero;
                       currentStartTime := zero |} with
            | Throws e => Throws e
            | Returns l => Returns (segments l)
            end
        end
  end.

(** Each segment starts where the one before it ends, the first at [start]. *)
Fixpoint chained (start : Num) (segs : list Segment) : Prop :=
  match segs with
  | [] => True
  | s :: rest => startTime s = start /\ chained (add start (duration s)) rest
  end.

(** The end of the last of [segs] when the first starts at [start]. *)
Definition end_of (start : Num) (segs : list Segment) : Num :=
  fold_left (fun t s => add t (duration s)) segs start.

End Parser.

End HlsManifest.

(* ------------------------------------------------------------------ *)
(** ** The HLS player hook: the handler of [Hls.Events.ERROR] *)

Module HlsPlayer.

Definition MAX_RETRIES : nat := 3.

(** [data.type]: a network error, a media error, or any other type. *)
Inductive ErrorType := NETWORK_ERROR | MEDIA_ERROR | OTHER_ERROR.

Record ErrorData := { fatal : bool; type : ErrorType; details : option string }.

(** What the handler does to the player and to its [onError] callback
    (called when the caller passed one). *)
Inductive Effect :=
| startLoad
| recoverMediaError
| onError (message : string)
| destroy.

Record Retries := { networkErrorRetries : nat; mediaErrorRetries : nat }.

Definition handleError (r : Retries) (data : ErrorData) : Retries * list Effect :=
  if fatal data then
    match type data with
    | NETWORK_ERROR =>
        let n := S (networkErrorRetries r) in
        ({| networkErrorRetries := n; mediaErrorRetries := mediaErrorRetries r |},
         if Nat.leb n MAX_RETRIES then [startLoad]
         else [onError "网络错误：无法加载视频流"; destroy])
    | MEDIA_ERROR =>
        let n := S (mediaErrorRetries r) in
        ({| networkErrorRetries := networkErrorRetries r; mediaErrorRetries := n |},
         if Nat.leb n MAX_RETRIES then [recoverMediaError]
         else [onError "媒体错误：视频格式不支持或已损坏"; destroy])
    | OTHER_ERROR =>
        (r, [onError ("致命错误：" ++
                      match details data with
                      | Some d => JS.or_else d "未知错误"
                      | None => "未知错误"
                      end);
             destroy])
    end
  else (r, []).

(** The effects of the handler over a sequence of error events, from the
    counters [r] on. *)
Fixpoint handleAll (r : Retries) (events : list ErrorData) : list Effect :=
  match events with
  | [] => []
  | data :: rest => snd (handleError r data) ++ handleAll (fst (handleError r data)) rest
  end.

Definition fresh : Retries := {| networkErrorRetries := 0; mediaErrorRetries := 0 |}.

Definition is_startLoad (e : Effect) : bool :=
  match e with startLoad => true | _ => false end.

Definition is_recover (e : Effect) : bool :=
  match e with recoverMediaError => true | _ => false end.

Definition is_destroy (e : Effect) : bool :=
  match e with destroy => true | _ => false end.

Definition fatal_of (t : ErrorType) (data : ErrorData) : bool :=
  fatal data &&
  match t, type data with
  | NETWORK_ERROR, NETWORK_ERROR | MEDIA_ERROR, MEDIA_ERROR | OTHER_ERROR, OTHER_ERROR => true
  | _, _ => false
  end.

(** How many members of a list pass a test. *)
Definition count_if {A} (p : A -> bool) (xs : list A) : nat := List.length (filter p xs).

End HlsPlayer.

(* ------------------------------------------------------------------ *)
(** ** The search route: the two ways in which a request fails *)

Module SearchRouteFailure.

Import JS Types SearchRoute.

Section Failures.

Variable trim : string -> string.
Variable getSourceById : string -> option VideoSource.
Variable searchVideos : string -> list VideoSource -> value -> outcome (list SearchResult).
Variable checkMultipleVideos : list Video -> nat -> outcome (list Video).

(** The request fails validation: the body is destructured and one of the
    three tests of lines 46, 53 and 65 holds of it. *)
Definition validation_failure (request_json : outcome request_body) : Prop :=
  exists query_ sourceIds page_,
    request_json = Returns (BodyObject query_ sourceIds page_)
    /\ (invalid_query trim query_ = true
        \/ invalid_sources sourceIds = true
        \/ defined_only (map getSourceById (items_of sourceIds)) = []).

(** An internal error: something throws [e] inside the [try].  Four places
    can: [request.json()], the destructuring of the body, [searchVideos] on
    a request that passed validation, and [checkMultipleVideos] on what
    [searchVideos] returned. *)
Definition internal_error (request_json : outcome request_body) (e : thrown) : Prop :=
  request_json = Throws e
  \/ (exists body_, request_json = Returns body_ /\ fst (destructure body_) = Throws e)
  \/ (exists query_ sourceIds page_,
        request_json = Returns (BodyObject query_ sourceIds page_)
        /\ invalid_query trim query_ = false
        /\ invalid_sources sourceIds = false
        /\ defined_only (map getSourceById (items_of sourceIds)) <> []
        /\ (searchVideos (trim (text_of query_))
              (defined_only (map getSourceById (items_of sourceIds))) (page_or_1 page_)
            = Throws e
            \/ exists found,
                 searchVideos (trim (text_of query_))
                   (defined_only (map getSourceById (items_of sourceIds))) (page_or_1 page_)
                 = Returns found
                 /\ checkMultipleVideos (flat_map results found) 8 = Throws e)).

End Failures.

(** The three messages of the validation returns. *)
Definition validation_messages : list string :=
  [ "Invalid or missing query parameter";
    "At least one source must be specified";
    "No valid sources found" ].

End SearchRouteFailure.

(* ------------------------------------------------------------------ *)
(** ** The search route: comparing the result bodies of two runs *)

Module SearchRouteRuns.

Import JS Types SearchRoute SearchRouteMore.

(** Every entry of [entries] has a counterpart among [entries']: the same
    source, the same response time, and the same videos up to order. *)
Definition matched (entries entries' : list SearchResult) : Prop :=
  forall entry, In entry entries ->
    exists entry',
      In entry' entries'
      /\ result_source entry' = result_source entry
      /\ responseTime entry' = responseTime entry
      /\ Permutation (results entry') (results entry).

(** The [sources] of [r] follow the order of the verified videos
    [availableVideos]: the entries are the sources of these videos in the
    order of their first occurrence, and an entry holds the videos of its
    source in the order in which they stand there. *)
Definition follows (r : SearchResponse) (availableVideos : list Video) : Prop :=
  map result_source (sources r) = first_occurrences (map source availableVideos)
  /\ forall entry, In entry (sources r) ->
       results entry
       = filter (fun v => String.eqb (source v) (result_source entry)) availableVideos.

End SearchRouteRuns.

(* ------------------------------------------------------------------ *)
(** ** The search-stream client: the timers of the 'videos' records *)

Module SearchStreamTimers.

Import JS Types SearchStream.

(** [newVideos] of a 'videos' record handled at the clock reading [now]. *)
Definition newVideos (now : Z) (vs : list Video) : list ShownVideo :=
  map (fun v => {| video := v;
                   sourceName := SourceNames.getSourceName (source v);
                   isNew := true;
                   addedAt := now |}) vs.

(** [nv.vod_id === v.vod_id && nv.source === v.source && nv.addedAt === v.addedAt]. *)
Definition same_entry (nv v : ShownVideo) : bool :=
  Z.eqb (vod_id (video nv)) (vod_id (video v))
  && String.eqb (source (video nv)) (source (video v))
  && Z.eqb (addedAt nv) (addedAt v).

(** The callback of the timer, as an update of [results]:
    [prev.map(v => wasJustAdded ? { ...v, isNew: false } : v)]. *)
Definition expire (added_ prev : list ShownVideo) : list ShownVideo :=
  map (fun v => if existsb (fun nv => same_entry nv v) added_
                then {| video := video v; sourceName := sourceName v;
                        isNew := false; addedAt := addedAt v |}
                else v)
      prev.

(** A timer that waits: the clock reading from which its callback may run
    and the [newVideos] the callback closes over. *)
Record Timer := { due : Z; added : list ShownVideo }.

(** A run of [performSearch] together with the timers that wait. *)
Record Timed := { run : Run; timers : list Timer }.

Definition idle (r : Run) : Timed := {| run := r; timers := [] |}.

Definition on_run (f : Run -> Run) (t : Timed) : Timed :=
  {| run := f (run t); timers := timers t |}.

(** [setTimeout(..., 300)]: the timer a line starts.  Only the 'videos'
    branch starts one, after its updates; a record without [videos] has
    thrown before. *)
Definition started_by (now : Z) (l : Line) : list Timer :=
  match l with
  | Parsed data =>
      if equals (type data) "progress" then []
      else if equals (type data) "videos" then
        match videos data with
        | Some vs => [ {| due := (now + 300)%Z; added := newVideos now vs |} ]
        | None => []
        end
      else []
  | _ => []
  end.

(** One turn of the [for] loop, with the timer it starts. *)
Definition arrive (searchQuery : string) (now : Z) (l : Line) (t : Timed) : Timed :=
  {| run := processLine searchQuery (run t) (now, l);
     timers := timers t ++ started_by now l |}.

(** The callback of the waiting timer at position [k] runs at the clock
    reading [now]: [setResults(prev => ...)].  Nothing happens when there
    is no such timer or its 300 ms are not over. *)
Definition fire (now : Z) (k : nat) (t : Timed) : Timed :=
  match nth_error (timers t) k with
  | Some timer =>
      if (due timer <=? now)%Z then
        {| run := with_state (fun s => setResults (expire (added timer) (results s)) s) (run t);
           timers := firstn k (timers t) ++ skipn (S k) (timers t) |}
      else t
  | None => t
  end.

(** What happens while the search runs: a line is handled by the loop, or
    the callback of a timer runs.  Callbacks run while the function waits
    for the next chunk; letting them run between any two lines covers every
    such run. *)
Inductive Event :=
| Arrives (now : Z) (l : Line)
| Fires (now : Z) (k : nat).

Definition step (searchQuery : string) (t : Timed) (e : Event) : Timed :=
  match e with
  | Arrives now l => arrive searchQuery now l t
  | Fires now k => fire now k t
  end.

Definition play (searchQuery : string) (events : list Event) (t : Timed) : Timed :=
  fold_left (step searchQuery) events t.

(** The lines among the events. *)
Definition arrivals (events : list Event) : list (Z * Line) :=
  flat_map (fun e => match e with Arrives now l => [(now, l)] | Fires _ _ => [] end) events.

(** Callbacks that run after [performSearch] has returned. *)
Definition fireAll (later : list (Z * nat)) (t : Timed) : Timed :=
  fold_left (fun t' f => fire (fst f) (snd f) t') later t.

Section Hook.

Variable trim : string -> string.

(** [performSearch] on a response that delivers lines, with the timers:
    the guard, the reset, the loop with the callbacks that run meanwhile,
    the outer [catch] and the [finally]. *)
Definition performSearchTimed (searchQuery : string) (events : list Event) (ending : Ending)
    (t0 : Timed) : Timed :=
  if negb (truthy (trim searchQuery)) || loading (state (run t0)) then t0
  else
    let started :=
      {| run := {| state := reset (state (run t0)); allVideos := []; sourceVideoCounts := [];
                   cache := cache (run t0); urls := urls (run t0) ++ [searchQuery] |};
         timers := timers t0 |} in
    let after_try :=
      match ending with
      | Done => play searchQuery events started
      | ReadRejected => on_run (with_state (setLoading false)) (play searchQuery events started)
      end in
    on_run (with_state (setCurrentSource "")) after_try.

End Hook.

(** A shown video with its [isNew] flag off. *)
Definition aged (v : ShownVideo) : ShownVideo :=
  {| video := video v; sourceName := sourceName v; isNew := false; addedAt := addedAt v |}.

(** Two runs that differ at most in the [isNew] flags of [results]. *)
Definition similar (a b : Run) : Prop :=
  setResults [] (state a) = setResults [] (state b)
  /\ map aged (results (state a)) = map aged (results (state b))
  /\ allVideos a = allVideos b
  /\ sourceVideoCounts a = sourceVideoCounts b
  /\ cache a = cache b
  /\ urls a = urls b.

End SearchStreamTimers.

(* ================================================================== *)
(** * Properties *)

(* ------------------------------------------------------------------ *)
(** ** [parseEpisodes] *)

Module ParsersFacts.

Import JS Parsers.

Lemma split_not_nil (sep : ascii) (s : string) : split sep s <> [].
Proof.
  destruct s as [|c rest]; simpl; [discriminate|].
  destruct (Ascii.eqb c sep); [discriminate|].
  destruct (split sep rest); discriminate.
Qed.

Lemma split_first (sep : ascii) (s : string) :
  nth_error (split sep s) 0 = Some (before sep s).
Proof.
  induction s as [|c rest IH]; simpl; [reflexivity|].
  destruct (Ascii.eqb c sep); [reflexivity|].
  destruct (split sep rest) as [|piece pieces] eqn:E.
  - exfalso. exact (split_not_nil sep rest E).
  - simpl in *. congruence.
Qed.

Lemma split_second (sep : ascii) (s : string) :
  or_empty (nth_error (split sep s) 1) = before sep (after sep s).
Proof.
  induction s as [|c rest IH]; [reflexivity|].
  cbn [split after]. destruct (Ascii.eqb c sep) eqn:Ec.
  - change (nth_error (EmptyString :: split sep rest) 1)
      with (nth_error (split sep rest) 0).
    rewrite split_first. reflexivity.
  - destruct (split sep rest) as [|piece pieces] eqn:E.
    + exfalso. exact (split_not_nil sep rest E).
    + exact IH.
Qed.

Lemma toEpisode_episodeOf (segment : string) (i : nat) :
  toEpisode segment i = episodeOf segment i.
Proof.
  unfold toEpisode, episodeOf, destructure2. cbv beta iota zeta.
  rewrite split_first, split_second. reflexivity.
Qed.

Lemma mapi_from_ext {A B} (f g : A -> nat -> B) (xs : list A) :
  (forall x i, f x i = g x i) -> forall i, mapi_from i f xs = mapi_from i g xs.
Proof.
  intros H. induction xs as [|x xs IH]; intros i; simpl; [reflexivity|].
  rewrite H, IH. reflexivity.
Qed.

Lemma cleanUrl_step (c : ascii) (tl : string) :
  cleanUrl (String c tl) =
  if hit c tl
  then match tl with
       | String _ (String _ rest) => String c (String "/" (cleanUrl rest))
       | _ => String c (cleanUrl tl)
       end
  else String c (cleanUrl tl).
Proof.
  destruct tl as [|a [|b rest]]; reflexivity.
Qed.

Lemma cleanUrl_scan_upto (n : nat) :
  forall u, String.length u <= n -> Scan u (cleanUrl u).
Proof.
  induction n as [|n IH]; intros u Hn.
  - destruct u; simpl in Hn; [constructor | lia].
  - destruct u as [|c tl]; [constructor|].
    rewrite cleanUrl_step. destruct (hit c tl) eqn:Eh.
    + destruct tl as [|a [|b rest]]; try discriminate.
      unfold hit in Eh.
      apply andb_prop in Eh as [Eh Eb]. apply andb_prop in Eh as [Ec Ea].
      apply Ascii.eqb_eq in Ea, Eb. subst a b.
      apply scan_rewrite.
      * now apply negb_true_iff.
      * apply IH. simpl in Hn. lia.
    + apply scan_copy; [exact Eh|]. apply IH. simpl in Hn. lia.
Qed.

Lemma cleanUrl_scan (u : string) : Scan u (cleanUrl u).
Proof. apply (cleanUrl_scan_upto (String.length u)). lia. Qed.

Lemma scan_functional (u out : string) : Scan u out -> out = cleanUrl u.
Proof.
  induction 1 as [|c rest out Hc _ IH|c tl out Hh _ IH].
  - reflexivity.
  - rewrite cleanUrl_step. unfold hit. rewrite Hc. simpl. now rewrite IH.
  - rewrite cleanUrl_step, Hh. now rewrite IH.
Qed.

(** C10, as stated, fails: in a segment with a second '$' the url stops at
    that '$'; it is neither the text after the first '$' nor the text after
    the last one. *)
Lemma parseEpisodes_url_stops_at_second_dollar :
  parseEpisodes "EP1$http://h/1.m3u8$hd" =
    [ {| name := "EP1"; url := "http://h/1.m3u8"; index := 0 |} ]
  /\ url (episodeAsDocumented "EP1$http://h/1.m3u8$hd" 0) = "http://h/1.m3u8$hd"
  /\ cleanUrl (after_last "$" "EP1$http://h/1.m3u8$hd") = "hd"
  /\ String.eqb "http://h/1.m3u8" "http://h/1.m3u8$hd" = false
  /\ String.eqb "http://h/1.m3u8" "hd" = false.
Proof. repeat split; reflexivity. Qed.

(** C10 (amended): [parseEpisodes] of the empty string is the empty list;
    otherwise there is one episode per non-empty '#'-separated segment, the
    one at position i having index i, as name the text before the segment's
    first '$' (or "Episode i+1" when that is empty) and as url the text
    between the first '$' and the next '$' or the segment's end (empty when
    there is no '$'), rewritten by the left-to-right scan [Scan], which
    [cleanUrl] computes and which determines it. *)
Theorem parseEpisodes_fields (playUrl : string) :
  parseEpisodes EmptyString = []
  /\ parseEpisodes playUrl = mapi episodeOf (filter truthy (split "#" playUrl))
  /\ (forall u out, Scan u out <-> out = cleanUrl u).
Proof.
  split; [reflexivity|]. split.
  - unfold parseEpisodes. destruct playUrl as [|c rest]; [reflexivity|].
    cbn [truthy negb]. unfold mapi. apply mapi_from_ext. exact toEpisode_episodeOf.
  - intros u out. split.
    + apply scan_functional.
    + intros ->. apply cleanUrl_scan.
Qed.

End ParsersFacts.

(* ------------------------------------------------------------------ *)
(** ** The search-history store *)

Module SearchHistoryFacts.

Import JS SearchHistory.

Lemma distinct_after_filter (keep : SearchHistoryItem -> bool)
    (history : list SearchHistoryItem) :
  NoDup (map query history) -> NoDup (map query (filter keep history)).
Proof.
  induction history as [|item history IH]; simpl; intros H; [constructor|].
  inversion H as [|? ? Hin Hnd]; subst.
  destruct (keep item); simpl; [constructor|]; auto.
  intros Hx. apply Hin. apply in_map_iff in Hx as [other [Hq Hother]].
  apply filter_In in Hother as [Hother _]. apply in_map_iff. eauto.
Qed.

Lemma In_firstn {A} (n : nat) (l : list A) (x : A) : In x (firstn n l) -> In x l.
Proof.
  revert n. induction l as [|y l IH]; intros [|n]; simpl; try tauto.
  intros [H|H]; [left; exact H | right; exact (IH n H)].
Qed.

Lemma NoDup_firstn {A} (n : nat) (l : list A) : NoDup l -> NoDup (firstn n l).
Proof.
  revert n. induction l as [|x l IH]; intros [|n] H; simpl; try constructor.
  - inversion H; subst. intros Hx. apply In_firstn in Hx. contradiction.
  - inversion H; subst. auto.
Qed.

Lemma firstn_map {A B} (f : A -> B) (n : nat) (l : list A) :
  map f (firstn n l) = firstn n (map f l).
Proof.
  revert n. induction l as [|x l IH]; intros [|n]; simpl; try reflexivity.
  now rewrite IH.
Qed.

Lemma filter_length_le {A} (p : A -> bool) (l : list A) :
  List.length (filter p l) <= List.length l.
Proof.
  induction l as [|x l IH]; simpl; [lia|]. destruct (p x); simpl; lia.
Qed.

Lemma truthy_false (s : string) : truthy s = false <-> s = EmptyString.
Proof. destruct s; simpl; split; congruence. Qed.

Section Invariant.

Variable trim : string -> string.

Lemma add_well_formed (q : string) (now : Z) (s : Store) :
  well_formed s -> well_formed (addSearchHistory trim q now s).
Proof.
  intros [Hlen Hnd]. unfold addSearchHistory.
  destruct (truthy (trim q)); cbn [negb]; [|split; assumption].
  unfold well_formed. cbn [searchHistory]. split.
  - rewrite length_firstn. unfold MAX_SEARCH_HISTORY. lia.
  - rewrite firstn_map. apply NoDup_firstn. cbn [map query]. constructor.
    + intros Hin. apply in_map_iff in Hin as [item [Hq Hin]].
      apply filter_In in Hin as [_ Hne].
      rewrite Hq, String.eqb_refl in Hne. discriminate.
    + apply distinct_after_filter. exact Hnd.
Qed.

Lemma remove_well_formed (q : string) (s : Store) :
  well_formed s -> well_formed (removeSearchHistory q s).
Proof.
  intros [Hlen Hnd]. unfold removeSearchHistory. split; simpl.
  - etransitivity; [apply filter_length_le | exact Hlen].
  - apply distinct_after_filter. exact Hnd.
Qed.

Lemma clear_well_formed (s : Store) : well_formed (clearSearchHistory s).
Proof. split; simpl; [lia | constructor]. Qed.

Lemma apply_well_formed (s : Store) (a : action) :
  well_formed s -> well_formed (apply trim s a).
Proof.
  destruct a; simpl; intros H.
  - now apply add_well_formed.
  - now apply remove_well_formed.
  - apply clear_well_formed.
Qed.

Lemma fold_well_formed (actions : list action) (s : Store) :
  well_formed s -> well_formed (fold_left (apply trim) actions s).
Proof.
  revert s. induction actions as [|a actions IH]; intros s H; simpl; [exact H|].
  apply IH. now apply apply_well_formed.
Qed.

End Invariant.

(** C9: after every sequence of add, remove and clear calls on the store
    the history has at most 20 entries and no query twice; an add whose
    query trims to the empty string changes nothing, and any other add puts
    the trimmed query at index 0. *)
Theorem history_bounded_distinct_newest_first
    (trim : string -> string) (actions : list action) :
  List.length (searchHistory (run trim actions)) <= 20
  /\ NoDup (map query (searchHistory (run trim actions)))
  /\ (forall q now s, trim q = EmptyString -> addSearchHistory trim q now s = s)
  /\ (forall q now s, trim q <> EmptyString ->
        nth_error (searchHistory (addSearchHistory trim q now s)) 0
        = Some {| query := trim q; timestamp := now |}).
Proof.
  assert (W : well_formed (run trim actions)).
  { unfold run. apply fold_well_formed. split; simpl; [lia | constructor]. }
  destruct W as [Hlen Hnd]. repeat split; try assumption.
  - intros q now s Hq. unfold addSearchHistory. rewrite Hq. reflexivity.
  - intros q now s Hq. unfold addSearchHistory.
    destruct (truthy (trim q)) eqn:E.
    + reflexivity.
    + apply truthy_false in E. contradiction.
Qed.

(** The theorem at work: twenty-two distinct adds, one blank add and one
    remove leave twenty entries, the latest query first. *)
Lemma history_bounded_distinct_newest_first_witness :
  List.length (searchHistory (run trim_ascii
     (map (fun n => Add (show_nat n) (Z.of_nat n)) (seq 0 22)
      ++ [Add "   " 99; Add " matrix " 100; Remove "3"; Add "21" 101]))) <= 20
  /\ addSearchHistory trim_ascii "  " 5 initial = initial
  /\ nth_error (searchHistory (addSearchHistory trim_ascii " matrix " 100 initial)) 0
     = Some {| query := "matrix"; timestamp := 100 |}.
Proof.
  pose proof (history_bounded_distinct_newest_first trim_ascii
     (map (fun n => Add (show_nat n) (Z.of_nat n)) (seq 0 22)
      ++ [Add "   " 99; Add " matrix " 100; Remove "3"; Add "21" 101]))
    as [Hlen [_ [Hblank Hfirst]]].
  split; [exact Hlen|]. split.
  - apply Hblank. reflexivity.
  - apply (Hfirst " matrix " 100%Z initial). discriminate.
Defined.

End SearchHistoryFacts.
(* ------------------------------------------------------------------ *)
(** ** The search route *)

Module SearchRouteFacts.

Import JS Types SearchRoute.

(** *** The insertion-ordered map *)

Lemma map_has_get {V} (key : string) (m : Map V) :
  map_has key m = match map_get key m with Some _ => true | None => false end.
Proof.
  unfold map_has, map_get. induction m as [|[k v] m IH]; simpl; [reflexivity|].
  destruct (String.eqb k key); [reflexivity | exact IH].
Qed.

Lemma map_get_set {V} (key k : string) (v : V) (m : Map V) :
  map_get k (map_set key v m) = if String.eqb key k then Some v else map_get k m.
Proof.
  unfold map_get. induction m as [|[k' w] m IH]; simpl.
  - destruct (String.eqb key k); reflexivity.
  - destruct (String.eqb k' key) eqn:E; simpl.
    + apply String.eqb_eq in E. subst k'. destruct (String.eqb key k); reflexivity.
    + destruct (String.eqb k' k) eqn:E'; simpl.
      * apply String.eqb_eq in E'. subst k'. now rewrite String.eqb_sym, E.
      * exact IH.
Qed.

Lemma map_get_push {A} (key k : string) (x : A) (m : Map (list A)) :
  map_get k (map_push key x m) =
  if String.eqb key k then option_map (fun xs => xs ++ [x]) (map_get k m) else map_get k m.
Proof.
  unfold map_get. induction m as [|[k' xs] m IH]; simpl.
  - destruct (String.eqb key k); reflexivity.
  - destruct (String.eqb k' key) eqn:E; simpl.
    + apply String.eqb_eq in E. subst k'. destruct (String.eqb key k); reflexivity.
    + destruct (String.eqb k' k) eqn:E'; simpl.
      * apply String.eqb_eq in E'. subst k'. now rewrite String.eqb_sym, E.
      * exact IH.
Qed.

Lemma get_group_step (k : string) (m : Map (list Video)) (v : Video) :
  get_or_nil k (group_step m v) =
  if String.eqb (source v) k then get_or_nil k m ++ [v] else get_or_nil k m.
Proof.
  unfold get_or_nil, group_step. rewrite map_get_push, map_has_get.
  destruct (String.eqb (source v) k) eqn:E.
  - apply String.eqb_eq in E. subst k.
    destruct (map_get (source v) m) eqn:G; cbn [negb].
    + rewrite G. reflexivity.
    + rewrite map_get_set, String.eqb_refl. reflexivity.
  - destruct (map_get (source v) m) eqn:G; cbn [negb]; [reflexivity|].
    rewrite map_get_set, E. reflexivity.
Qed.

Lemma get_fold_group (k : string) (vs : list Video) (m : Map (list Video)) :
  get_or_nil k (fold_left group_step vs m) =
  get_or_nil k m ++ filter (fun v => String.eqb (source v) k) vs.
Proof.
  revert m. induction vs as [|v vs IH]; intros m; simpl.
  - now rewrite app_nil_r.
  - rewrite IH, get_group_step. destruct (String.eqb (source v) k).
    + now rewrite <- app_assoc.
    + reflexivity.
Qed.

(** One turn of the grouping loop adds the key of its video and keeps the
    keys that were there. *)
Lemma has_group_step (k : string) (m : Map (list Video)) (v : Video) :
  map_has k (group_step m v) = String.eqb (source v) k || map_has k m.
Proof.
  rewrite !map_has_get. unfold group_step. rewrite map_get_push, map_has_get.
  destruct (String.eqb (source v) k) eqn:E.
  - apply String.eqb_eq in E. subst k.
    destruct (map_get (source v) m) eqn:G; cbn [negb].
    + rewrite G. reflexivity.
    + rewrite map_get_set, String.eqb_refl. reflexivity.
  - destruct (map_get (source v) m) eqn:G; cbn [negb orb]; [reflexivity|].
    rewrite map_get_set, E. reflexivity.
Qed.

(** [videosBySource.get(id)?.length || 0] counts the verified videos of [id]. *)
Lemma count_in_group (k : string) (vs : list Video) :
  match map_get k (group vs) with Some videos => List.length videos | None => 0 end
  = List.length (filter (fun v => String.eqb (source v) k) vs).
Proof.
  pose proof (get_fold_group k vs []) as H. unfold group, get_or_nil in *.
  simpl in H. destruct (map_get k (fold_left group_step vs [])); rewrite <- H; reflexivity.
Qed.

Lemma flat_push (k : string) (v : Video) (m : Map (list Video)) :
  map_has k m = true ->
  Permutation (flat_map snd (map_push k v m)) (v :: flat_map snd m).
Proof.
  unfold map_has. induction m as [|[k' xs] m IH]; simpl; [discriminate|].
  destruct (String.eqb k' k) eqn:E; simpl.
  - intros _. rewrite <- app_assoc. simpl.
    rewrite <- (Permutation_middle xs (flat_map snd m) v). reflexivity.
  - intros H. rewrite (IH H). rewrite <- (Permutation_middle xs (flat_map snd m) v).
    reflexivity.
Qed.

Lemma flat_set_nil (k : string) (m : Map (list Video)) :
  map_has k m = false -> flat_map snd (map_set k [] m) = flat_map snd m.
Proof.
  unfold map_has. induction m as [|[k' xs] m IH]; simpl; [reflexivity|].
  destruct (String.eqb k' k); simpl; [discriminate|].
  intros H. now rewrite (IH H).
Qed.

Lemma has_set {V} (k : string) (v : V) (m : Map V) : map_has k (map_set k v m) = true.
Proof. rewrite map_has_get, map_get_set, String.eqb_refl. reflexivity. Qed.

Lemma flat_group_step (m : Map (list Video)) (v : Video) :
  Permutation (flat_map snd (group_step m v)) (v :: flat_map snd m).
Proof.
  unfold group_step. destruct (map_has (source v) m) eqn:H; cbn [negb].
  - now apply flat_push.
  - rewrite flat_push by apply has_set. now rewrite flat_set_nil.
Qed.

Lemma flat_fold_group (vs : list Video) (m : Map (list Video)) :
  Permutation (flat_map snd (fold_left group_step vs m)) (flat_map snd m ++ vs).
Proof.
  revert m. induction vs as [|v vs IH]; intros m; simpl.
  - now rewrite app_nil_r.
  - rewrite IH, flat_group_step. simpl. apply Permutation_middle.
Qed.

(** The grouped videos are the verified videos, each as often as it was
    delivered. *)
Lemma flat_group (vs : list Video) : Permutation (flat_map snd (group vs)) vs.
Proof. apply (flat_fold_group vs []). Qed.

(** *** The handler's paths *)

Section Paths.

Variable trim : string -> string.
Variable getSourceById : string -> option VideoSource.
Variable searchVideos : string -> list VideoSource -> value -> outcome (list SearchResult).
Variable checkMultipleVideos : list Video -> nat -> outcome (list Video).

Local Abbreviation POST' := (POST trim getSourceById searchVideos checkMultipleVideos).

(** Runs the handler up to its first test or call that does not compute. *)
Ltac run_handler := unfold POST; cbn [bind destructure ret raise try_catch app snd].

Lemma valid_query_is_text (q : value) :
  invalid_query trim q = false -> exists s, q = Text s.
Proof.
  unfold invalid_query. intros H.
  apply orb_false_iff in H as [H _]. apply orb_false_iff in H as [_ H].
  destruct q; try discriminate. eauto.
Qed.

Lemma valid_sources_is_array (ids : value) :
  invalid_sources ids = false -> exists items, ids = Array items.
Proof.
  unfold invalid_sources. intros H.
  apply orb_false_iff in H as [H _]. apply orb_false_iff in H as [_ H].
  destruct ids; try discriminate. eauto.
Qed.

Lemma bad_query_invalid (q : value) : bad_query trim q -> invalid_query trim q = true.
Proof.
  unfold invalid_query. intros [-> | [H | [s [-> H]]]].
  - reflexivity.
  - rewrite H. cbn [negb]. now rewrite orb_true_r.
  - cbn [text_of]. rewrite H. cbn. now rewrite orb_true_r.
Qed.

Lemma bad_sources_invalid (ids : value) : bad_sources ids -> invalid_sources ids = true.
Proof.
  unfold invalid_sources. intros [-> | [H | ->]].
  - reflexivity.
  - rewrite H. cbn [negb]. now rewrite orb_true_r.
  - reflexivity.
Qed.

Lemma none_resolves_nil (ids : value) :
  none_resolves getSourceById ids -> defined_only (map getSourceById (items_of ids)) = [].
Proof.
  unfold none_resolves. induction (items_of ids) as [|i items IH]; intros H; simpl.
  - reflexivity.
  - rewrite (H i) by now left. apply IH. intros j Hj. apply H. now right.
Qed.

(** The three validation returns. *)
Lemma POST_invalid (q ids page_ : value) :
  invalid_query trim q = true \/ invalid_sources ids = true
  \/ defined_only (map getSourceById (items_of ids)) = [] ->
  exists message,
    POST' (Returns (BodyObject q ids page_))
    = ({| body := ErrorBody None message; status := 400 |}, []).
Proof.
  intros H. run_handler.
  destruct (invalid_query trim q) eqn:Eq; [eexists; reflexivity|].
  destruct (invalid_sources ids) eqn:Es; [eexists; reflexivity|].
  destruct H as [H | [H | H]]; try discriminate.
  rewrite H. eexists. reflexivity.
Qed.

(** The path on which both collaborators return. *)
Lemma POST_valid (q ids page_ : value) (sr : list SearchResult) (av : list Video) :
  invalid_query trim q = false -> invalid_sources ids = false ->
  defined_only (map getSourceById (items_of ids)) <> [] ->
  searchVideos (trim (text_of q)) (defined_only (map getSourceById (items_of ids)))
    (page_or_1 page_) = Returns sr ->
  checkMultipleVideos (flat_map results sr) 8 = Returns av ->
  POST' (Returns (BodyObject q ids page_))
  = (respond trim (text_of q) (page_or_1 page_) (items_of ids) sr av,
     [ SearchCall (trim (text_of q)) (defined_only (map getSourceById (items_of ids)))
         (page_or_1 page_);
       CheckCall (flat_map results sr) 8 ]).
Proof.
  intros Hq Hs Hn Hsr Hav. run_handler.
  rewrite Hq, Hs.
  destruct (defined_only (map getSourceById (items_of ids))) as [|s0 ss] eqn:Ed;
    [contradiction|].
  cbn [List.length Nat.eqb]. rewrite Hsr, Hav. reflexivity.
Qed.

(** Every run of the handler takes one of three paths: the catch-all (500,
    [success: false]), a validation return (400, no [success], nothing
    called), or the result built from the collaborators' answers. *)
Lemma POST_paths (request_json : outcome request_body) :
  (exists message log,
     POST' request_json = ({| body := ErrorBody (Some false) message; status := 500 |}, log))
  \/ (exists message,
     POST' request_json = ({| body := ErrorBody None message; status := 400 |}, []))
  \/ (exists q ids page_ sr av,
     request_json = Returns (BodyObject (Text q) (Array ids) page_)
     /\ invalid_query trim (Text q) = false
     /\ defined_only (map getSourceById ids) <> []
     /\ searchVideos (trim q) (defined_only (map getSourceById ids)) (page_or_1 page_)
        = Returns sr
     /\ checkMultipleVideos (flat_map results sr) 8 = Returns av
     /\ POST' request_json
        = (respond trim q (page_or_1 page_) ids sr av,
           [ SearchCall (trim q) (defined_only (map getSourceById ids)) (page_or_1 page_);
             CheckCall (flat_map results sr) 8 ])).
Proof.
  destruct request_json as [[|q ids page_]|e].
  - left. do 2 eexists. reflexivity.
  - destruct (invalid_query trim q) eqn:Eq;
      [right; left; apply POST_invalid; now left|].
    destruct (invalid_sources ids) eqn:Es;
      [right; left; apply POST_invalid; right; now left|].
    destruct (defined_only (map getSourceById (items_of ids))) as [|s0 ss] eqn:Ed;
      [right; left; apply POST_invalid; right; now right|].
    destruct (valid_query_is_text q Eq) as [qs ->].
    destruct (valid_sources_is_array ids Es) as [items ->].
    cbn [items_of] in Ed.
    destruct (searchVideos (trim qs) (s0 :: ss) (page_or_1 page_)) as [sr|e] eqn:Esr.
    + destruct (checkMultipleVideos (flat_map results sr) 8) as [av|e] eqn:Eav.
      * right; right. exists qs, items, page_, sr, av.
        rewrite Ed. repeat split; try assumption; try discriminate.
        rewrite <- Ed. apply (POST_valid (Text qs) (Array items) page_ sr av Eq Es).
        -- cbn [items_of]. rewrite Ed. discriminate.
        -- cbn [items_of text_of]. rewrite Ed. exact Esr.
        -- exact Eav.
      * left. run_handler.
        rewrite Eq, Es. cbn [items_of text_of]. rewrite Ed.
        cbn [List.length Nat.eqb]. rewrite Esr, Eav.
        destruct e; do 2 eexists; reflexivity.
    + left. run_handler.
      rewrite Eq, Es. cbn [items_of text_of]. rewrite Ed.
      cbn [List.length Nat.eqb]. rewrite Esr.
      destruct e; do 2 eexists; reflexivity.
  - left. destruct e; do 2 eexists; reflexivity.
Qed.

(** Whenever the handler calls [checkMultipleVideos], the cap it passes is 8. *)
Lemma POST_check_cap (request_json : outcome request_body) (vs : list Video) (cap : nat) :
  In (CheckCall vs cap) (snd (POST' request_json)) -> cap = 8.
Proof.
  destruct request_json as [[|q ids page_]|e]; run_handler; try contradiction.
  destruct (invalid_query trim q); [cbn; contradiction|].
  destruct (invalid_sources ids); [cbn; contradiction|].
  destruct (Nat.eqb _ 0); [cbn; contradiction|].
  destruct (searchVideos _ _ _) as [sr|e]; cbn [bind app snd].
  - destruct (checkMultipleVideos _ 8) as [av|e]; cbn [bind ret try_catch app snd];
      intros [H | [H | []]]; try discriminate; now inversion H.
  - intros [H | []]. discriminate.
Qed.

End Paths.

(** C2, as stated, fails: a request whose body is JSON [null] has no query,
    yet the destructuring throws and the catch-all answers 500 (no search
    and no verification are made). *)
Lemma POST_null_body_is_500 :
  Scenario.POST Scenario.client [] BodyNull
  = ({| body := ErrorBody (Some false)
                  "Cannot destructure property 'query' of 'body' as it is null.";
        status := 500 |}, []).
Proof. reflexivity. Qed.

(** C2 (amended): a request whose body is a JSON value other than null and
    in which the query is missing, not a string or empty after trimming, or
    the source list is missing, not an array or empty, or no requested id
    resolves through [getSourceById], is answered with status 400, and
    neither [searchVideos] nor [checkMultipleVideos] is called. *)
Theorem POST_rejects_bad_request
    (trim : string -> string) (getSourceById : string -> option VideoSource)
    (searchVideos : string -> list VideoSource -> value -> outcome (list SearchResult))
    (checkMultipleVideos : list Video -> nat -> outcome (list Video))
    (q ids page_ : value) :
  bad_query trim q \/ bad_sources ids \/ none_resolves getSourceById ids ->
  exists message,
    POST trim getSourceById searchVideos checkMultipleVideos
      (Returns (BodyObject q ids page_))
    = ({| body := ErrorBody None message; status := 400 |}, []).
Proof.
  intros H. apply POST_invalid. destruct H as [H | [H | H]].
  - left. now apply bad_query_invalid.
  - right; left. now apply bad_sources_invalid.
  - right; right. now apply none_resolves_nil.
Qed.

(** The theorem on a blank query, on a source list that is a string, and on
    ids that are all unknown. *)
Lemma POST_rejects_bad_request_witness :
  (exists message,
     Scenario.POST Scenario.client [] (Scenario.request "   " ["dytt"])
     = ({| body := ErrorBody None message; status := 400 |}, []))
  /\ (exists message,
     Scenario.POST Scenario.client [] (BodyObject (Text "matrix") (Text "dytt") Undefined)
     = ({| body := ErrorBody None message; status := 400 |}, []))
  /\ (exists message,
     Scenario.POST Scenario.client [] (Scenario.request "matrix" ["nowhere"; "toString"])
     = ({| body := ErrorBody None message; status := 400 |}, [])).
Proof.
  unfold Scenario.POST, Scenario.request. repeat split.
  - apply POST_rejects_bad_request. left. right; right. eexists. split; reflexivity.
  - apply POST_rejects_bad_request. right; left. right; left. reflexivity.
  - apply POST_rejects_bad_request. right; right.
    intros i [<- | [<- | []]]; reflexivity.
Defined.

(** C3, as stated, fails: the body of a validation failure is
    [{ error }]; it has no [success] property. *)
Lemma POST_blank_query_has_no_success_field :
  Scenario.POST Scenario.client [] (Scenario.request "   " ["dytt"])
  = ({| body := ErrorBody None "Invalid or missing query parameter"; status := 400 |}, []).
Proof. reflexivity. Qed.

(** C3 (amended): the endpoint fails in two ways and in no other.  A
    request that fails validation (one of the three tests of the handler
    holds) is answered [{ error }], without a [success] property, with
    status 400 and one of the three validation messages.  An internal error
    (something throws inside the [try]) is answered
    [{ success: false, error }] with status 500, the error being the thrown
    error's message or "Internal server error".  Every request that fails
    in neither way is answered 200 with [success: true]. *)
Theorem POST_failure_shape
    (trim : string -> string) (getSourceById : string -> option VideoSource)
    (searchVideos : string -> list VideoSource -> value -> outcome (list SearchResult))
    (checkMultipleVideos : list Video -> nat -> outcome (list Video))
    (request_json : outcome request_body) :
  (SearchRouteFailure.validation_failure trim getSourceById request_json ->
   exists message,
     In message SearchRouteFailure.validation_messages
     /\ fst (POST trim getSourceById searchVideos checkMultipleVideos request_json)
        = {| body := ErrorBody None message; status := 400 |})
  /\ (forall e,
        SearchRouteFailure.internal_error trim getSourceById searchVideos
          checkMultipleVideos request_json e ->
        fst (POST trim getSourceById searchVideos checkMultipleVideos request_json)
        = {| body := ErrorBody (Some false) (SearchRouteMore.message_of e); status := 500 |})
  /\ (SearchRouteFailure.validation_failure trim getSourceById request_json
      \/ (exists e,
            SearchRouteFailure.internal_error trim getSourceById searchVideos
              checkMultipleVideos request_json e)
      \/ (exists r,
            fst (POST trim getSourceById searchVideos checkMultipleVideos request_json)
            = {| body := ResultBody r; status := 200 |}
            /\ success r = true)).
Proof.
  unfold SearchRouteFailure.validation_failure, SearchRouteFailure.internal_error,
    SearchRouteFailure.validation_messages.
  split; [|split].
  - intros [q [ids [page_ [-> H]]]].
    unfold POST; cbn [bind destructure ret raise try_catch app snd fst].
    destruct (invalid_query trim q) eqn:Eq;
      [eexists; split; [left; reflexivity | reflexivity]|].
    destruct (invalid_sources ids) eqn:Es;
      [eexists; split; [right; left; reflexivity | reflexivity]|].
    destruct H as [H | [H | H]]; try discriminate.
    rewrite H. eexists; split; [right; right; left; reflexivity | reflexivity].
  - intros e [-> | [[b [-> H]] | [q [ids [page_ [-> [Eq [Es [Hn H]]]]]]]]].
    + now destruct e.
    + destruct b as [|q ids page_]; [|discriminate].
      cbn in H. injection H as <-. reflexivity.
    + unfold POST; cbn [bind destructure ret raise try_catch app snd fst].
      rewrite Eq, Es.
      destruct (defined_only (map getSourceById (items_of ids))) as [|s0 ss] eqn:Ed;
        [contradiction|].
      cbn [List.length Nat.eqb].
      destruct H as [H | [found [Hf H]]].
      * rewrite H. now destruct e.
      * rewrite Hf, H. now destruct e.
  - destruct request_json as [[|q ids page_]|e].
    + right; left. eexists. right; left. eexists. split; reflexivity.
    + destruct (invalid_query trim q) eqn:Eq; [left; do 3 eexists; eauto|].
      destruct (invalid_sources ids) eqn:Es; [left; do 3 eexists; eauto|].
      destruct (defined_only (map getSourceById (items_of ids))) as [|s0 ss] eqn:Ed;
        [left; do 3 eexists; eauto|].
      destruct (searchVideos (trim (text_of q)) (s0 :: ss) (page_or_1 page_))
        as [found|e] eqn:Ef.
      * destruct (checkMultipleVideos (flat_map results found) 8) as [av|e] eqn:Ea.
        -- right; right.
           unfold POST; cbn [bind destructure ret raise try_catch app snd fst].
           rewrite Eq, Es, Ed. cbn [List.length Nat.eqb]. rewrite Ef, Ea.
           eexists. split; reflexivity.
        -- right; left. exists e. right; right. exists q, ids, page_.
           rewrite Ed. repeat split; try assumption; try discriminate.
           right. exists found. now split.
      * right; left. exists e. right; right. exists q, ids, page_.
        rewrite Ed. repeat split; try assumption; try discriminate. now left.
    + right; left. exists e. now left.
Qed.

(** *** The result body *)

Lemma getSourceName_configured (sourceId_ displayName : string) :
  In (sourceId_, displayName) SourceNames.sourceNames ->
  getSourceName sourceId_ = SourceNames.Str displayName.
Proof.
  unfold SourceNames.sourceNames. simpl.
  intros H. repeat (destruct H as [H | H]; [inversion H; subst; reflexivity|]).
  contradiction.
Qed.

Lemma getSourceName_unknown (sourceId_ : string) :
  SourceNames.own sourceId_ = None -> inherited sourceId_ = false ->
  getSourceName sourceId_ = SourceNames.Str sourceId_.
Proof.
  unfold getSourceName, SourceNames.getSourceName. intros -> ->. reflexivity.
Qed.

Lemma getSourceName_inherited (sourceId_ : string) :
  inherited sourceId_ = true ->
  getSourceName sourceId_ = SourceNames.Inherited sourceId_.
Proof.
  unfold inherited, object_prototype_members. simpl.
  intros H. repeat (apply orb_prop in H as [H | H];
                    [apply String.eqb_eq in H; subst; reflexivity|]).
  discriminate.
Qed.

(** What lines 98 to 138 put into the result body. *)
Lemma respond_fields (trim : string -> string) (q : string) (page_ : value)
    (ids : list string) (sr : list SearchResult) (av : list Video) :
  exists r,
    respond trim q page_ ids sr av = {| body := ResultBody r; status := 200 |}
    /\ success r = true
    /\ query r = trim q
    /\ page r = page_
    /\ totalResults r = List.length av
    /\ sourceStats r =
         map (fun i => {| sourceId := i;
                          sourceName := getSourceName i;
                          count := List.length (filter (fun v => String.eqb (source v) i) av) |})
             ids
    /\ map result_source (sources r) = map fst (group av)
    /\ Permutation (listed r) av.
Proof.
  eexists. split; [reflexivity|]. cbn [success query page totalResults sourceStats].
  repeat split.
  - apply map_ext. intros i. now rewrite count_in_group.
  - cbn [sources]. rewrite map_map. apply map_ext. now intros [k vs].
  - unfold listed. cbn [sources]. rewrite flat_map_concat_map, map_map.
    rewrite <- (flat_group av) at 2. rewrite flat_map_concat_map.
    apply Permutation_refl'. f_equal. apply map_ext. now intros [k vs].
Qed.

(** C4 at work on a request that names an id inherited from
    [Object.prototype]: the run succeeds, and the [sourceName] reported for
    the unknown id "constructor" is the inherited member, not the id. *)
Theorem POST_sourceName_of_constructor :
  exists r,
    fst (Scenario.POST Scenario.client [] (Scenario.request "matrix" ["dytt"; "constructor"]))
    = {| body := ResultBody r; status := 200 |}
    /\ success r = true
    /\ sourceStats r =
         [ {| sourceId := "dytt"; sourceName := SourceNames.Str "电影天堂"; count := 2 |};
           {| sourceId := "constructor";
              sourceName := SourceNames.Inherited "constructor";
              count := 0 |} ]
    /\ SourceNames.own "constructor" = None.
Proof. eexists. repeat split. Qed.

End SearchRouteFacts.

(* ------------------------------------------------------------------ *)
(** ** The search-stream client *)

Module SearchStreamFacts.

Import JS Types SearchStream.

(** A line of type 'error' changes nothing and the loop goes on with the
    next line: its [throw] is caught by the [catch] meant for unparsable
    lines. *)
Lemma error_line_is_skipped (searchQuery : string) (r : Run) (now : Z) (data : Data) :
  type data = Some "error" -> processLine searchQuery r (now, Parsed data) = r.
Proof.
  intros H. unfold processLine, handle. cbn [fst snd]. rewrite H. reflexivity.
Qed.

Lemma error_line_does_not_end_the_stream
    (searchQuery : string) (before after : list (Z * Line)) (now : Z) (data : Data) (r : Run) :
  type data = Some "error" ->
  processLines searchQuery (before ++ (now, Parsed data) :: after) r
  = processLines searchQuery (before ++ after) r.
Proof.
  intros H. unfold processLines. rewrite !fold_left_app. cbn [fold_left].
  now rewrite error_line_is_skipped.
Qed.

(** The hook's result list is the run's [allVideos], and each line appends
    the videos it delivers. *)
Lemma processLine_allVideos (searchQuery : string) (r : Run) (timed : Z * Line) :
  results (state r) = allVideos r ->
  results (state (processLine searchQuery r timed))
    = allVideos (processLine searchQuery r timed)
  /\ map video (allVideos (processLine searchQuery r timed))
     = map video (allVideos r) ++ delivered_by (snd timed).
Proof.
  intros Hr. destruct timed as [now l]. unfold processLine, handle, delivered_by.
  cbn [fst snd]. destruct l as [| |data]; cbn; try (now rewrite app_nil_r).
  destruct (equals (type data) "progress") eqn:Ep.
  - assert (Hv : equals (type data) "videos" = false).
    { destruct (type data) as [t|]; [|reflexivity]. cbn in *.
      apply String.eqb_eq in Ep. subst t. reflexivity. }
    rewrite Hv, app_nil_r.
    destruct (equals (stage data) "searching"); [now cbn|].
    destruct (equals (stage data) "checking"); now cbn.
  - destruct (equals (type data) "videos").
    + destruct (videos data) as [vs|]; cbn; [|now rewrite app_nil_r].
      split; [reflexivity|]. rewrite map_app, map_map. cbn [video]. now rewrite map_id.
    + rewrite app_nil_r.
      destruct (equals (type data) "complete"); [now cbn|].
      destruct (equals (type data) "error"); now cbn.
Qed.

Lemma processLines_allVideos (searchQuery : string) (lines : list (Z * Line)) (r : Run) :
  results (state r) = allVideos r ->
  results (state (processLines searchQuery lines r))
    = allVideos (processLines searchQuery lines r)
  /\ map video (allVideos (processLines searchQuery lines r))
     = map video (allVideos r) ++ delivered lines.
Proof.
  revert r. unfold processLines, delivered.
  induction lines as [|l lines IH]; intros r Hr; cbn [fold_left flat_map].
  - now rewrite app_nil_r.
  - destruct (processLine_allVideos searchQuery r l Hr) as [H1 H2].
    destruct (IH _ H1) as [H3 H4]. split; [exact H3|].
    now rewrite H4, H2, app_assoc.
Qed.

(** The videos shown after a streamed run are the videos the stream
    delivered, in order, each as often as it was delivered. *)
Lemma performSearch_results (trim : string -> string) (searchQuery : string)
    (lines : list (Z * Line)) (ending : Ending) (r0 : Run) :
  truthy (trim searchQuery) = true -> loading (state r0) = false ->
  map video (results (state (performSearch trim searchQuery (Stream lines ending) r0)))
  = delivered lines.
Proof.
  intros Hq Hl. unfold performSearch. rewrite Hq, Hl. cbn [negb orb].
  match goal with |- context [processLines searchQuery lines ?r] =>
    destruct (processLines_allVideos searchQuery lines r eq_refl) as [H1 H2] end.
  cbn [allVideos map app] in H2.
  destruct ending; cbn [with_state state setCurrentSource setLoading results];
    now rewrite H1, H2.
Qed.

(** C1 at work: a stream whose first line is an error record and whose
    next lines bring a video and progress.  The lines after the error are
    handled (results, source counts and counters change), and the run ends
    with [loading] still true; a stream that stops right after the error
    record also leaves [loading] true. *)
Theorem performSearch_goes_on_after_error :
  let v := Scenario.matrix1 in
  let lines :=
    [ (10%Z, Parsed (error_event "upstream failed"));
      (20%Z, Parsed (videos_found [v] 1 3));
      (30%Z, Parsed (progress_checking 2 3)) ] in
  let final := state (performSearch trim_ascii "matrix" (Stream lines Done) fresh) in
  let stopped :=
    state (performSearch trim_ascii "matrix" (Stream (firstn 1 lines) Done) fresh) in
  map video (results final) = [v]
  /\ results stopped = []
  /\ availableSources final
     = [ {| sc_id := "dytt"; sc_name := SourceNames.Str "电影天堂"; sc_count := 1 |} ]
  /\ availableSources stopped = []
  /\ checkedVideos final = Some 2%Z /\ checkedVideos stopped = Some 0%Z
  /\ loading final = true
  /\ loading stopped = true.
Proof. cbv zeta. repeat split. Qed.

End SearchStreamFacts.

(* ------------------------------------------------------------------ *)
(** ** The verification scheduler and the modelled collaborators *)

Module PipelineFacts.

Import JS Types Pipeline.

Lemma remove_at_length {A} (i : nat) (xs : list A) (x : A) :
  nth_error xs i = Some x -> S (List.length (remove_at i xs)) = List.length xs.
Proof.
  revert i. induction xs as [|y xs IH]; intros [|i] H; simpl in *; try discriminate.
  - reflexivity.
  - now rewrite (IH i H).
Qed.

Lemma remove_at_perm {A} (i : nat) (xs : list A) (x : A) :
  nth_error xs i = Some x -> Permutation (x :: remove_at i xs) xs.
Proof.
  revert i. induction xs as [|y xs IH]; intros [|i] H; simpl in *; try discriminate.
  - injection H as ->. reflexivity.
  - rewrite perm_swap. now rewrite (IH i H).
Qed.

Lemma filter_perm {A} (p : A -> bool) (xs ys : list A) :
  Permutation xs ys -> Permutation (filter p xs) (filter p ys).
Proof.
  induction 1 as [|x xs ys _ IH|x y xs|xs ys zs _ IH1 _ IH2]; simpl.
  - constructor.
  - destruct (p x); [now constructor | exact IH].
  - destruct (p x), (p y); try reflexivity. apply perm_swap.
  - now transitivity (filter p ys).
Qed.

Section Scheduling.

Variable available : Video -> bool.
Variable cap : nat.

Lemma passed_verdicts (vs : list Video) :
  map fst (filter snd (map (fun v => (v, available v)) vs)) = filter available vs.
Proof.
  induction vs as [|v vs IH]; simpl; [reflexivity|].
  destruct (available v); simpl; now rewrite IH.
Qed.

Lemma start_steady (candidates : list Video) : steady available cap (start cap candidates).
Proof.
  split; simpl.
  - apply firstn_le_length.
  - destruct (Nat.le_gt_cases (List.length candidates) cap) as [H|H].
    + left. now apply skipn_all2.
    + right. apply firstn_length_le. lia.
  - reflexivity.
Qed.

Lemma complete_steady (s : Scheduler) (i : nat) :
  steady available cap s -> steady available cap (complete available s i).
Proof.
  intros [Hcap Hsat Hver]. unfold complete.
  destruct (nth_error (inflight s) i) as [v|] eqn:Ei; [|now split].
  pose proof (remove_at_length i (inflight s) v Ei) as Hlen.
  split; cbn [pending inflight emitted].
  - rewrite length_app. destruct (pending s); simpl; lia.
  - destruct (pending s) as [|p ps] eqn:Ep; [now left|].
    right. destruct Hsat as [Hsat|Hsat]; [discriminate|].
    rewrite length_app. simpl. lia.
  - rewrite !map_app, <- Hver. reflexivity.
Qed.

Lemma complete_contents (s : Scheduler) (i : nat) :
  Permutation (contents (complete available s i)) (contents s).
Proof.
  unfold complete. destruct (nth_error (inflight s) i) as [v|] eqn:Ei; [|reflexivity].
  unfold contents. cbn [pending inflight emitted].
  rewrite map_app. cbn [map fst]. rewrite <- !app_assoc.
  apply Permutation_app_head. cbn [app].
  rewrite firstn_skipn.
  rewrite <- (remove_at_perm i (inflight s) v Ei) at 2. reflexivity.
Qed.

Lemma after_completions_steady (candidates : list Video) (order : list nat) :
  steady available cap (after_completions available cap candidates order).
Proof.
  unfold after_completions.
  generalize (start_steady candidates). generalize (start cap candidates).
  induction order as [|i order IH]; intros s H; simpl; [exact H|].
  apply IH. now apply complete_steady.
Qed.

Lemma drain_steady (fuel : nat) (order : list nat) (s : Scheduler) :
  steady available cap s -> steady available cap (drain available fuel order s).
Proof.
  revert order s. induction fuel as [|fuel IH]; intros order s H; simpl; [exact H|].
  destruct (inflight s); [exact H|]. apply IH. now apply complete_steady.
Qed.

Lemma drain_contents (fuel : nat) (order : list nat) (s : Scheduler) :
  Permutation (contents (drain available fuel order s)) (contents s).
Proof.
  revert order s. induction fuel as [|fuel IH]; intros order s; simpl; [reflexivity|].
  destruct (inflight s); [reflexivity|]. rewrite IH. apply complete_contents.
Qed.

(** With enough fuel for every candidate still held, draining leaves no
    check in flight. *)
Lemma drain_empties (fuel : nat) (order : list nat) (s : Scheduler) :
  List.length (inflight s) + List.length (pending s) <= fuel ->
  inflight (drain available fuel order s) = [].
Proof.
  revert order s. induction fuel as [|fuel IH]; intros order s H; simpl.
  - destruct (inflight s); [reflexivity | simpl in H; lia].
  - destruct (inflight s) as [|v vs] eqn:Ei; [exact Ei|].
    apply IH. unfold complete.
    assert (Hi : Nat.modulo (hd 0 order) (List.length (v :: vs)) < List.length (inflight s)).
    { rewrite Ei. apply Nat.mod_upper_bound. discriminate. }
    rewrite <- Ei.
    destruct (nth_error (inflight s) (Nat.modulo (hd 0 order) (List.length (inflight s))))
      as [w|] eqn:En.
    + cbn [pending inflight]. pose proof (remove_at_length _ _ _ En) as Hlen.
      rewrite length_app. rewrite Ei in *. simpl in H.
      destruct (pending s); simpl in *; lia.
    + apply nth_error_None in En. rewrite Ei in *. lia.
Qed.

(** The modelled [checkMultipleVideos] returns, whatever the completion
    order, the candidates the checker passes: each as often as it was
    handed in. *)
Lemma checkMultipleVideos_passes (order : list nat) (candidates : list Video) :
  1 <= cap ->
  exists out,
    checkMultipleVideos available order candidates cap = Returns out
    /\ Permutation out (filter available candidates).
Proof.
  intros Hcap. eexists. split; [reflexivity|].
  set (s := drain available (List.length candidates) order (start cap candidates)).
  assert (Hs : steady available cap s) by (apply drain_steady, start_steady).
  assert (He : inflight s = []).
  { apply drain_empties. unfold start. cbn [inflight pending].
    rewrite <- (length_app (firstn cap candidates) (skipn cap candidates)), firstn_skipn.
    lia. }
  assert (Hp : pending s = []).
  { destruct (saturated _ _ _ Hs) as [H|H]; [exact H|]. rewrite He in H. simpl in H. lia. }
  assert (Hc : Permutation (map fst (emitted s)) candidates).
  { pose proof (drain_contents (List.length candidates) order (start cap candidates)) as H.
    fold s in H. unfold contents in H. rewrite He, Hp, !app_nil_r in H.
    rewrite H. unfold start. cbn [emitted inflight pending map app].
    now rewrite firstn_skipn. }
  unfold forwarded. rewrite (verdicts _ _ _ Hs), passed_verdicts.
  now apply filter_perm.
Qed.

End Scheduling.

End PipelineFacts.

(* ------------------------------------------------------------------ *)
(** ** The route on the modelled collaborators *)

Module RunFacts.

Import JS Types SearchRoute Pipeline.

(** C6: the handler passes the cap 8 to [checkMultipleVideos] whenever it
    calls it, and the scheduler started with cap 8 never has more than 8
    checks in flight: not after any sequence of completions, and not at any
    point of a drain. *)
Theorem at_most_8_checks_in_flight :
  (forall trim getSourceById searchVideos checkMultipleVideos request_json vs cap,
      In (CheckCall vs cap)
         (snd (POST trim getSourceById searchVideos checkMultipleVideos request_json)) ->
      cap = 8)
  /\ (forall available candidates order,
        List.length (inflight (after_completions available 8 candidates order)) <= 8)
  /\ (forall available candidates order fuel,
        List.length (inflight (drain available fuel order (start 8 candidates))) <= 8).
Proof.
  split; [|split].
  - intros. eapply SearchRouteFacts.POST_check_cap. eassumption.
  - intros. apply (within_cap available 8).
    apply PipelineFacts.after_completions_steady.
  - intros. apply (within_cap available 8).
    apply PipelineFacts.drain_steady, PipelineFacts.start_steady.
Qed.

(** The theorem on the worked request: the one verification call carries
    cap 8, and with ten candidates and three completions eight checks are
    in flight. *)
Lemma at_most_8_checks_in_flight_witness :
  (forall vs cap,
      In (CheckCall vs cap)
         (snd (Scenario.POST Scenario.client [] (Scenario.request "matrix" ["dytt"; "ruyi"]))) ->
      cap = 8)
  /\ List.length (inflight (after_completions Scenario.all_available 8
                              (repeat Scenario.matrix1 10) [3; 0; 7])) <= 8.
Proof.
  destruct at_most_8_checks_in_flight as [Hcall [Hafter _]]. split.
  - intros vs cap. apply Hcall.
  - apply Hafter.
Defined.

(** *** No de-duplication *)

Lemma NoDup_keys_perm (xs ys : list Video) :
  Permutation xs ys -> NoDup (map key ys) -> NoDup (map key xs).
Proof.
  intros H. apply Permutation_NoDup. apply Permutation_map. now symmetry.
Qed.

(** C5, as stated, fails: a request that names the source "dytt" twice gets
    each of its videos twice in [sources[].results], and a stream that
    delivers the same video in two 'videos' records shows it twice. *)
Lemma repeated_videos_are_kept :
  (exists r,
      fst (Scenario.POST Scenario.client [] (Scenario.request "matrix" ["dytt"; "dytt"]))
      = {| body := ResultBody r; status := 200 |}
      /\ map key (listed r) = [("dytt", 1%Z); ("dytt", 2%Z); ("dytt", 1%Z); ("dytt", 2%Z)]
      /\ has_duplicate (map key (listed r)) = true)
  /\ has_duplicate
       (map key (map SearchStream.video
          (SearchStream.results (SearchStream.state
             (SearchStream.performSearch trim_ascii "matrix"
                (SearchStream.Stream
                   [ (10%Z, SearchStream.Parsed (SearchStream.videos_found [Scenario.matrix1] 1 2));
                     (20%Z, SearchStream.Parsed (SearchStream.videos_found [Scenario.matrix1] 2 2));
                     (30%Z, SearchStream.Parsed (SearchStream.complete 2)) ]
                   SearchStream.Done)
                SearchStream.fresh)))))
     = true.
Proof. split; [eexists; repeat split|reflexivity]. Qed.

(** C5 (amended): neither the handler nor the stream client removes or adds
    duplicates.  The videos of a batch response, over [sources[].results],
    are the videos [checkMultipleVideos] returned, each as often as there;
    the videos shown after a streamed run are the videos of the 'videos'
    records received, in order; so either output has no (source, vod_id)
    pair twice whenever what was delivered has none. *)
Theorem output_repeats_exactly_what_was_delivered :
  (forall trim getSourceById searchVideos checkMultipleVideos request_json r st log,
      POST trim getSourceById searchVideos checkMultipleVideos request_json
      = ({| body := ResultBody r; status := st |}, log) ->
      exists candidates verified,
        In (CheckCall candidates 8) log
        /\ checkMultipleVideos candidates 8 = Returns verified
        /\ Permutation (listed r) verified
        /\ (NoDup (map key verified) -> NoDup (map key (listed r))))
  /\ (forall trim searchQuery lines ending r0,
        truthy (trim searchQuery) = true ->
        SearchStream.loading (SearchStream.state r0) = false ->
        map SearchStream.video
          (SearchStream.results (SearchStream.state
             (SearchStream.performSearch trim searchQuery
                (SearchStream.Stream lines ending) r0)))
        = SearchStream.delivered lines).
Proof.
  split.
  - intros trim g sv cv request_json r st log H.
    destruct (SearchRouteFacts.POST_paths trim g sv cv request_json)
      as [[m [log' H']] | [[m H'] | [q [ids [p [sr [av [_ [_ [_ [_ [Hav H']]]]]]]]]]]];
      rewrite H' in H; try discriminate.
    destruct (SearchRouteFacts.respond_fields trim q (page_or_1 p) ids sr av)
      as [r' [Hr' [_ [_ [_ [_ [_ [_ Hperm]]]]]]]].
    rewrite Hr' in H. injection H as <- _ <-.
    exists (flat_map results sr), av. repeat split.
    + right. now left.
    + exact Hav.
    + exact Hperm.
    + now apply NoDup_keys_perm.
  - intros. now apply SearchStreamFacts.performSearch_results.
Qed.

(** The theorem on a request with two sources and on a stream of two
    'videos' records. *)
Lemma output_repeats_exactly_what_was_delivered_witness :
  (exists r candidates verified,
      fst (Scenario.POST Scenario.client [] (Scenario.request "matrix" ["dytt"; "ruyi"]))
      = {| body := ResultBody r; status := 200 |}
      /\ checkMultipleVideos Scenario.all_available [] candidates 8 = Returns verified
      /\ Permutation (listed r) verified)
  /\ map SearchStream.video
       (SearchStream.results (SearchStream.state
          (SearchStream.performSearch trim_ascii "matrix"
             (SearchStream.Stream
                [ (10%Z, SearchStream.Parsed (SearchStream.videos_found [Scenario.matrix1] 1 2));
                  (20%Z, SearchStream.Parsed (SearchStream.videos_found [Scenario.matrix3] 2 2)) ]
                SearchStream.Done)
             SearchStream.fresh)))
     = [Scenario.matrix1; Scenario.matrix3].
Proof.
  destruct output_repeats_exactly_what_was_delivered as [Hbatch Hstream]. split.
  - destruct (Hbatch trim_ascii Scenario.getSourceById
                (searchVideos Scenario.client)
                (checkMultipleVideos Scenario.all_available [])
                (Returns (Scenario.request "matrix" ["dytt"; "ruyi"]))
                _ 200 _ eq_refl) as [candidates [verified [_ [Hv [Hp _]]]]].
    eexists. exists candidates, verified. split; [reflexivity|]. split; assumption.
  - apply (Hstream trim_ascii "matrix"); reflexivity.
Defined.

(** *** Two runs of one request *)

(** C7, as stated, fails: two runs of one request against the same sources
    and with the same verdicts, in which the checks complete in different
    orders, answer with the same videos but list the sources in different
    orders: the bodies differ. *)
Lemma completion_order_shows_in_the_body :
  exists r1 r2,
    fst (Scenario.POST Scenario.client [] (Scenario.request "matrix" ["ruyi"; "dytt"]))
    = {| body := ResultBody r1; status := 200 |}
    /\ fst (Scenario.POST Scenario.client [1; 0; 0] (Scenario.request "matrix" ["ruyi"; "dytt"]))
       = {| body := ResultBody r2; status := 200 |}
    /\ map result_source (sources r1) = ["ruyi"; "dytt"]
    /\ map result_source (sources r2) = ["dytt"; "ruyi"]
    /\ Permutation (listed r1) (listed r2).
Proof.
  do 2 eexists. repeat split.
  cbn. apply (Permutation_cons_app [_; _] []). reflexivity.
Qed.

Lemma filter_length_perm {A} (p : A -> bool) (xs ys : list A) :
  Permutation xs ys -> List.length (filter p xs) = List.length (filter p ys).
Proof. intros H. apply Permutation_length. now apply PipelineFacts.filter_perm. Qed.

(** Two runs of the handler on one request in which both collaborators
    return and the verified videos are the same up to order answer 200 with
    equal [success], [query], [page], [totalResults] and [sourceStats], and
    with the same videos over [sources[].results] up to order. *)
Lemma same_verified_videos_same_fields
    (trim : string -> string) (getSourceById : string -> option VideoSource)
    (searchVideos1 searchVideos2 :
       string -> list VideoSource -> value -> outcome (list SearchResult))
    (checkMultipleVideos1 checkMultipleVideos2 : list Video -> nat -> outcome (list Video))
    (q ids page_ : value) (sr1 sr2 : list SearchResult) (av1 av2 : list Video) :
  invalid_query trim q = false -> invalid_sources ids = false ->
  defined_only (map getSourceById (items_of ids)) <> [] ->
  searchVideos1 (trim (text_of q)) (defined_only (map getSourceById (items_of ids)))
    (page_or_1 page_) = Returns sr1 ->
  searchVideos2 (trim (text_of q)) (defined_only (map getSourceById (items_of ids)))
    (page_or_1 page_) = Returns sr2 ->
  checkMultipleVideos1 (flat_map results sr1) 8 = Returns av1 ->
  checkMultipleVideos2 (flat_map results sr2) 8 = Returns av2 ->
  Permutation av1 av2 ->
  exists r1 r2,
    fst (POST trim getSourceById searchVideos1 checkMultipleVideos1
           (Returns (BodyObject q ids page_)))
    = {| body := ResultBody r1; status := 200 |}
    /\ fst (POST trim getSourceById searchVideos2 checkMultipleVideos2
              (Returns (BodyObject q ids page_)))
       = {| body := ResultBody r2; status := 200 |}
    /\ success r1 = success r2
    /\ query r1 = query r2
    /\ page r1 = page r2
    /\ totalResults r1 = totalResults r2
    /\ sourceStats r1 = sourceStats r2
    /\ Permutation (listed r1) (listed r2).
Proof.
  intros Hq Hs Hn Hsr1 Hsr2 Hav1 Hav2 Hperm.
  rewrite (SearchRouteFacts.POST_valid _ _ _ _ q ids page_ sr1 av1 Hq Hs Hn Hsr1 Hav1).
  rewrite (SearchRouteFacts.POST_valid _ _ _ _ q ids page_ sr2 av2 Hq Hs Hn Hsr2 Hav2).
  destruct (SearchRouteFacts.respond_fields trim (text_of q) (page_or_1 page_)
              (items_of ids) sr1 av1) as [r1 [E1 [S1 [Q1 [P1 [T1 [St1 [_ L1]]]]]]]].
  destruct (SearchRouteFacts.respond_fields trim (text_of q) (page_or_1 page_)
              (items_of ids) sr2 av2) as [r2 [E2 [S2 [Q2 [P2 [T2 [St2 [_ L2]]]]]]]].
  exists r1, r2. cbn [fst]. repeat split; try assumption; try congruence.
  - rewrite T1, T2. now apply Permutation_length.
  - rewrite St1, St2. apply map_ext. intros i. f_equal. now apply filter_length_perm.
  - now rewrite L1, L2.
Qed.

(** *** A source that fails *)

Lemma in_defined_only {A B} (g : A -> option B) (xs : list A) (y : B) :
  In y (defined_only (map g xs)) <-> exists x, In x xs /\ g x = Some y.
Proof.
  induction xs as [|x xs IH]; simpl.
  - split; [contradiction | now intros [x [[] _]]].
  - destruct (g x) as [z|] eqn:E; simpl; rewrite IH; split.
    + intros [<- | [x' [H1 H2]]]; eauto.
    + intros [x' [[<- | H1] H2]]; [left; congruence | right; eauto].
    + intros [x' [H1 H2]]; eauto.
    + intros [x' [[<- | H1] H2]]; [congruence | eauto].
Qed.

Lemma has_fold_group (k : string) (vs : list Video) (m : Map (list Video)) :
  map_has k (fold_left group_step vs m)
  = existsb (fun v => String.eqb (source v) k) vs || map_has k m.
Proof.
  revert m. induction vs as [|v vs IH]; intros m; simpl; [reflexivity|].
  rewrite IH, SearchRouteFacts.has_group_step.
  destruct (String.eqb (source v) k); simpl; [now rewrite orb_true_r | reflexivity].
Qed.

Lemma group_key_has_video (k : string) (av : list Video) :
  In k (map fst (group av)) -> exists v, In v av /\ source v = k.
Proof.
  intros H. assert (Hh : map_has k (group av) = true).
  { unfold map_has. apply existsb_exists. apply in_map_iff in H as [[k' vs] [<- H]].
    exists (k', vs). split; [exact H | apply String.eqb_refl]. }
  unfold group in Hh. rewrite has_fold_group, orb_false_r in Hh.
  apply existsb_exists in Hh as [v [Hv Hk]]. apply String.eqb_eq in Hk. eauto.
Qed.

Lemma filter_none {A} (p : A -> bool) (xs : list A) :
  (forall x, In x xs -> p x = false) -> filter p xs = [].
Proof.
  induction xs as [|x xs IH]; intros H; simpl; [reflexivity|].
  rewrite (H x) by now left. apply IH. intros y Hy. apply H. now right.
Qed.

Lemma in_searched (client : string -> VideoSource -> value -> SourceAnswer)
    (q : string) (p : value) (srcs : list VideoSource) (v : Video) :
  In v (flat_map results (map (searchOne client q p) srcs))
  <-> exists s vs t, In s srcs /\ client q s p = Answered vs t /\ In v vs.
Proof.
  rewrite in_flat_map. split.
  - intros [sr [Hsr Hv]]. apply in_map_iff in Hsr as [s [<- Hs]].
    unfold searchOne in Hv. destruct (client q s p) as [vs t|] eqn:E; [|contradiction].
    exists s, vs, t. auto.
  - intros [s [vs [t [Hs [E Hv]]]]]. exists (searchOne client q p s).
    split; [now apply in_map|]. unfold searchOne. now rewrite E.
Qed.

(** C8: on the collaborators modelled after the specification, a run in
    which a requested source fails still answers 200 with [success: true];
    the failed source is recorded with no results and no response time,
    none of the listed videos and none of the [sources] entries is its own,
    its [sourceStats] count is 0, and every video of another source that
    the checker passes is listed. *)
Theorem failed_source_is_swallowed
    (trim : string -> string) (getSourceById : string -> option VideoSource)
    (client : string -> VideoSource -> value -> SourceAnswer)
    (available : Video -> bool) (order : list nat)
    (q ids page_ : value) (s : VideoSource) :
  invalid_query trim q = false -> invalid_sources ids = false ->
  (forall i s', getSourceById i = Some s' -> id s' = i) ->
  (forall s' vs t v,
      client (trim (text_of q)) s' (page_or_1 page_) = Answered vs t ->
      In v vs -> source v = id s') ->
  In s (defined_only (map getSourceById (items_of ids))) ->
  client (trim (text_of q)) s (page_or_1 page_) = Failed ->
  exists r log,
    POST trim getSourceById (searchVideos client) (checkMultipleVideos available order)
      (Returns (BodyObject q ids page_))
    = ({| body := ResultBody r; status := 200 |}, log)
    /\ success r = true
    /\ results (searchOne client (trim (text_of q)) (page_or_1 page_) s) = []
    /\ responseTime (searchOne client (trim (text_of q)) (page_or_1 page_) s) = None
    /\ (forall v, In v (listed r) -> source v <> id s)
    /\ (forall sr, In sr (sources r) -> result_source sr <> id s)
    /\ (forall st, In st (sourceStats r) -> sourceId st = id s -> count st = 0)
    /\ (forall s' vs t v,
          In s' (defined_only (map getSourceById (items_of ids))) ->
          client (trim (text_of q)) s' (page_or_1 page_) = Answered vs t ->
          In v vs -> available v = true -> In v (listed r)).
Proof.
  intros Hq Hs Hreg Hstamp Hin Hfail.
  set (q' := trim (text_of q)) in *. set (p' := page_or_1 page_) in *.
  set (srcs := defined_only (map getSourceById (items_of ids))) in *.
  set (sr := map (searchOne client q' p') srcs).
  destruct (PipelineFacts.checkMultipleVideos_passes available 8 order
              (flat_map results sr)) as [av [Hav Hperm]]; [lia|].
  destruct (SearchRouteFacts.respond_fields trim (text_of q) p' (items_of ids) sr av)
    as [r [Er [Sr [_ [_ [_ [St [Src L]]]]]]]].
  assert (Hown : forall v, In v av -> source v <> id s).
  { intros v Hv Heq. apply (Permutation_in _ Hperm) in Hv.
    apply filter_In in Hv as [Hv _]. apply in_searched in Hv as [s' [vs [t [Hs' [E Hv]]]]].
    rewrite (Hstamp s' vs t v E Hv) in Heq.
    apply in_defined_only in Hs' as [i [_ Hi]]. apply in_defined_only in Hin as [j [_ Hj]].
    pose proof (Hreg i s' Hi) as Ei. pose proof (Hreg j s Hj) as Ej.
    assert (s' = s) by congruence. subst s'. congruence. }
  exists r. eexists. split.
  { rewrite <- Er. apply SearchRouteFacts.POST_valid; try assumption.
    - fold srcs. intros E. rewrite E in Hin. contradiction.
    - reflexivity. }
  split; [exact Sr|]. unfold searchOne. rewrite Hfail.
  split; [reflexivity|]. split; [reflexivity|]. repeat split.
  - intros v Hv. apply Hown. now apply (Permutation_in _ L).
  - intros sr0 Hsr0 Heq.
    assert (Hk : In (result_source sr0) (map fst (group av))).
    { rewrite <- Src. now apply in_map. }
    apply group_key_has_video in Hk as [v [Hv Hk]]. apply (Hown v Hv). congruence.
  - intros st Hst Hid. rewrite St in Hst. apply in_map_iff in Hst as [i [<- Hi]].
    cbn [sourceId count] in *. subst i. rewrite filter_none; [reflexivity|].
    intros v Hv. apply String.eqb_neq. now apply Hown.
  - intros s' vs t v Hs' E Hv Ha. apply (Permutation_in _ (Permutation_sym L)).
    apply (Permutation_in _ (Permutation_sym Hperm)). apply filter_In. split; [|exact Ha].
    apply in_searched. exists s', vs, t. auto.
Qed.

(** The theorem on the worked request with ruyi timing out: the two videos
    of dytt are listed, ruyi counts 0. *)
Lemma failed_source_is_swallowed_witness :
  exists r log,
    Scenario.POST Scenario.client_ruyi_down [] (Scenario.request "matrix" ["dytt"; "ruyi"])
    = ({| body := ResultBody r; status := 200 |}, log)
    /\ success r = true
    /\ (forall v, In v (listed r) -> source v <> "ruyi")
    /\ (forall st, In st (sourceStats r) -> sourceId st = "ruyi" -> count st = 0)
    /\ In Scenario.matrix1 (listed r) /\ In Scenario.matrix2 (listed r).
Proof.
  destruct (failed_source_is_swallowed trim_ascii Scenario.getSourceById
              Scenario.client_ruyi_down Scenario.all_available []
              (Text "matrix") (Array ["dytt"; "ruyi"]) Undefined Scenario.ruyi)
    as [r [log [E [S [_ [_ [Hv [_ [Hc Ho]]]]]]]]].
  - reflexivity.
  - reflexivity.
  - intros i s'. unfold Scenario.getSourceById. cbn [find].
    destruct (String.eqb (id Scenario.dytt) i) eqn:E1;
      [intros H; injection H as <-; now apply String.eqb_eq in E1|].
    destruct (String.eqb (id Scenario.ruyi) i) eqn:E2;
      [intros H; injection H as <-; now apply String.eqb_eq in E2|].
    discriminate.
  - intros s' vs t v. unfold Scenario.client_ruyi_down.
    destruct (String.eqb (id s') "dytt") eqn:E1; [|discriminate].
    apply String.eqb_eq in E1. intros H. injection H as <- _.
    intros [<- | [<- | []]]; now rewrite E1.
  - right. now left.
  - reflexivity.
  - exists r, log. split; [exact E|]. split; [exact S|]. split; [exact Hv|].
    split; [exact Hc|]. split.
    + apply (Ho Scenario.dytt [Scenario.matrix1; Scenario.matrix2] 50%Z);
        [now left | reflexivity | now left | reflexivity].
    + apply (Ho Scenario.dytt [Scenario.matrix1; Scenario.matrix2] 50%Z);
        [now left | reflexivity | right; now left | reflexivity].
Defined.

End RunFacts.

(* ------------------------------------------------------------------ *)
(** ** More on the search-history store *)

Module SearchHistoryMoreFacts.

Import JS SearchHistory.

Lemma queries_of_filter (keep : string -> bool) (history : list SearchHistoryItem) :
  map query (filter (fun item => keep (query item)) history)
  = filter keep (map query history).
Proof.
  induction history as [|item history IH]; simpl; [reflexivity|].
  destruct (keep (query item)); simpl; now rewrite IH.
Qed.

Lemma filter_absent (q : string) (history : list SearchHistoryItem) :
  ~ In q (map query history) ->
  filter (fun item => negb (String.eqb (query item) q)) history = history.
Proof.
  induction history as [|item history IH]; simpl; intros H; [reflexivity|].
  destruct (String.eqb (query item) q) eqn:E.
  - apply String.eqb_eq in E. exfalso. apply H. now left.
  - simpl. f_equal. apply IH. intros Hin. apply H. now right.
Qed.

Lemma filter_present_length (q : string) (history : list SearchHistoryItem) :
  NoDup (map query history) -> In q (map query history) ->
  S (List.length (filter (fun item => negb (String.eqb (query item) q)) history))
  = List.length history.
Proof.
  induction history as [|item history IH]; simpl; intros Hnd Hin; [contradiction|].
  inversion Hnd as [|? ? Hnotin Hnd']; subst.
  destruct (String.eqb (query item) q) eqn:E; simpl.
  - apply String.eqb_eq in E. subst q. now rewrite filter_absent.
  - f_equal. apply IH; [exact Hnd'|]. destruct Hin as [Hin|Hin]; [|exact Hin].
    apply String.eqb_neq in E. contradiction.
Qed.

Lemma filter_twice (q : string) (history : list SearchHistoryItem) :
  filter (fun item => negb (String.eqb (query item) q))
    (filter (fun item => negb (String.eqb (query item) q)) history)
  = filter (fun item => negb (String.eqb (query item) q)) history.
Proof.
  induction history as [|item history IH]; simpl; [reflexivity|].
  destruct (String.eqb (query item) q) eqn:E; simpl; [exact IH|].
  rewrite E. simpl. now rewrite IH.
Qed.

Lemma truthy_nonempty (s : string) : s <> EmptyString -> truthy s = true.
Proof. destruct s; [congruence | reflexivity]. Qed.

(** Adding a query the history already holds (after trimming) keeps the
    number of entries: the old entry is dropped, the new one goes first and
    the other queries keep their order. *)
Theorem add_again_moves_to_front
    (trim : string -> string) (q : string) (now : Z) (s : Store) :
  well_formed s -> trim q <> EmptyString -> In (trim q) (map query (searchHistory s)) ->
  List.length (searchHistory (addSearchHistory trim q now s)) = List.length (searchHistory s)
  /\ searchHistory (addSearchHistory trim q now s)
     = {| query := trim q; timestamp := now |}
       :: filter (fun item => negb (String.eqb (query item) (trim q))) (searchHistory s).
Proof.
  intros [Hlen Hnd] Hq Hin. unfold addSearchHistory.
  rewrite (truthy_nonempty _ Hq). cbn [negb searchHistory].
  pose proof (filter_present_length (trim q) (searchHistory s) Hnd Hin) as Hf.
  rewrite firstn_all2 by (unfold MAX_SEARCH_HISTORY; simpl; lia).
  split; [simpl; exact Hf | reflexivity].
Qed.

Lemma add_again_moves_to_front_witness :
  let s := run trim_ascii [Add "a" 1; Add "b" 2; Add "c" 3] in
  List.length (searchHistory (addSearchHistory trim_ascii " a " 9 s)) = 3
  /\ map query (searchHistory (addSearchHistory trim_ascii " a " 9 s)) = ["a"; "c"; "b"].
Proof.
  cbv zeta.
  destruct (add_again_moves_to_front trim_ascii " a " 9%Z
              (run trim_ascii [Add "a" 1; Add "b" 2; Add "c" 3])) as [H1 H2].
  - split; [simpl; lia | repeat constructor; simpl; intuition discriminate].
  - discriminate.
  - simpl. tauto.
  - split; [exact H1 | rewrite H2; reflexivity].
Defined.

(** Adding a new query to a full history drops exactly the oldest entry:
    the new entry goes first and the former entries but the last follow. *)
Theorem add_to_full_drops_oldest
    (trim : string -> string) (q : string) (now : Z) (s : Store) :
  List.length (searchHistory s) = 20 -> trim q <> EmptyString ->
  ~ In (trim q) (map query (searchHistory s)) ->
  searchHistory (addSearchHistory trim q now s)
  = {| query := trim q; timestamp := now |} :: removelast (searchHistory s).
Proof.
  intros Hlen Hq Hnotin. unfold addSearchHistory.
  rewrite (truthy_nonempty _ Hq). cbn [negb searchHistory].
  rewrite (filter_absent _ _ Hnotin). unfold MAX_SEARCH_HISTORY.
  cbn [firstn]. f_equal. rewrite removelast_firstn_len, Hlen. reflexivity.
Qed.

Lemma add_to_full_drops_oldest_witness :
  let full := run trim_ascii (map (fun n => Add (show_nat n) (Z.of_nat n)) (seq 0 20)) in
  map query (searchHistory (addSearchHistory trim_ascii "new" 99 full))
  = "new" :: map show_nat (rev (seq 1 19)).
Proof.
  cbv zeta.
  rewrite (add_to_full_drops_oldest trim_ascii "new" 99%Z
             (run trim_ascii (map (fun n => Add (show_nat n) (Z.of_nat n)) (seq 0 20)))).
  - reflexivity.
  - reflexivity.
  - discriminate.
  - vm_compute. intuition discriminate.
Defined.

(** Removing a query right after adding it undoes the add, when the add
    has pushed no entry out (the history had room, or held the query): what
    is left is the former history without that query. *)
Theorem remove_after_add
    (trim : string -> string) (q : string) (now : Z) (s : Store) :
  well_formed s -> trim q <> EmptyString ->
  List.length (searchHistory s) < 20 \/ In (trim q) (map query (searchHistory s)) ->
  removeSearchHistory (trim q) (addSearchHistory trim q now s)
  = removeSearchHistory (trim q) s
  /\ (~ In (trim q) (map query (searchHistory s)) ->
      removeSearchHistory (trim q) (addSearchHistory trim q now s) = s).
Proof.
  intros [Hlen Hnd] Hq Hroom.
  assert (E : removeSearchHistory (trim q) (addSearchHistory trim q now s)
              = removeSearchHistory (trim q) s).
  { unfold addSearchHistory, removeSearchHistory.
    rewrite (truthy_nonempty _ Hq). cbn [negb searchHistory].
    rewrite firstn_all2.
    - cbn [filter query]. rewrite String.eqb_refl. cbn [negb]. now rewrite filter_twice.
    - unfold MAX_SEARCH_HISTORY. cbn [List.length].
      destruct Hroom as [H|H].
      + pose proof (SearchHistoryFacts.filter_length_le
                      (fun item => negb (String.eqb (query item) (trim q)))
                      (searchHistory s)). lia.
      + pose proof (filter_present_length (trim q) (searchHistory s) Hnd H). lia. }
  split; [exact E|]. intros Hnotin. rewrite E. unfold removeSearchHistory.
  rewrite (filter_absent _ _ Hnotin). now destruct s.
Qed.

Lemma remove_after_add_witness :
  let s := run trim_ascii [Add "a" 1; Add "b" 2] in
  removeSearchHistory "c" (addSearchHistory trim_ascii " c " 3 s) = s.
Proof.
  cbv zeta.
  apply (remove_after_add trim_ascii " c " 3%Z (run trim_ascii [Add "a" 1; Add "b" 2])).
  - split; [simpl; lia | repeat constructor; simpl; intuition discriminate].
  - discriminate.
  - left. simpl. lia.
  - simpl. intuition discriminate.
Defined.

(** [removeSearchHistory] compares the query as it is given, untrimmed: a
    query with surrounding white space, removed right after it was added,
    is still at the head of the history in its trimmed form. *)
Theorem remove_does_not_trim
    (trim : string -> string) (q : string) (now : Z) (s : Store) :
  trim q <> EmptyString -> trim q <> q ->
  nth_error (searchHistory (removeSearchHistory q (addSearchHistory trim q now s))) 0
  = Some {| query := trim q; timestamp := now |}.
Proof.
  intros Hq Hne. unfold addSearchHistory, removeSearchHistory.
  rewrite (truthy_nonempty _ Hq). cbn [negb searchHistory].
  unfold MAX_SEARCH_HISTORY. cbn [firstn filter query].
  apply String.eqb_neq in Hne. rewrite Hne. reflexivity.
Qed.

Lemma remove_does_not_trim_witness :
  nth_error (searchHistory
    (removeSearchHistory " matrix " (addSearchHistory trim_ascii " matrix " 7 initial))) 0
  = Some {| query := "matrix"; timestamp := 7 |}.
Proof.
  apply (remove_does_not_trim trim_ascii " matrix " 7%Z initial); discriminate.
Defined.

End SearchHistoryMoreFacts.

(* ------------------------------------------------------------------ *)
(** ** More on the search-stream client *)

Module SearchStreamMoreFacts.

Import JS Types SearchStream SearchStreamMore.

Lemma equals_exclusive (o : option string) (a b : string) :
  equals o a = true -> a <> b -> equals o b = false.
Proof.
  destruct o as [t|]; cbn; [|discriminate].
  intros Ha Hne. apply String.eqb_eq in Ha. subst t. now apply String.eqb_neq.
Qed.

(** Runs the loop body on a parsed record, one test after the other. *)
Ltac by_record_type data :=
  unfold processLine, handle; cbn [fst snd];
  destruct (equals (type data) "progress") eqn:Eprogress;
  [ pose proof (equals_exclusive _ _ "videos" Eprogress ltac:(discriminate)) as Evideos;
    pose proof (equals_exclusive _ _ "complete" Eprogress ltac:(discriminate)) as Ecomplete;
    destruct (equals (stage data) "searching") eqn:Esearching;
    [| destruct (equals (stage data) "checking") eqn:Echecking ]
  | destruct (equals (type data) "videos") eqn:Evideos;
    [ pose proof (equals_exclusive _ _ "complete" Evideos ltac:(discriminate)) as Ecomplete;
      destruct (videos data) as [vs|] eqn:Earray
    | destruct (equals (type data) "complete") eqn:Ecomplete;
      [| destruct (equals (type data) "error") eqn:Eerror ] ] ].

Lemma inert_line (searchQuery : string) (r : Run) (now : Z) (l : Line) :
  inert l = true -> processLine searchQuery r (now, l) = r.
Proof.
  destruct l as [| |data]; try reflexivity.
  unfold inert. by_record_type data; cbn; try reflexivity; try discriminate.
Qed.

(** Lines without the 'data: ' prefix, unparsable lines and records the
    loop has no use for (those of type 'error' among them) change nothing
    and stop nothing: the loop does what it would do without them. *)
Theorem inert_lines_are_skipped
    (searchQuery : string) (lines : list (Z * Line)) (r : Run) :
  processLines searchQuery lines r
  = processLines searchQuery (filter (fun timed => negb (inert (snd timed))) lines) r.
Proof.
  unfold processLines. revert r.
  induction lines as [|[now l] lines IH]; intros r; cbn [fold_left filter snd];
    [reflexivity|].
  destruct (inert l) eqn:E; cbn [negb fold_left].
  - rewrite (inert_line _ _ _ _ E). apply IH.
  - apply IH.
Qed.





(** *** The source counts *)

Lemma keys_map_set {V} (k : string) (v : V) (m : Map V) :
  map fst (map_set k v m) = if map_has k m then map fst m else map fst m ++ [k].
Proof.
  unfold map_has. induction m as [|[k' w] m IH]; cbn; [reflexivity|].
  destruct (String.eqb k' k) eqn:E; cbn; [reflexivity|].
  rewrite IH. now destruct (existsb _ m).
Qed.

Lemma map_has_keys {V} (k : string) (m : Map V) :
  map_has k m = true <-> In k (map fst m).
Proof.
  unfold map_has. rewrite existsb_exists, in_map_iff. split.
  - intros [e [He Hk]]. apply String.eqb_eq in Hk. eauto.
  - intros [e [Hk He]]. exists e. split; [exact He | now apply String.eqb_eq].
Qed.

Lemma sum_map_set (k : string) (n : nat) (m : Map nat) :
  list_sum (map snd (map_set k n m)) + match map_get k m with Some old => old | None => 0 end
  = list_sum (map snd m) + n.
Proof.
  unfold map_get, list_sum. induction m as [|[k' w] m IH]; cbn; [lia|].
  destruct (String.eqb k' k); cbn; lia.
Qed.

Lemma tally_app (k : string) (xs ys : list ShownVideo) :
  tally k (xs ++ ys) = tally k xs + tally k ys.
Proof. unfold tally. now rewrite filter_app, length_app. Qed.

Lemma tally_one (k : string) (v : ShownVideo) :
  tally k [v] = if String.eqb (source (video v)) k then 1 else 0.
Proof. unfold tally. cbn [filter]. now destruct (String.eqb (source (video v)) k). Qed.

Lemma count_step_counted (counts : Map nat) (shown : list ShownVideo) (v : ShownVideo) :
  counted counts shown -> counted (count_step counts v) (shown ++ [v]).
Proof.
  intros [Hnd [Hsum Hget]]. unfold count_step.
  set (k := source (video v)).
  assert (Hk : match map_get k counts with Some n => n | None => 0 end = tally k shown).
  { rewrite Hget. destruct (Nat.eqb (tally k shown) 0) eqn:E; [|reflexivity].
    apply Nat.eqb_eq in E. now rewrite E. }
  rewrite Hk. split; [|split].
  - rewrite keys_map_set. destruct (map_has k counts) eqn:Eh; [exact Hnd|].
    apply NoDup_app; [exact Hnd | repeat constructor; intros [] |].
    intros x Hx [<- | []]. apply map_has_keys in Hx. congruence.
  - pose proof (sum_map_set k (tally k shown + 1) counts) as H.
    rewrite Hk in H. rewrite length_app. cbn [List.length]. lia.
  - intros k'. rewrite SearchRouteFacts.map_get_set, tally_app, tally_one, Hget.
    fold k. destruct (String.eqb k k') eqn:E.
    + apply String.eqb_eq in E. subst k'.
      destruct (Nat.eqb (tally k shown + 1) 0) eqn:E0;
        [apply Nat.eqb_eq in E0; lia | reflexivity].
    + now rewrite Nat.add_0_r.
Qed.

Lemma count_steps_counted (vs : list ShownVideo) (counts : Map nat) (shown : list ShownVideo) :
  counted counts shown -> counted (fold_left count_step vs counts) (shown ++ vs).
Proof.
  revert counts shown. induction vs as [|v vs IH]; intros counts shown H; cbn [fold_left].
  - now rewrite app_nil_r.
  - replace (shown ++ v :: vs) with ((shown ++ [v]) ++ vs) by now rewrite <- app_assoc.
    apply IH. now apply count_step_counted.
Qed.

Lemma processLine_consistent (searchQuery : string) (r : Run) (now : Z) (l : Line) :
  consistent r -> consistent (processLine searchQuery r (now, l)).
Proof.
  intros [Hres [Hav Hc]]. destruct l as [| |data]; try (now split).
  by_record_type data; cbn; try (now split).
  split; [reflexivity|]. split; [reflexivity|]. now apply count_steps_counted.
Qed.

Lemma processLines_consistent (searchQuery : string) (lines : list (Z * Line)) (r : Run) :
  consistent r -> consistent (processLines searchQuery lines r).
Proof.
  unfold processLines. revert r.
  induction lines as [|[now l] lines IH]; intros r H; cbn [fold_left]; [exact H|].
  apply IH. now apply processLine_consistent.
Qed.

Lemma performSearch_consistent (trim : string -> string) (searchQuery : string)
    (lines : list (Z * Line)) (ending : Ending) (r0 : Run) :
  truthy (trim searchQuery) = true -> loading (state r0) = false ->
  consistent (performSearch trim searchQuery (Stream lines ending) r0).
Proof.
  intros Hq Hl. unfold performSearch. rewrite Hq, Hl. cbn [negb orb].
  match goal with |- context [processLines searchQuery lines ?r] =>
    assert (H : consistent (processLines searchQuery lines r)) end.
  { apply processLines_consistent. split; [reflexivity|]. split; [reflexivity|].
    split; [constructor|]. split; reflexivity. }
  destruct ending; exact H.
Qed.

(** After a streamed search the source list shown agrees with the videos
    shown: no source is listed twice, every listed source has at least one
    video and its count is the number of its videos, every video's source is
    listed, and the counts add up to the number of videos. *)
Theorem source_counts_match_results
    (trim : string -> string) (searchQuery : string)
    (lines : list (Z * Line)) (ending : Ending) (r0 : Run) :
  truthy (trim searchQuery) = true -> loading (state r0) = false ->
  let final := state (performSearch trim searchQuery (Stream lines ending) r0) in
  NoDup (map sc_id (availableSources final))
  /\ (forall c, In c (availableSources final) ->
        0 < sc_count c /\ sc_count c = tally (sc_id c) (results final))
  /\ (forall v, In v (results final) ->
        In (source (video v)) (map sc_id (availableSources final)))
  /\ list_sum (map sc_count (availableSources final)) = List.length (results final).
Proof.
  intros Hq Hl final.
  destruct (performSearch_consistent trim searchQuery lines ending r0 Hq Hl)
    as [Hres [Hav [Hnd [Hsum Hget]]]].
  fold final in Hres, Hav. rewrite Hav, Hres.
  set (counts := sourceVideoCounts _) in *. set (shown := allVideos _) in *.
  assert (Hids : map sc_id (sourcesArray counts) = map fst counts).
  { unfold sourcesArray. rewrite map_map. apply map_ext. now intros [k n]. }
  assert (Hcounts : map sc_count (sourcesArray counts) = map snd counts).
  { unfold sourcesArray. rewrite map_map. apply map_ext. now intros [k n]. }
  assert (Hentry : forall k n, In (k, n) counts -> map_get k counts = Some n).
  { clear -Hnd. unfold map_get. induction counts as [|[k' n'] counts IH]; cbn;
      intros k n Hin; [contradiction|].
    inversion Hnd as [|? ? Hnotin Hnd']; subst.
    destruct Hin as [Hin|Hin].
    - injection Hin as -> ->. now rewrite String.eqb_refl.
    - destruct (String.eqb k' k) eqn:E; [|now apply IH].
      apply String.eqb_eq in E. subst k'. exfalso. apply Hnotin.
      apply in_map_iff. now exists (k, n). }
  rewrite Hids, Hcounts. repeat split; try assumption.
  - unfold sourcesArray in H. apply in_map_iff in H as [[k n] [<- Hin]]. cbn.
    pose proof (Hentry k n Hin) as Hk. rewrite Hget in Hk.
    destruct (Nat.eqb (tally k shown) 0) eqn:E; [discriminate|].
    apply Nat.eqb_neq in E. injection Hk as <-. lia.
  - unfold sourcesArray in H. apply in_map_iff in H as [[k n] [<- Hin]]. cbn.
    pose proof (Hentry k n Hin) as Hk. rewrite Hget in Hk.
    destruct (Nat.eqb (tally k shown) 0); [discriminate | now injection Hk].
  - intros v Hv. apply map_has_keys. rewrite SearchRouteFacts.map_has_get, Hget.
    assert (Ht : tally (source (video v)) shown <> 0).
    { unfold tally. intros E. apply length_zero_iff_nil in E.
      assert (Hin : In v (filter (fun w => String.eqb (source (video w)) (source (video v)))
                            shown))
        by (apply filter_In; split; [exact Hv | apply String.eqb_refl]).
      rewrite E in Hin. contradiction. }
    apply Nat.eqb_neq in Ht. now rewrite Ht.
Qed.

Lemma source_counts_match_results_witness :
  let final := state (performSearch trim_ascii "matrix"
     (Stream [ (1%Z, Parsed (videos_found [Scenario.matrix1; Scenario.matrix3] 2 3));
               (2%Z, Parsed (videos_found [Scenario.matrix2] 3 3)) ] Done) fresh) in
  map (fun c => (sc_id c, sc_count c)) (availableSources final) = [("dytt", 2); ("ruyi", 1)]
  /\ list_sum (map sc_count (availableSources final)) = List.length (results final).
Proof.
  cbv zeta. split; [reflexivity|].
  apply (source_counts_match_results trim_ascii "matrix"); reflexivity.
Defined.

(** *** The cache *)

Lemma complete_line (searchQuery : string) (r : Run) (now : Z) (l : Line) :
  completes l = true ->
  processLine searchQuery r (now, l)
  = {| state := setLoading false
                  (setCheckedVideos
                     (match l with Parsed data => totalVideos_ data | _ => None end) (state r));
       allVideos := allVideos r;
       sourceVideoCounts := sourceVideoCounts r;
       cache := cache r ++ [ {| cached_query := searchQuery;
                                cached_results := allVideos r;
                                cached_sources := sourcesArray (sourceVideoCounts r) |} ];
       urls := urls r |}.
Proof.
  destruct l as [| |data]; try discriminate. unfold completes. intros H.
  by_record_type data; first [congruence | reflexivity].
Qed.

(** A stream whose last line is a 'complete' record leaves the loop not
    loading; the last call on the cache has the query, the local array
    [allVideos] and the source list made of the local counts. *)
Lemma complete_caches_allVideos
    (trim : string -> string) (searchQuery : string)
    (lines : list (Z * Line)) (now : Z) (l : Line) (ending : Ending) (r0 : Run) :
  truthy (trim searchQuery) = true -> loading (state r0) = false ->
  completes l = true ->
  loading (state (performSearch trim searchQuery (Stream (lines ++ [(now, l)]) ending) r0))
  = false
  /\ exists earlier,
       cache (performSearch trim searchQuery (Stream (lines ++ [(now, l)]) ending) r0)
       = earlier
         ++ [ {| cached_query := searchQuery;
                 cached_results :=
                   allVideos (performSearch trim searchQuery
                                (Stream (lines ++ [(now, l)]) ending) r0);
                 cached_sources :=
                   sourcesArray
                     (sourceVideoCounts (performSearch trim searchQuery
                                           (Stream (lines ++ [(now, l)]) ending) r0)) |} ].
Proof.
  intros Hq Hl Hc.
  unfold performSearch. rewrite Hq, Hl. cbn [negb orb].
  unfold processLines. rewrite fold_left_app. cbn [fold_left].
  rewrite (complete_line _ _ _ _ Hc).
  destruct ending; cbn; (split; [reflexivity | eexists; reflexivity]).
Qed.

(** *** A stream that never completes *)



End SearchStreamMoreFacts.

(* ------------------------------------------------------------------ *)
(** ** More on the search route *)

Module SearchRouteMoreFacts.

Import JS Types SearchRoute SearchRouteMore.

Lemma filter_absent_nil (ids : list string) : filter (absent []) ids = ids.
Proof. induction ids as [|i ids IH]; cbn; [reflexivity | now rewrite IH]. Qed.

Lemma keys_push {A} (k : string) (x : A) (m : Map (list A)) :
  map fst (map_push k x m) = map fst m.
Proof.
  induction m as [|[k' xs] m IH]; cbn; [reflexivity|].
  destruct (String.eqb k' k); cbn; [reflexivity | now rewrite IH].
Qed.

Lemma keys_group_step (m : Map (list Video)) (v : Video) :
  map fst (group_step m v)
  = if map_has (source v) m then map fst m else map fst m ++ [source v].
Proof.
  unfold group_step. rewrite keys_push.
  destruct (map_has (source v) m) eqn:E; cbn [negb]; [reflexivity|].
  rewrite SearchStreamMoreFacts.keys_map_set, E. reflexivity.
Qed.

Lemma map_has_existsb {V} (k : string) (m : Map V) :
  map_has k m = existsb (String.eqb k) (map fst m).
Proof.
  unfold map_has. induction m as [|[k' w] m IH]; cbn; [reflexivity|].
  now rewrite IH, (String.eqb_sym k' k).
Qed.

Lemma filter_filter {A} (p q : A -> bool) (xs : list A) :
  filter p (filter q xs) = filter (fun x => q x && p x) xs.
Proof.
  induction xs as [|x xs IH]; cbn; [reflexivity|].
  destruct (q x); cbn; [destruct (p x)|]; now rewrite IH.
Qed.

Lemma keys_fold_group (vs : list Video) (m : Map (list Video)) :
  map fst (fold_left group_step vs m)
  = map fst m ++ filter (absent (map fst m)) (first_occurrences (map source vs)).
Proof.
  revert m. induction vs as [|v vs IH]; intros m; cbn [fold_left map first_occurrences].
  - cbn. now rewrite app_nil_r.
  - rewrite IH, keys_group_step. cbn [filter]. unfold absent at 2.
    rewrite <- map_has_existsb.
    destruct (map_has (source v) m) eqn:E; cbn [negb].
    + f_equal. rewrite filter_filter. apply filter_ext_in. intros k _.
      unfold absent. destruct (String.eqb (source v) k) eqn:Ek; [|reflexivity].
      apply String.eqb_eq in Ek. subst k. rewrite <- map_has_existsb, E. reflexivity.
    + rewrite <- app_assoc. cbn [app]. do 2 f_equal.
      rewrite filter_filter. apply filter_ext. intros k. unfold absent.
      rewrite existsb_app. cbn [existsb]. rewrite orb_false_r, negb_orb.
      rewrite (String.eqb_sym k (source v)). apply andb_comm.
Qed.

Lemma in_group_entry (k : string) (videos : list Video) (av : list Video) :
  In (k, videos) (group av) ->
  videos = filter (fun v => String.eqb (source v) k) av.
Proof.
  intros Hin.
  assert (Hnd : NoDup (map fst (group av))).
  { unfold group. rewrite keys_fold_group. cbn [map app].
    apply NoDup_filter. clear. induction (map source av) as [|i ids IH]; cbn.
    - constructor.
    - constructor; [|now apply NoDup_filter].
      intros H. apply filter_In in H as [_ H]. now rewrite String.eqb_refl in H. }
  pose proof (SearchRouteFacts.get_fold_group k av []) as Hget.
  unfold get_or_nil in Hget. fold (group av) in Hget. cbn in Hget. rewrite <- Hget.
  clear Hget. unfold map_get. induction (group av) as [|[k' xs] m IH]; [contradiction|].
  cbn. inversion Hnd as [|? ? Hnotin Hnd']; subst. destruct Hin as [Hin|Hin].
  - injection Hin as -> ->. now rewrite String.eqb_refl.
  - destruct (String.eqb k' k) eqn:E; [|now apply IH].
    apply String.eqb_eq in E. subst k'. exfalso. apply Hnotin.
    apply in_map_iff. now exists (k, videos).
Qed.

(** The grouping is stable: in a result body the [sources] entries are the
    sources of the verified videos, each once, in the order in which they
    first occur among them; an entry holds exactly the verified videos of
    its source, in their order, and is never empty. *)
Theorem sources_group_the_verified_videos
    (trim : string -> string) (getSourceById : string -> option VideoSource)
    (searchVideos : string -> list VideoSource -> value -> outcome (list SearchResult))
    (checkMultipleVideos : list Video -> nat -> outcome (list Video))
    (request_json : outcome request_body) (r : SearchResponse) (st : nat) (log : list call) :
  POST trim getSourceById searchVideos checkMultipleVideos request_json
  = ({| body := ResultBody r; status := st |}, log) ->
  exists candidates verified,
    In (CheckCall candidates 8) log
    /\ checkMultipleVideos candidates 8 = Returns verified
    /\ map result_source (sources r) = first_occurrences (map source verified)
    /\ forall entry, In entry (sources r) ->
         results entry = filter (fun v => String.eqb (source v) (result_source entry)) verified
         /\ results entry <> [].
Proof.
  intros H.
  destruct (SearchRouteFacts.POST_paths trim getSourceById searchVideos checkMultipleVideos
              request_json)
    as [[m [log' H']] | [[m H'] | [q [ids [p [sr [av [_ [_ [_ [_ [Hav H']]]]]]]]]]]];
    rewrite H' in H; try discriminate.
  injection H as <- _ <-. exists (flat_map results sr), av.
  split; [right; now left|]. split; [exact Hav|]. cbn [sources]. split.
  - rewrite map_map. unfold group.
    transitivity (map fst (fold_left group_step av [])); [apply map_ext; now intros [k vs]|].
    rewrite keys_fold_group. cbn [map app]. apply filter_absent_nil.
  - intros entry Hentry. apply in_map_iff in Hentry as [[k vs] [<- Hin]].
    cbn [results result_source]. pose proof (in_group_entry k vs av Hin) as Hvs.
    split; [exact Hvs|].
    assert (Hk : In k (map fst (group av))) by (apply in_map_iff; now exists (k, vs)).
    apply RunFacts.group_key_has_video in Hk as [v [Hv Hs]].
    intros E. rewrite Hvs in E.
    assert (Hf : In v (filter (fun w => String.eqb (source w) k) av))
      by (apply filter_In; split; [exact Hv | now apply String.eqb_eq]).
    rewrite E in Hf. contradiction.
Qed.

Lemma sources_group_the_verified_videos_witness :
  exists r candidates verified,
    fst (Scenario.POST Scenario.client [1; 0; 0] (Scenario.request "matrix" ["ruyi"; "dytt"]))
    = {| body := ResultBody r; status := 200 |}
    /\ Pipeline.checkMultipleVideos Scenario.all_available [1; 0; 0] candidates 8
       = Returns verified
    /\ map result_source (sources r) = first_occurrences (map source verified).
Proof.
  destruct (sources_group_the_verified_videos trim_ascii Scenario.getSourceById
              (Pipeline.searchVideos Scenario.client)
              (Pipeline.checkMultipleVideos Scenario.all_available [1; 0; 0])
              (Returns (Scenario.request "matrix" ["ruyi"; "dytt"])) _ 200 _ eq_refl)
    as [candidates [verified [_ [Hv [Hk _]]]]].
  eexists. exists candidates, verified. split; [reflexivity|]. split; assumption.
Defined.

Lemma configured_names_are_not_empty (k displayName : string) :
  SourceNames.own k = Some displayName -> truthy displayName = true.
Proof.
  unfold SourceNames.own, SourceNames.sourceNames. cbn [find fst].
  repeat (destruct (String.eqb _ k); [intros H; injection H as <-; reflexivity|]).
  discriminate.
Qed.

(** What a result body holds: status 200, [success: true], the trimmed
    query, the page (1 when none was sent), [totalResults] equal to the
    number of videos listed under [sources], and one [sourceStats] entry per
    requested id, in request order, with the number of listed videos of
    that source and, for an id that names no member of [Object.prototype],
    the configured display name or else the id itself. *)
Theorem result_body_fields
    (trim : string -> string) (getSourceById : string -> option VideoSource)
    (searchVideos : string -> list VideoSource -> value -> outcome (list SearchResult))
    (checkMultipleVideos : list Video -> nat -> outcome (list Video))
    (request_json : outcome request_body) (r : SearchResponse) (st : nat) (log : list call) :
  POST trim getSourceById searchVideos checkMultipleVideos request_json
  = ({| body := ResultBody r; status := st |}, log) ->
  exists q ids page_,
    request_json = Returns (BodyObject (Text q) (Array ids) page_)
    /\ st = 200 /\ success r = true /\ query r = trim q /\ page r = page_or_1 page_
    /\ totalResults r = List.length (listed r)
    /\ map sourceId (sourceStats r) = ids
    /\ forall stat, In stat (sourceStats r) ->
         count stat
         = List.length (filter (fun v => String.eqb (source v) (sourceId stat)) (listed r))
         /\ (inherited (sourceId stat) = false ->
             sourceName stat
             = SourceNames.Str (match SourceNames.own (sourceId stat) with
                                | Some displayName => displayName
                                | None => sourceId stat
                                end)).
Proof.
  intros H.
  destruct (SearchRouteFacts.POST_paths trim getSourceById searchVideos checkMultipleVideos
              request_json)
    as [[m [log' H']] | [[m H'] | [q [ids [p [sr [av [Hreq [_ [_ [_ [_ H']]]]]]]]]]]];
    rewrite H' in H; try discriminate.
  destruct (SearchRouteFacts.respond_fields trim q (page_or_1 p) ids sr av)
    as [r' [Er [Sr [Qr [Pr [Tr [St [_ L]]]]]]]].
  rewrite Er in H. injection H as <- <- _.
  exists q, ids, p. repeat split; try assumption.
  - rewrite Tr. symmetry. now apply Permutation_length.
  - rewrite St, map_map. cbn [sourceId]. apply map_id.
  - rewrite St in H. apply in_map_iff in H as [i [<- _]]. cbn [count sourceId].
    symmetry. now apply RunFacts.filter_length_perm.
  - rewrite St in H. apply in_map_iff in H as [i [<- _]]. cbn [sourceName sourceId].
    intros Hi. unfold getSourceName, SourceNames.getSourceName.
    destruct (SourceNames.own i) as [n|] eqn:E.
    + now rewrite (configured_names_are_not_empty i n E).
    + now rewrite Hi.
Qed.

Lemma result_body_fields_witness :
  exists r,
    fst (Scenario.POST Scenario.client [] (Scenario.request " matrix " ["ruyi"; "nowhere"]))
    = {| body := ResultBody r; status := 200 |}
    /\ query r = "matrix" /\ totalResults r = List.length (listed r)
    /\ map sourceId (sourceStats r) = ["ruyi"; "nowhere"].
Proof.
  destruct (result_body_fields trim_ascii Scenario.getSourceById
              (Pipeline.searchVideos Scenario.client)
              (Pipeline.checkMultipleVideos Scenario.all_available [])
              (Returns (Scenario.request " matrix " ["ruyi"; "nowhere"])) _ 200 _ eq_refl)
    as [q [ids [p [Hreq [_ [_ [Hq [_ [Ht [Hids _]]]]]]]]]].
  injection Hreq as <- <- _.
  eexists. split; [reflexivity|]. split; [exact Hq|]. split; [exact Ht | exact Hids].
Defined.

(** The handler calls [searchVideos] at most once and
    [checkMultipleVideos] at most once, the latter only after the former
    has returned and with exactly the videos it returned, in order; when
    either call throws, the answer is 500 with [success: false] and the
    thrown error's message (or "Internal server error"), and nothing more
    is called. *)
Theorem collaborators_are_called_in_order
    (trim : string -> string) (getSourceById : string -> option VideoSource)
    (searchVideos : string -> list VideoSource -> value -> outcome (list SearchResult))
    (checkMultipleVideos : list Video -> nat -> outcome (list Video))
    (request_json : outcome request_body) :
  snd (POST trim getSourceById searchVideos checkMultipleVideos request_json) = []
  \/ (exists q s p e,
        snd (POST trim getSourceById searchVideos checkMultipleVideos request_json)
        = [SearchCall q s p]
        /\ searchVideos q s p = Throws e
        /\ fst (POST trim getSourceById searchVideos checkMultipleVideos request_json)
           = {| body := ErrorBody (Some false) (message_of e); status := 500 |})
  \/ (exists q s p found,
        snd (POST trim getSourceById searchVideos checkMultipleVideos request_json)
        = [SearchCall q s p; CheckCall (flat_map results found) 8]
        /\ searchVideos q s p = Returns found
        /\ forall e, checkMultipleVideos (flat_map results found) 8 = Throws e ->
             fst (POST trim getSourceById searchVideos checkMultipleVideos request_json)
             = {| body := ErrorBody (Some false) (message_of e); status := 500 |}).
Proof.
  unfold POST. destruct request_json as [[|q ids page_]|e];
    cbn [bind destructure ret raise try_catch app snd fst]; try (now left).
  destruct (invalid_query trim q); [now left|].
  destruct (invalid_sources ids); [now left|].
  destruct (Nat.eqb _ 0); [now left|].
  destruct (searchVideos _ _ _) as [found|e] eqn:Es; cbn [bind app snd fst].
  - right; right. do 3 eexists. exists found.
    destruct (checkMultipleVideos _ 8) as [av|e] eqn:Ec; cbn [bind ret try_catch app snd fst].
    + split; [reflexivity|]. split; [exact Es|]. intros e He. congruence.
    + split; [reflexivity|]. split; [exact Es|]. intros e' He.
      injection He as <-. now destruct e.
  - right; left. do 3 eexists. exists e. split; [reflexivity|]. split; [exact Es|].
    now destruct e.
Qed.

End SearchRouteMoreFacts.

(* ------------------------------------------------------------------ *)
(** ** The [GET] handler of the search route *)

Module SearchRouteGetFacts.

Import JS Types SearchRouteGet.

Section Runs.

Variable Page : Type.
Variable trim : string -> string.
Variable parseInt : string -> Page.
Variable getEnabledSources : list VideoSource.
Variable getSourceById : string -> option VideoSource.
Variable searchVideos : string -> list VideoSource -> Page -> outcome (list SearchResult).
Variable checkMultipleVideos : list Video -> nat -> outcome (list Video).

Local Abbreviation GET' :=
  (GET Page trim parseInt getEnabledSources getSourceById searchVideos checkMultipleVideos).

Lemma unresolved_nil (ids : list string) :
  (forall i, In i ids -> getSourceById i = None) ->
  SearchRoute.defined_only (map getSourceById ids) = [].
Proof.
  induction ids as [|i ids IH]; intros H; cbn; [reflexivity|].
  rewrite (H i) by now left. apply IH. intros j Hj. apply H. now right.
Qed.

(** A result body comes only from a run in which a query was given, some
    requested id resolved and both collaborators returned. *)
Lemma GET_result (searchParams : SearchParams) (r : Result Page) (st : nat)
    (log : list (call Page)) :
  GET' searchParams = ({| body := ResultBody r; status := st |}, log) ->
  exists found verified,
    present (or_get (param_q searchParams) (param_query searchParams)) = true
    /\ searchVideos (trim (string_of (or_get (param_q searchParams) (param_query searchParams))))
         (SearchRoute.defined_only (map getSourceById (requested getEnabledSources searchParams)))
         (requested_page Page parseInt searchParams) = Returns found
    /\ checkMultipleVideos (flat_map results found) 8 = Returns verified
    /\ {| body := ResultBody r; status := st |}
       = respond Page trim
           (string_of (or_get (param_q searchParams) (param_query searchParams)))
           (requested_page Page parseInt searchParams)
           (requested getEnabledSources searchParams) found verified.
Proof.
  unfold GET.
  destruct (present (or_get (param_q searchParams) (param_query searchParams)));
    cbn [negb]; [|discriminate].
  destruct (Nat.eqb _ 0); [discriminate|].
  destruct (searchVideos _ _ _) as [found|e] eqn:Es; [|destruct e; discriminate].
  destruct (checkMultipleVideos _ 8) as [verified|e] eqn:Ec; [|destruct e; discriminate].
  intros H. apply (f_equal fst) in H. cbn [fst] in H. exists found, verified.
  repeat split; try assumption. now symmetry.
Qed.

End Runs.

(** [GET] answers 400 and calls no collaborator when neither [q] nor
    [query] holds a non-empty value, or when none of the requested ids (the
    members of [sources], or the enabled sources when [sources] is missing
    or empty) resolves through [getSourceById]. *)
Theorem GET_rejects_without_calls
    (Page : Type) (trim : string -> string) (parseInt : string -> Page)
    (getEnabledSources : list VideoSource) (getSourceById : string -> option VideoSource)
    (searchVideos : string -> list VideoSource -> Page -> outcome (list SearchResult))
    (checkMultipleVideos : list Video -> nat -> outcome (list Video))
    (searchParams : SearchParams) :
  present (or_get (param_q searchParams) (param_query searchParams)) = false
  \/ (forall i, In i (requested getEnabledSources searchParams) -> getSourceById i = None) ->
  exists message,
    GET Page trim parseInt getEnabledSources getSourceById searchVideos checkMultipleVideos
      searchParams
    = ({| body := ErrorBody None message; status := 400 |}, []).
Proof.
  intros H. unfold GET.
  destruct (present (or_get (param_q searchParams) (param_query searchParams)));
    cbn [negb]; [|eexists; reflexivity].
  destruct H as [H|H]; [discriminate|].
  rewrite (unresolved_nil getSourceById _ H). eexists. reflexivity.
Qed.

Lemma GET_rejects_without_calls_witness :
  (exists message,
      GET SearchRoute.value trim_ascii (fun _ => SearchRoute.Number 1)
        [Scenario.dytt; Scenario.ruyi] Scenario.getSourceById
        (Pipeline.searchVideos Scenario.client)
        (Pipeline.checkMultipleVideos Scenario.all_available [])
        {| param_q := Some ""; param_query := None;
           param_sources := Some "dytt"; param_page := None |}
      = ({| body := ErrorBody None message; status := 400 |}, []))
  /\ (exists message,
      GET SearchRoute.value trim_ascii (fun _ => SearchRoute.Number 1)
        [Scenario.dytt; Scenario.ruyi] Scenario.getSourceById
        (Pipeline.searchVideos Scenario.client)
        (Pipeline.checkMultipleVideos Scenario.all_available [])
        {| param_q := Some "matrix"; param_query := None;
           param_sources := Some "nowhere,else"; param_page := None |}
      = ({| body := ErrorBody None message; status := 400 |}, [])).
Proof.
  split; apply GET_rejects_without_calls.
  - left. reflexivity.
  - right. intros i [<- | [<- | []]]; reflexivity.
Defined.

(** [GET] does not test the trimmed query: a [q] of white space only is
    searched for as the empty string, where [POST] answers the same query
    with 400 and calls nothing. *)
Theorem GET_searches_for_a_blank_query
    (Page : Type) (trim : string -> string) (parseInt : string -> Page)
    (getEnabledSources : list VideoSource) (getSourceById : string -> option VideoSource)
    (searchVideos : string -> list VideoSource -> Page -> outcome (list SearchResult))
    (checkMultipleVideos : list Video -> nat -> outcome (list Video))
    (searchVideos' : string -> list VideoSource -> SearchRoute.value
                     -> outcome (list SearchResult))
    (searchParams : SearchParams) (s : string) (ids page_ : SearchRoute.value) :
  param_q searchParams = Some s -> s <> EmptyString -> trim s = EmptyString ->
  SearchRoute.defined_only (map getSourceById (requested getEnabledSources searchParams)) <> [] ->
  (exists rest,
      snd (GET Page trim parseInt getEnabledSources getSourceById searchVideos
             checkMultipleVideos searchParams)
      = SearchCall EmptyString
          (SearchRoute.defined_only (map getSourceById (requested getEnabledSources searchParams)))
          (requested_page Page parseInt searchParams) :: rest)
  /\ (exists message,
      SearchRoute.POST trim getSourceById searchVideos' checkMultipleVideos
        (Returns (SearchRoute.BodyObject (SearchRoute.Text s) ids page_))
      = ({| SearchRoute.body := SearchRoute.ErrorBody None message;
            SearchRoute.status := 400 |}, [])).
Proof.
  intros Hq Hs Ht Hn. split.
  - unfold GET. rewrite Hq. unfold or_get.
    rewrite (SearchHistoryMoreFacts.truthy_nonempty s Hs). cbn [present negb string_of].
    rewrite (SearchHistoryMoreFacts.truthy_nonempty s Hs). cbn [negb]. rewrite Ht.
    destruct (SearchRoute.defined_only _) as [|s0 ss]; [contradiction|].
    cbn [List.length Nat.eqb].
    destruct (searchVideos _ _ _) as [found|e]; [|eexists; reflexivity].
    destruct (checkMultipleVideos _ 8); eexists; reflexivity.
  - apply SearchRouteFacts.POST_invalid. left.
    unfold SearchRoute.invalid_query. cbn [SearchRoute.text_of]. rewrite Ht.
    cbn. now rewrite orb_true_r.
Qed.

Lemma GET_searches_for_a_blank_query_witness :
  exists rest,
    snd (GET SearchRoute.value trim_ascii (fun _ => SearchRoute.Number 1)
           [Scenario.dytt; Scenario.ruyi] Scenario.getSourceById
           (Pipeline.searchVideos Scenario.client)
           (Pipeline.checkMultipleVideos Scenario.all_available [])
           {| param_q := Some "  "; param_query := None;
              param_sources := Some "dytt"; param_page := None |})
    = SearchCall EmptyString [Scenario.dytt] (SearchRoute.Number 1) :: rest.
Proof.
  apply (GET_searches_for_a_blank_query SearchRoute.value trim_ascii
           (fun _ => SearchRoute.Number 1) [Scenario.dytt; Scenario.ruyi]
           Scenario.getSourceById (Pipeline.searchVideos Scenario.client)
           (Pipeline.checkMultipleVideos Scenario.all_available [])
           (Pipeline.searchVideos Scenario.client)
           {| param_q := Some "  "; param_query := None;
              param_sources := Some "dytt"; param_page := None |}
           "  " SearchRoute.Undefined SearchRoute.Undefined);
    try reflexivity; discriminate.
Defined.

(** Without a [sources] parameter (or with an empty one) [GET] asks for the
    enabled sources: a result body has one [sourceStats] entry per enabled
    source, in the registry's order, and the page is what [parseInt] makes
    of the [page] parameter, or of '1' when there is none. *)
Theorem GET_defaults_to_the_enabled_sources
    (Page : Type) (trim : string -> string) (parseInt : string -> Page)
    (getEnabledSources : list VideoSource) (getSourceById : string -> option VideoSource)
    (searchVideos : string -> list VideoSource -> Page -> outcome (list SearchResult))
    (checkMultipleVideos : list Video -> nat -> outcome (list Video))
    (searchParams : SearchParams) (r : Result Page) (st : nat) (log : list (call Page)) :
  present (param_sources searchParams) = false ->
  GET Page trim parseInt getEnabledSources getSourceById searchVideos checkMultipleVideos
    searchParams
  = ({| body := ResultBody r; status := st |}, log) ->
  map SearchRoute.sourceId (sourceStats Page r) = map id getEnabledSources
  /\ (present (param_page searchParams) = false -> page Page r = parseInt "1").
Proof.
  intros Hs H. apply GET_result in H as [found [verified [_ [_ [_ H]]]]].
  unfold respond in H. injection H as -> _. cbn [sourceStats page]. split.
  - rewrite map_map. cbn [SearchRoute.sourceId]. rewrite map_id.
    unfold requested. now rewrite Hs.
  - intros Hp. unfold requested_page. now rewrite Hp.
Qed.

Lemma GET_defaults_to_the_enabled_sources_witness :
  exists r,
    fst (GET SearchRoute.value trim_ascii (fun _ => SearchRoute.Number 1)
           [Scenario.dytt; Scenario.ruyi] Scenario.getSourceById
           (Pipeline.searchVideos Scenario.client)
           (Pipeline.checkMultipleVideos Scenario.all_available [])
           {| param_q := None; param_query := Some "matrix";
              param_sources := None; param_page := None |})
    = {| body := ResultBody r; status := 200 |}
    /\ map SearchRoute.sourceId (sourceStats _ r) = ["dytt"; "ruyi"].
Proof.
  eexists. split; [reflexivity|].
  apply (GET_defaults_to_the_enabled_sources SearchRoute.value trim_ascii
           (fun _ => SearchRoute.Number 1) [Scenario.dytt; Scenario.ruyi]
           Scenario.getSourceById (Pipeline.searchVideos Scenario.client)
           (Pipeline.checkMultipleVideos Scenario.all_available [])
           {| param_q := None; param_query := Some "matrix";
              param_sources := None; param_page := None |} _ 200 _ eq_refl eq_refl).
Defined.

(** On a query that [POST] accepts, a [GET] request with a [sources]
    parameter answers as [POST] does on the body that holds the same query,
    the comma-separated ids as the source list and the parsed page: the
    same calls on the collaborators, the same status and the same body. *)
Theorem GET_agrees_with_POST
    (trim : string -> string) (parseInt : string -> SearchRoute.value)
    (getEnabledSources : list VideoSource) (getSourceById : string -> option VideoSource)
    (searchVideos : string -> list VideoSource -> SearchRoute.value
                    -> outcome (list SearchResult))
    (checkMultipleVideos : list Video -> nat -> outcome (list Video))
    (searchParams : SearchParams) (s csv : string) (page_ : SearchRoute.value) :
  or_get (param_q searchParams) (param_query searchParams) = Some s ->
  SearchRoute.invalid_query trim (SearchRoute.Text s) = false ->
  param_sources searchParams = Some csv -> csv <> EmptyString ->
  SearchRoute.page_or_1 page_ = requested_page SearchRoute.value parseInt searchParams ->
  let answer :=
    GET SearchRoute.value trim parseInt getEnabledSources getSourceById searchVideos
      checkMultipleVideos searchParams in
  (as_route_response (fst answer), map as_route_call (snd answer))
  = SearchRoute.POST trim getSourceById searchVideos checkMultipleVideos
      (Returns (SearchRoute.BodyObject (SearchRoute.Text s)
                  (SearchRoute.Array (split "," csv)) page_)).
Proof.
  intros Hq Hv Hs Hcsv Hp answer. unfold answer, GET, SearchRoute.POST.
  cbn [SearchRoute.bind SearchRoute.destructure SearchRoute.ret SearchRoute.try_catch app].
  rewrite Hv, Hq.
  assert (Hs' : truthy s = true).
  { unfold SearchRoute.invalid_query in Hv. destruct s; [discriminate | reflexivity]. }
  cbn [present negb string_of]. rewrite Hs'. cbn [negb].
  assert (Hsplit : split "," csv <> []) by apply ParsersFacts.split_not_nil.
  unfold SearchRoute.invalid_sources. cbn [SearchRoute.falsy SearchRoute.is_array
    SearchRoute.items_of negb orb SearchRoute.text_of].
  destruct (split "," csv) as [|i0 ids] eqn:Ei; [contradiction|].
  cbn [List.length Nat.eqb]. unfold requested. rewrite Hs. cbn [present string_of].
  rewrite (SearchHistoryMoreFacts.truthy_nonempty csv Hcsv), Ei, <- Hp.
  destruct (SearchRoute.defined_only _) as [|s0 ss]; cbn [List.length Nat.eqb];
    [reflexivity|].
  destruct (searchVideos _ _ _) as [found|e]; cbn [SearchRoute.bind app];
    [|now destruct e].
  destruct (checkMultipleVideos _ 8) as [verified|e];
    cbn [SearchRoute.bind SearchRoute.ret SearchRoute.try_catch app]; [|now destruct e].
  reflexivity.
Qed.

Lemma GET_agrees_with_POST_witness :
  let answer :=
    GET SearchRoute.value trim_ascii (fun _ => SearchRoute.Number 2)
      [Scenario.dytt; Scenario.ruyi] Scenario.getSourceById
      (Pipeline.searchVideos Scenario.client)
      (Pipeline.checkMultipleVideos Scenario.all_available [])
      {| param_q := Some " matrix"; param_query := None;
         param_sources := Some "ruyi,nowhere,dytt"; param_page := Some "2" |} in
  (as_route_response (fst answer), map as_route_call (snd answer))
  = SearchRoute.POST trim_ascii Scenario.getSourceById
      (Pipeline.searchVideos Scenario.client)
      (Pipeline.checkMultipleVideos Scenario.all_available [])
      (Returns (SearchRoute.BodyObject (SearchRoute.Text " matrix")
                  (SearchRoute.Array ["ruyi"; "nowhere"; "dytt"]) (SearchRoute.Number 2))).
Proof.
  apply (GET_agrees_with_POST trim_ascii (fun _ => SearchRoute.Number 2)
           [Scenario.dytt; Scenario.ruyi] Scenario.getSourceById
           (Pipeline.searchVideos Scenario.client)
           (Pipeline.checkMultipleVideos Scenario.all_available [])
           {| param_q := Some " matrix"; param_query := None;
              param_sources := Some "ruyi,nowhere,dytt"; param_page := Some "2" |}
           " matrix" "ruyi,nowhere,dytt" (SearchRoute.Number 2));
    try reflexivity; discriminate.
Defined.

End SearchRouteGetFacts.

(* ------------------------------------------------------------------ *)
(** ** More on [parseEpisodes] *)

Module ParsersMoreFacts.

Import JS Parsers ParsersMore.

Lemma split_free (sep : ascii) (s : string) :
  free_of sep s = true -> split sep s = [s].
Proof.
  induction s as [|c rest IH]; cbn; [reflexivity|].
  destruct (Ascii.eqb c sep); cbn; [discriminate|].
  intros H. now rewrite (IH H).
Qed.

Lemma split_at_sep (sep : ascii) (a rest : string) :
  free_of sep a = true -> split sep (a ++ String sep rest)%string = a :: split sep rest.
Proof.
  induction a as [|c a IH]; cbn.
  - now rewrite Ascii.eqb_refl.
  - destruct (Ascii.eqb c sep); cbn; [discriminate|].
    intros H. now rewrite (IH H).
Qed.

Lemma before_free (sep : ascii) (s : string) :
  free_of sep s = true -> before sep s = s.
Proof.
  induction s as [|c rest IH]; cbn; [reflexivity|].
  destruct (Ascii.eqb c sep); cbn; [discriminate|].
  intros H. now rewrite (IH H).
Qed.

Lemma before_at_sep (sep : ascii) (a rest : string) :
  free_of sep a = true -> before sep (a ++ String sep rest)%string = a.
Proof.
  induction a as [|c a IH]; cbn.
  - now rewrite Ascii.eqb_refl.
  - destruct (Ascii.eqb c sep); cbn; [discriminate|].
    intros H. now rewrite (IH H).
Qed.

Lemma after_at_sep (sep : ascii) (a rest : string) :
  free_of sep a = true -> after sep (a ++ String sep rest)%string = rest.
Proof.
  induction a as [|c a IH]; cbn.
  - now rewrite Ascii.eqb_refl.
  - destruct (Ascii.eqb c sep); cbn; [discriminate | exact IH].
Qed.

Lemma free_of_app (c : ascii) (a b : string) :
  free_of c (a ++ b)%string = free_of c a && free_of c b.
Proof.
  induction a as [|d a IH]; cbn; [reflexivity|]. now rewrite IH, andb_assoc.
Qed.

Lemma split_join (sep : ascii) (pieces : list string) :
  pieces <> [] -> (forall p, In p pieces -> free_of sep p = true) ->
  split sep (join sep pieces) = pieces.
Proof.
  induction pieces as [|p [|p' rest] IH]; intros Hne H; [contradiction| |].
  - cbn. apply split_free. apply H. now left.
  - change (join sep (p :: p' :: rest)) with (p ++ String sep (join sep (p' :: rest)))%string.
    rewrite split_at_sep by (apply H; now left). f_equal.
    apply IH; [discriminate|]. intros q Hq. apply H. now right.
Qed.

Lemma clean_is_fixed (u : string) : dirty u = false -> cleanUrl u = u.
Proof.
  induction u as [|c tl IH]; [reflexivity|]. cbn [dirty].
  intros H. apply orb_false_iff in H as [Hh Hd].
  rewrite ParsersFacts.cleanUrl_step, Hh. now rewrite (IH Hd).
Qed.

Lemma mapi_from_map {A B C} (f : B -> nat -> C) (g : A -> B) (xs : list A) (i : nat) :
  mapi_from i f (map g xs) = mapi_from i (fun x => f (g x)) xs.
Proof.
  revert i. induction xs as [|x xs IH]; intros i; cbn; [reflexivity|]. now rewrite IH.
Qed.

Lemma mapi_from_ext_in {A B} (f g : A -> nat -> B) (xs : list A) (i : nat) :
  (forall x j, In x xs -> f x j = g x j) -> mapi_from i f xs = mapi_from i g xs.
Proof.
  revert i. induction xs as [|x xs IH]; intros i H; cbn; [reflexivity|].
  rewrite (H x i) by now left. f_equal. apply IH. intros y j Hy. apply H. now right.
Qed.

(** Round trip: a list of plain (name, url) pairs written in the documented
    format "name$url#name$url#..." parses back to the same names and urls,
    numbered from 0. *)
Theorem parseEpisodes_reads_back
    (episodes : list (string * string)) :
  (forall e, In e episodes -> plain e) ->
  parseEpisodes (render episodes)
  = mapi (fun e i => {| name := fst e; url := snd e; index := i |}) episodes.
Proof.
  intros Hplain. destruct episodes as [|e0 rest] eqn:Ee; [reflexivity|].
  rewrite <- Ee in *. assert (Hne : episodes <> []) by (rewrite Ee; discriminate).
  clear Ee e0 rest. unfold parseEpisodes, render.
  set (segments := map (fun e => (fst e ++ String "$" (snd e))%string) episodes).
  assert (Hfree : forall p, In p segments -> free_of "#" p = true).
  { intros p Hp. apply in_map_iff in Hp as [e [<- He]].
    destruct (Hplain e He) as [_ [H1 [_ [H2 _]]]].
    rewrite free_of_app, H1. cbn. exact H2. }
  assert (Hsegs : segments <> []).
  { unfold segments. destruct episodes; [contradiction | discriminate]. }
  assert (Htruthy : forall p, In p segments -> truthy p = true).
  { intros p Hp. apply in_map_iff in Hp as [e [<- He]].
    destruct (Hplain e He) as [H0 _]. destruct (fst e); [contradiction | reflexivity]. }
  assert (Hwhole : truthy (join "#" segments) = true).
  { destruct segments as [|p [|p' more]]; [contradiction| |].
    - apply Htruthy. now left.
    - cbn [join]. assert (truthy p = true) by (apply Htruthy; now left).
      destruct p; [discriminate | reflexivity]. }
  rewrite Hwhole. cbn [negb]. rewrite (split_join "#" segments Hsegs Hfree).
  assert (Hall : filter truthy segments = segments).
  { clear -Htruthy. induction segments as [|p ps IH]; cbn; [reflexivity|].
    rewrite (Htruthy p) by now left. f_equal. apply IH. intros q Hq. apply Htruthy. now right. }
  rewrite Hall. unfold mapi, segments. rewrite mapi_from_map.
  apply mapi_from_ext_in. intros e j He.
  destruct (Hplain e He) as [H0 [_ [H1 [_ [H2 H3]]]]].
  rewrite ParsersFacts.toEpisode_episodeOf. unfold episodeOf.
  rewrite (before_at_sep "$" _ _ H1), (after_at_sep "$" _ _ H1), (before_free "$" _ H2).
  rewrite (clean_is_fixed _ H3). unfold or_else.
  destruct (fst e); [contradiction | reflexivity].
Qed.

Lemma parseEpisodes_reads_back_witness :
  parseEpisodes (render [("EP1", "http://h/1.m3u8"); ("EP2", "")])
  = [ {| name := "EP1"; url := "http://h/1.m3u8"; index := 0 |};
      {| name := "EP2"; url := ""; index := 1 |} ].
Proof.
  apply (parseEpisodes_reads_back [("EP1", "http://h/1.m3u8"); ("EP2", "")]).
  intros e [<- | [<- | []]]; repeat split; discriminate.
Defined.

(** *** One pass of [cleanUrl] *)

Lemma cleanUrl_keeps_head (c : ascii) (tl : string) :
  exists out, cleanUrl (String c tl) = String c out.
Proof.
  rewrite ParsersFacts.cleanUrl_step. destruct (hit c tl); [|eexists; reflexivity].
  destruct tl as [|a [|b rest]]; eexists; reflexivity.
Qed.

Lemma triple_slash_tail (a : ascii) (tl : string) :
  triple_slash (String a tl) = false -> triple_slash tl = false.
Proof.
  destruct tl as [|b [|c rest]]; try reflexivity.
  cbn [triple_slash]. intros H. now apply orb_false_iff in H.
Qed.

Lemma no_triple_slash_clean_upto (n : nat) :
  forall u, String.length u <= n -> triple_slash u = false -> dirty (cleanUrl u) = false.
Proof.
  induction n as [|n IH]; intros u Hn Ht.
  - destruct u; [reflexivity | cbn in Hn; lia].
  - destruct u as [|c tl]; [reflexivity|].
    pose proof (triple_slash_tail c tl Ht) as Htl.
    rewrite ParsersFacts.cleanUrl_step. destruct (hit c tl) eqn:Eh.
    + destruct tl as [|a [|b rest]]; try discriminate.
      cbn [hit] in Eh. apply andb_prop in Eh as [Eh Eb]. apply andb_prop in Eh as [Ec Ea].
      apply Ascii.eqb_eq in Ea, Eb. subst a b.
      assert (Hrest : triple_slash rest = false)
        by (apply (triple_slash_tail "/"), (triple_slash_tail "/"); exact Htl).
      assert (IHrest : dirty (cleanUrl rest) = false)
        by (apply IH; [cbn in Hn; lia | exact Hrest]).
      destruct rest as [|d rest']; [reflexivity|].
      assert (Hd : Ascii.eqb d "/" = false).
      { cbn [triple_slash] in Htl. apply orb_false_iff in Htl as [Htl _].
        cbn in Htl. exact Htl. }
      destruct (cleanUrl_keeps_head d rest') as [out Eout]. rewrite Eout in *.
      cbn [dirty] in *. cbn [hit]. rewrite Hd, andb_false_r, IHrest, orb_false_r.
      cbn [orb]. now destruct out.
    + cbn [dirty]. rewrite (IH tl) by (cbn in Hn; lia || exact Htl). rewrite orb_false_r.
      destruct tl as [|a tl2]; [reflexivity|].
      destruct (cleanUrl_keeps_head a tl2) as [out Eout].
      pose proof Eout as Eout'. rewrite ParsersFacts.cleanUrl_step in Eout'.
      rewrite Eout.
      destruct (hit a tl2) eqn:Eh2.
      * destruct tl2 as [|b [|b' rest2]]; try discriminate.
        cbn [hit] in Eh2. apply andb_prop in Eh2 as [Eh2 Eb'].
        apply andb_prop in Eh2 as [_ Eb].
        injection Eout' as <-. cbn [hit].
        cbn [hit] in Eh. rewrite Eb in Eh. exact Eh.
      * injection Eout' as <-. destruct tl2 as [|b tl3]; [reflexivity|].
        destruct (cleanUrl_keeps_head b tl3) as [out2 Eout2]. rewrite Eout2.
        cbn [hit] in Eh |- *. destruct tl3; exact Eh.
Qed.

(** One pass is enough unless slashes come in threes: when the url holds no
    three slashes in a row, the cleaned url holds no character other than
    ':' with two slashes behind it, and cleaning it again changes
    nothing. *)
Theorem cleanUrl_once_is_enough (u : string) :
  triple_slash u = false ->
  dirty (cleanUrl u) = false /\ cleanUrl (cleanUrl u) = cleanUrl u.
Proof.
  intros H.
  assert (Hd : dirty (cleanUrl u) = false)
    by (apply (no_triple_slash_clean_upto (String.length u)); [lia | exact H]).
  split; [exact Hd | now apply clean_is_fixed].
Qed.

Lemma cleanUrl_once_is_enough_witness :
  cleanUrl "http://h//a//b/c.m3u8" = "http://h/a/b/c.m3u8"
  /\ cleanUrl (cleanUrl "http://h//a//b/c.m3u8") = cleanUrl "http://h//a//b/c.m3u8".
Proof.
  split; [reflexivity|].
  apply (cleanUrl_once_is_enough "http://h//a//b/c.m3u8"). reflexivity.
Defined.

Lemma hit_before_colon (c : ascii) (tl t : string) :
  hit c (tl ++ String ":" t)%string = hit c tl.
Proof.
  destruct tl as [|a [|b rest]]; cbn [String.append hit]; try reflexivity.
  - destruct t; cbn; rewrite ?andb_false_r; reflexivity.
  - cbn. rewrite ?andb_false_r. reflexivity.
Qed.

Lemma cleanUrl_at_colon_upto (n : nat) :
  forall s t, String.length s <= n ->
    cleanUrl (s ++ String ":" t)%string = (cleanUrl s ++ String ":" (cleanUrl t))%string.
Proof.
  induction n as [|n IH]; intros s t Hn.
  - destruct s; [|cbn in Hn; lia]. cbn [String.append].
    rewrite ParsersFacts.cleanUrl_step. cbn [hit]. now destruct t as [|a [|b t']].
  - destruct s as [|c tl].
    + cbn [String.append]. rewrite ParsersFacts.cleanUrl_step.
      now destruct t as [|a [|b t']].
    + change (String c tl ++ String ":" t)%string with (String c (tl ++ String ":" t)).
      rewrite !ParsersFacts.cleanUrl_step, hit_before_colon.
      destruct (hit c tl) eqn:Eh.
      * destruct tl as [|a [|b rest]]; try discriminate. cbn [String.append].
        rewrite (IH rest t) by (cbn in Hn; lia). reflexivity.
      * rewrite (IH tl t) by (cbn in Hn; lia). reflexivity.
Qed.

Lemma no_slash_is_clean (s : string) : free_of "/" s = true -> dirty s = false.
Proof.
  induction s as [|c tl IH]; [reflexivity|]. cbn [free_of dirty].
  intros H. apply andb_prop in H as [_ H]. rewrite (IH H), orb_false_r.
  destruct tl as [|a [|b rest]]; try reflexivity. cbn [hit free_of] in *.
  apply andb_prop in H as [Ha _]. apply negb_true_iff in Ha.
  rewrite Ha. now rewrite andb_false_r.
Qed.

(** A ':' is never part of a rewrite, and cleaning a url is cleaning what
    stands before and after a ':' separately; so the "//" behind the ':' of
    a scheme is kept: a url made of a scheme without slashes, "://" and a
    rest that does not begin with a slash is cleaned in its rest only. *)
Theorem cleanUrl_keeps_the_scheme :
  (forall s t,
      cleanUrl (s ++ String ":" t)%string = (cleanUrl s ++ String ":" (cleanUrl t))%string)
  /\ (forall scheme c rest,
        free_of "/" scheme = true -> Ascii.eqb c "/" = false ->
        cleanUrl (scheme ++ "://" ++ String c rest)%string
        = (scheme ++ "://" ++ cleanUrl (String c rest))%string).
Proof.
  assert (H : forall s t,
    cleanUrl (s ++ String ":" t)%string = (cleanUrl s ++ String ":" (cleanUrl t))%string)
    by (intros s t; apply (cleanUrl_at_colon_upto (String.length s)); lia).
  split; [exact H|]. intros scheme c rest Hs Hc.
  change ("://" ++ String c rest)%string with (String ":" (String "/" (String "/" (String c rest)))).
  change ("://" ++ cleanUrl (String c rest))%string
    with (String ":" (String "/" (String "/" (cleanUrl (String c rest))))).
  rewrite H, (clean_is_fixed scheme (no_slash_is_clean scheme Hs)). do 2 f_equal.
  rewrite ParsersFacts.cleanUrl_step. cbn [hit]. rewrite Hc, andb_false_r. f_equal.
  rewrite ParsersFacts.cleanUrl_step. cbn [hit].
  destruct rest as [|d rest']; [reflexivity|]. now rewrite Hc, andb_false_l || rewrite Hc.
Qed.

Lemma cleanUrl_keeps_the_scheme_witness :
  cleanUrl ("https" ++ "://" ++ "cdn.example//live//1.m3u8")%string
  = ("https" ++ "://" ++ cleanUrl "cdn.example//live//1.m3u8")%string.
Proof.
  destruct cleanUrl_keeps_the_scheme as [_ H].
  apply (H "https" "c"%char "dn.example//live//1.m3u8"); reflexivity.
Defined.

(** *** The shape of the episodes *)

Lemma split_pieces_free (sep : ascii) (s piece : string) :
  In piece (split sep s) -> free_of sep piece = true.
Proof.
  revert piece. induction s as [|c rest IH]; cbn [split]; intros piece.
  - intros [<- | []]. reflexivity.
  - destruct (Ascii.eqb c sep) eqn:E.
    + intros [<- | H]; [reflexivity | now apply IH].
    + destruct (split sep rest) as [|p ps] eqn:Es.
      * intros [<- | []]. cbn. now rewrite E.
      * intros [<- | H].
        -- cbn [free_of]. rewrite E. cbn. apply IH. now left.
        -- apply IH. now right.
Qed.

Lemma before_is_free (sep : ascii) (s : string) : free_of sep (before sep s) = true.
Proof.
  induction s as [|c rest IH]; cbn; [reflexivity|].
  destruct (Ascii.eqb c sep) eqn:E; cbn; [reflexivity | now rewrite E].
Qed.

Lemma before_keeps_free (c sep : ascii) (s : string) :
  free_of c s = true -> free_of c (before sep s) = true.
Proof.
  induction s as [|d rest IH]; cbn; [reflexivity|].
  intros H. apply andb_prop in H as [Hd H].
  destruct (Ascii.eqb d sep); cbn; [reflexivity | now rewrite Hd, IH].
Qed.

Lemma after_keeps_free (c sep : ascii) (s : string) :
  free_of c s = true -> free_of c (after sep s) = true.
Proof.
  induction s as [|d rest IH]; cbn; [reflexivity|].
  intros H. apply andb_prop in H as [Hd H].
  destruct (Ascii.eqb d sep); [exact H | now apply IH].
Qed.

Lemma cleanUrl_keeps_free_upto (c : ascii) (n : nat) :
  forall u, String.length u <= n -> free_of c u = true -> free_of c (cleanUrl u) = true.
Proof.
  induction n as [|n IH]; intros u Hn Hu.
  - destruct u; [reflexivity | cbn in Hn; lia].
  - destruct u as [|d tl]; [reflexivity|]. rewrite ParsersFacts.cleanUrl_step.
    cbn [free_of] in Hu. apply andb_prop in Hu as [Hd Htl].
    destruct (hit d tl) eqn:Eh.
    + destruct tl as [|a [|b rest]]; try discriminate.
      cbn [hit] in Eh. apply andb_prop in Eh as [Eh _]. apply andb_prop in Eh as [_ Ea].
      apply Ascii.eqb_eq in Ea. subst a. cbn [free_of] in *.
      apply andb_prop in Htl as [Ha Htl]. apply andb_prop in Htl as [_ Htl].
      rewrite Hd, Ha. cbn [andb]. apply IH; [cbn in Hn; lia | exact Htl].
    + cbn [free_of]. rewrite Hd. cbn [andb]. apply IH; [cbn in Hn; lia | exact Htl].
Qed.

Lemma digits_free (c : ascii) (d : Decimal.uint) :
  (Nat.ltb (nat_of_ascii c) 48 || Nat.ltb 57 (nat_of_ascii c)) = true ->
  free_of c (NilEmpty.string_of_uint d) = true.
Proof.
  intros Hc. induction d; cbn [NilEmpty.string_of_uint free_of]; try reflexivity;
    rewrite IHd, andb_true_r; apply negb_true_iff, Ascii.eqb_neq; intros <-;
    cbn in Hc; discriminate.
Qed.

Lemma show_nat_free (c : ascii) (n : nat) :
  (Nat.ltb (nat_of_ascii c) 48 || Nat.ltb 57 (nat_of_ascii c)) = true ->
  free_of c (show_nat n) = true.
Proof.
  intros Hc. unfold show_nat, NilZero.string_of_uint.
  destruct (Nat.to_uint n) eqn:E; try (rewrite <- E; now apply digits_free).
  cbn [free_of]. rewrite andb_true_r. apply negb_true_iff, Ascii.eqb_neq. intros <-.
  cbn in Hc. discriminate.
Qed.

Lemma mapi_from_length {A B} (f : A -> nat -> B) (xs : list A) (i : nat) :
  List.length (mapi_from i f xs) = List.length xs.
Proof.
  revert i. induction xs as [|x xs IH]; intros i; cbn; [reflexivity|]. now rewrite IH.
Qed.

Lemma indices_from (f : string -> nat -> Episode) (xs : list string) (i : nat) :
  (forall x j, index (f x j) = j) ->
  map index (mapi_from i f xs) = seq i (List.length xs).
Proof.
  intros H. revert i. induction xs as [|x xs IH]; intros i; cbn; [reflexivity|].
  now rewrite H, IH.
Qed.

Lemma in_mapi_from {A B} (f : A -> nat -> B) (xs : list A) (i : nat) (y : B) :
  In y (mapi_from i f xs) -> exists x j, In x xs /\ y = f x j.
Proof.
  revert i. induction xs as [|x xs IH]; intros i; cbn; [contradiction|].
  intros [<- | H].
  - exists x, i. auto.
  - destruct (IH _ H) as [x' [j [Hx Hy]]]. exists x', j. auto.
Qed.

(** Whatever the input, the parsed episodes are numbered 0, 1, 2, ...
    without gaps, no name is empty, and no name or url holds a '#' or a
    '$'. *)
Theorem parsed_episodes_are_well_formed (playUrl : string) :
  map index (parseEpisodes playUrl) = seq 0 (List.length (parseEpisodes playUrl))
  /\ forall e, In e (parseEpisodes playUrl) ->
       name e <> EmptyString
       /\ free_of "#" (name e) = true /\ free_of "$" (name e) = true
       /\ free_of "#" (url e) = true /\ free_of "$" (url e) = true.
Proof.
  unfold parseEpisodes. destruct (truthy playUrl); cbn [negb];
    [|split; [reflexivity | contradiction]].
  unfold mapi. split.
  - rewrite indices_from, (mapi_from_length toEpisode); [reflexivity|].
    intros x j. now rewrite ParsersFacts.toEpisode_episodeOf.
  - intros e He. apply in_mapi_from in He as [segment [j [Hs ->]]].
    apply filter_In in Hs as [Hs _]. apply split_pieces_free in Hs.
    rewrite ParsersFacts.toEpisode_episodeOf. unfold episodeOf. cbn [name url].
    assert (Hdefault : forall c,
      (Nat.ltb (nat_of_ascii c) 48 || Nat.ltb 57 (nat_of_ascii c)) = true ->
      free_of c "Episode " = true ->
      free_of c ("Episode " ++ show_nat (j + 1))%string = true).
    { intros c Hc He. now rewrite free_of_app, He, show_nat_free. }
    repeat split.
    + unfold or_else. destruct (before "$" segment); [discriminate | discriminate].
    + unfold or_else. destruct (truthy (before "$" segment));
        [now apply before_keeps_free | now apply Hdefault].
    + unfold or_else. destruct (truthy (before "$" segment));
        [apply before_is_free | now apply Hdefault].
    + apply (cleanUrl_keeps_free_upto "#" (String.length (before "$" (after "$" segment))));
        [lia|]. now apply before_keeps_free, after_keeps_free.
    + apply (cleanUrl_keeps_free_upto "$" (String.length (before "$" (after "$" segment))));
        [lia|]. apply before_is_free.
Qed.


End ParsersMoreFacts.

(* ------------------------------------------------------------------ *)
(** ** The HLS manifest parser *)

Module HlsManifestFacts.

Import JS HlsManifest.

Section Parsing.

Variable Num : Type.
Variable zero : Num.
Variable add : Num -> Num -> Num.
Variable parseFloat : string -> Num.
Variable trim : string -> string.
Variable resolve : string -> string -> outcome string.

Local Abbreviation step' := (step Num add parseFloat trim resolve).
Local Abbreviation loop' := (loop Num add parseFloat trim resolve).

Lemma tag_is_no_segment (trimmed : string) :
  startsWith "#EXTINF:" trimmed = true -> names_segment trimmed = false.
Proof.
  unfold names_segment, startsWith. destruct trimmed as [|c rest]; [discriminate|].
  cbn [String.prefix truthy andb]. destruct (ascii_dec "#" c); [|discriminate].
  intros _. now destruct rest.
Qed.

Lemma chained_snoc (start : Num) (segs : list (Segment Num)) (s : Segment Num) :
  chained Num add start segs -> startTime Num s = end_of Num add start segs ->
  chained Num add start (segs ++ [s]).
Proof.
  revert start. induction segs as [|s0 segs IH]; intros start; cbn.
  - auto.
  - intros [H0 H] Hs. split; [exact H0|]. now apply IH.
Qed.

Lemma end_of_snoc (start : Num) (segs : list (Segment Num)) (s : Segment Num) :
  end_of Num add start (segs ++ [s]) = add (end_of Num add start segs) (duration Num s).
Proof. unfold end_of. now rewrite fold_left_app. Qed.

(** What the loop keeps true of its variables. *)
Lemma step_keeps (src : string) (l l' : Loop Num) (line : string) :
  step' src l line = Returns l' ->
  chained Num add zero (segments Num l) ->
  currentStartTime Num l = end_of Num add zero (segments Num l) ->
  chained Num add zero (segments Num l')
  /\ currentStartTime Num l' = end_of Num add zero (segments Num l')
  /\ List.length (segments Num l')
     = List.length (segments Num l) + (if names_segment (trim line) then 1 else 0)
  /\ (is_absolute (trim line) = true \/ names_segment (trim line) = false ->
      map (url Num) (segments Num l')
      = map (url Num) (segments Num l)
        ++ (if names_segment (trim line) then [trim line] else [])).
Proof.
  unfold step. intros H Hc Hs.
  destruct (startsWith "#EXTINF:" (trim line)) eqn:Et.
  - injection H as <-. cbn [segments currentStartTime].
    rewrite (tag_is_no_segment _ Et), app_nil_r, Nat.add_0_r. auto.
  - fold (names_segment (trim line)) in H. destruct (names_segment (trim line)) eqn:En.
    + destruct (is_absolute (trim line)) eqn:Ea.
      * injection H as <-. cbn [segments currentStartTime].
        rewrite end_of_snoc, length_app, map_app. cbn [duration List.length map url].
        repeat split; try congruence. apply chained_snoc; [exact Hc | exact Hs].
      * destruct (resolve (trim line) src) as [u|e]; [|discriminate].
        injection H as <-. cbn [segments currentStartTime].
        rewrite end_of_snoc, length_app. cbn [duration List.length].
        repeat split; try congruence.
        -- apply chained_snoc; [exact Hc | exact Hs].
        -- intros [H|H]; discriminate.
    + injection H as <-. rewrite app_nil_r, Nat.add_0_r. auto.
Qed.

Lemma loop_keeps (src : string) (lines : list string) (l l' : Loop Num) :
  loop' src lines l = Returns l' ->
  chained Num add zero (segments Num l) ->
  currentStartTime Num l = end_of Num add zero (segments Num l) ->
  chained Num add zero (segments Num l')
  /\ List.length (segments Num l')
     = List.length (segments Num l)
       + List.length (filter names_segment (map trim lines)).
Proof.
  revert l. induction lines as [|line lines IH]; intros l; cbn [loop map filter].
  - intros H. injection H as <-. cbn. intros Hc _. split; [exact Hc | lia].
  - destruct (step' src l line) as [l1|e] eqn:E; [|discriminate].
    intros H Hc Hs. destruct (step_keeps src l l1 line E Hc Hs) as [Hc1 [Hs1 [Hl1 _]]].
    destruct (IH l1 H Hc1 Hs1) as [Hc' Hl']. split; [exact Hc'|].
    rewrite Hl', Hl1. destruct (names_segment (trim line)); cbn [List.length]; lia.
Qed.

Lemma loop_absolute (src : string) (lines : list string) (l : Loop Num) :
  (forall line, In line lines ->
     names_segment (trim line) = true -> is_absolute (trim line) = true) ->
  exists l',
    loop' src lines l = Returns l'
    /\ map (url Num) (segments Num l')
       = map (url Num) (segments Num l) ++ filter names_segment (map trim lines).
Proof.
  revert l. induction lines as [|line lines IH]; intros l Habs; cbn [loop map filter].
  - exists l. now rewrite app_nil_r.
  - assert (E : exists l1, step' src l line = Returns l1
                 /\ map (url Num) (segments Num l1)
                    = map (url Num) (segments Num l)
                      ++ (if names_segment (trim line) then [trim line] else [])).
    { unfold step. destruct (startsWith "#EXTINF:" (trim line)) eqn:Et.
      - eexists. split; [reflexivity|]. cbn [segments].
        now rewrite (tag_is_no_segment _ Et), app_nil_r.
      - fold (names_segment (trim line)).
        destruct (names_segment (trim line)) eqn:En.
        + rewrite (Habs line (or_introl eq_refl) En). eexists. split; [reflexivity|].
          cbn [segments]. now rewrite map_app.
        + eexists. split; [reflexivity|]. now rewrite app_nil_r. }
    destruct E as [l1 [E1 E2]]. rewrite E1.
    destruct (IH l1) as [l' [Hl' Hu]]; [intros; apply Habs; [now right | assumption]|].
    exists l'. split; [exact Hl'|]. rewrite Hu, E2, <- app_assoc.
    now destruct (names_segment (trim line)).
Qed.

End Parsing.

(** When the parse succeeds there is one segment per line that names a
    segment (a line that, trimmed, is not empty and does not begin with
    '#'), and the start times accumulate: the first segment starts at 0
    and each further one at the start of the one before it plus that one's
    duration. *)
Theorem start_times_accumulate
    (Num : Type) (zero : Num) (add : Num -> Num -> Num) (parseFloat : string -> Num)
    (trim : string -> string) (resolve : string -> string -> outcome string)
    (src manifestText : string) (response : Response) (segs : list (Segment Num)) :
  text response = Returns manifestText ->
  parseHLSManifest Num zero add parseFloat trim resolve src (Returns response)
  = Returns segs ->
  chained Num add zero segs
  /\ List.length segs
     = List.length (filter names_segment (map trim (split newline manifestText))).
Proof.
  intros Ht. unfold parseHLSManifest. destruct (ok response); cbn [negb]; [|discriminate].
  rewrite Ht.
  destruct (loop _ _ _ _ _ src _ _) as [l|e] eqn:E; [|discriminate].
  intros H. injection H as <-.
  apply (loop_keeps Num zero add parseFloat trim resolve src _ _ l E); cbn; auto.
Qed.

Lemma start_times_accumulate_witness :
  let seconds := fun s => match NilEmpty.uint_of_string s with
                          | Some u => Nat.of_uint u
                          | None => 0
                          end in
  let under := fun rel (_ : string) => Returns ("https://h/v/" ++ rel)%string in
  let nl := String newline EmptyString in
  let manifestText :=
    ("#EXTM3U" ++ nl ++ "#EXTINF:10," ++ nl ++ "a.ts" ++ nl
       ++ "#EXTINF:8," ++ nl ++ " /v/b.ts " ++ nl ++ "c.ts" ++ nl)%string in
  let segs := [ {| url := "https://h/v/a.ts"; duration := 10; startTime := 0 |};
                {| url := "/v/b.ts"; duration := 8; startTime := 10 |};
                {| url := "https://h/v/c.ts"; duration := 8; startTime := 18 |} ] in
  chained nat Nat.add 0 segs
  /\ List.length segs
     = List.length (filter names_segment
                      (map trim_ascii (split newline manifestText))).
Proof.
  intros seconds under nl manifestText segs.
  apply (start_times_accumulate nat 0 Nat.add seconds trim_ascii under
           "https://h/v/index.m3u8" manifestText
           {| ok := true; status := 200; text := Returns manifestText |} segs);
    reflexivity.
Defined.

(** A manifest whose segment lines are all absolute (they begin with
    'http://', 'https://' or '/') always parses once it is fetched: no URL
    is resolved, and the segment urls are those lines, trimmed, in order. *)
Theorem absolute_manifest_always_parses
    (Num : Type) (zero : Num) (add : Num -> Num -> Num) (parseFloat : string -> Num)
    (trim : string -> string) (resolve : string -> string -> outcome string)
    (src manifestText : string) (code : nat) :
  (forall line, In line (split newline manifestText) ->
     names_segment (trim line) = true -> is_absolute (trim line) = true) ->
  exists segs,
    parseHLSManifest Num zero add parseFloat trim resolve src
      (Returns {| ok := true; status := code; text := Returns manifestText |})
    = Returns segs
    /\ map (url Num) segs = filter names_segment (map trim (split newline manifestText)).
Proof.
  intros Habs. unfold parseHLSManifest. cbn [ok negb text].
  destruct (loop_absolute Num add parseFloat trim resolve src _
              {| segments := []; currentSegmentDuration := zero; currentStartTime := zero |}
              Habs) as [l [El Hu]].
  rewrite El. exists (segments Num l). split; [reflexivity | exact Hu].
Qed.

Lemma absolute_manifest_always_parses_witness :
  let seconds := fun s => match NilEmpty.uint_of_string s with
                          | Some u => Nat.of_uint u
                          | None => 0
                          end in
  let unresolvable := fun (_ _ : string) => Throws (ErrorObject "Invalid URL") in
  let nl := String newline EmptyString in
  let manifestText :=
    ("#EXTM3U" ++ nl ++ "#EXTINF:10," ++ nl ++ "/api/proxy?url=a.ts" ++ nl
       ++ nl ++ "#EXTINF:8," ++ nl ++ "https://h/v/b.ts" ++ nl ++ "#EXT-X-ENDLIST")%string in
  exists segs,
    parseHLSManifest nat 0 Nat.add seconds trim_ascii unresolvable "index.m3u8"
      (Returns {| ok := true; status := 200; text := Returns manifestText |})
    = Returns segs
    /\ map (url nat) segs = ["/api/proxy?url=a.ts"; "https://h/v/b.ts"].
Proof.
  intros seconds unresolvable nl manifestText.
  apply (absolute_manifest_always_parses nat 0 Nat.add seconds trim_ascii unresolvable
           "index.m3u8" manifestText 200).
  intros line Hin. vm_compute in Hin.
  repeat (destruct Hin as [<- | Hin]; [vm_compute; auto|]). destruct Hin.
Defined.

End HlsManifestFacts.

(* ------------------------------------------------------------------ *)
(** ** The HLS player's error handler *)

Module HlsPlayerFacts.

Import HlsPlayer.

Lemma count_if_app {A} (p : A -> bool) (xs ys : list A) :
  count_if p (xs ++ ys) = count_if p xs + count_if p ys.
Proof. unfold count_if. now rewrite filter_app, length_app. Qed.

Lemma count_if_cons {A} (p : A -> bool) (x : A) (xs : list A) :
  count_if p (x :: xs) = (if p x then 1 else 0) + count_if p xs.
Proof. unfold count_if. cbn [filter]. now destruct (p x). Qed.

Lemma handleAll_counts (events : list ErrorData) (r : Retries) :
  count_if is_startLoad (handleAll r events)
    = Nat.min 3 (networkErrorRetries r + count_if (fatal_of NETWORK_ERROR) events)
      - Nat.min 3 (networkErrorRetries r)
  /\ count_if is_recover (handleAll r events)
     = Nat.min 3 (mediaErrorRetries r + count_if (fatal_of MEDIA_ERROR) events)
       - Nat.min 3 (mediaErrorRetries r)
  /\ count_if is_destroy (handleAll r events)
     = (networkErrorRetries r + count_if (fatal_of NETWORK_ERROR) events
          - Nat.max 3 (networkErrorRetries r))
       + (mediaErrorRetries r + count_if (fatal_of MEDIA_ERROR) events
          - Nat.max 3 (mediaErrorRetries r))
       + count_if (fatal_of OTHER_ERROR) events.
Proof.
  revert r. induction events as [|data events IH]; intros r.
  - cbn [handleAll]. unfold count_if. cbn [filter List.length].
    rewrite !Nat.add_0_r. repeat split; lia.
  - cbn [handleAll]. rewrite !count_if_app, !count_if_cons.
    destruct (IH (fst (handleError r data))) as [H1 [H2 H3]]. rewrite H1, H2, H3.
    clear IH H1 H2 H3.
    generalize (count_if (fatal_of NETWORK_ERROR) events),
               (count_if (fatal_of MEDIA_ERROR) events),
               (count_if (fatal_of OTHER_ERROR) events).
    intros cn cm co. unfold handleError, fatal_of, MAX_RETRIES, count_if.
    destruct (fatal data); cbn [andb fst snd filter List.length];
      [|repeat split; lia].
    destruct (type data); cbn [fst snd networkErrorRetries mediaErrorRetries].
    + destruct (Nat.leb_spec (S (networkErrorRetries r)) 3);
        cbn [filter is_startLoad is_recover is_destroy List.length]; repeat split; lia.
    + destruct (Nat.leb_spec (S (mediaErrorRetries r)) 3);
        cbn [filter is_startLoad is_recover is_destroy List.length]; repeat split; lia.
    + cbn [filter is_startLoad is_recover is_destroy List.length]. repeat split; lia.
Qed.

(** Whatever errors arrive, the handler restarts loading for the first
    three fatal network errors only and recovers the media for the first
    three fatal media errors only; every further fatal error of these
    types, and every fatal error of another type, destroys the player;
    errors that are not fatal do nothing. *)
Theorem retries_stop_after_three (events : list ErrorData) :
  count_if is_startLoad (handleAll fresh events)
    = Nat.min 3 (count_if (fatal_of NETWORK_ERROR) events)
  /\ count_if is_recover (handleAll fresh events)
     = Nat.min 3 (count_if (fatal_of MEDIA_ERROR) events)
  /\ count_if is_destroy (handleAll fresh events)
     = (count_if (fatal_of NETWORK_ERROR) events - 3)
       + (count_if (fatal_of MEDIA_ERROR) events - 3)
       + count_if (fatal_of OTHER_ERROR) events
  /\ (forall data r, fatal data = false -> handleError r data = (r, [])).
Proof.
  destruct (handleAll_counts events fresh) as [H1 [H2 H3]].
  cbn [fresh networkErrorRetries mediaErrorRetries] in H1, H2, H3.
  repeat split.
  - rewrite H1. lia.
  - rewrite H2. lia.
  - rewrite H3. lia.
  - intros data r H. unfold handleError. now rewrite H.
Qed.

End HlsPlayerFacts.

(* ------------------------------------------------------------------ *)
(** ** Two runs of one request, the checks completing in different orders *)

Module TwoRunsFacts.

Import JS Types SearchRoute SearchRouteMore SearchRouteRuns.

Lemma in_first_occurrences (k : string) (ids : list string) :
  In k (first_occurrences ids) <-> In k ids.
Proof.
  induction ids as [|i ids IH]; cbn [first_occurrences]; [reflexivity|].
  cbn [In]. rewrite filter_In, IH. split.
  - intros [H | [H _]]; auto.
  - intros [H | H]; [now left|].
    destruct (String.eqb i k) eqn:E; [left; now apply String.eqb_eq|].
    right. now split.
Qed.

Lemma first_occurrences_distinct (ids : list string) : NoDup (first_occurrences ids).
Proof.
  induction ids as [|i ids IH]; cbn [first_occurrences]; constructor.
  - intros H. apply filter_In in H as [_ H]. now rewrite String.eqb_refl in H.
  - now apply NoDup_filter.
Qed.

(** The entries of a result body, read off lines 105 to 119. *)
Lemma respond_entries (trim : string -> string) (q : string) (page_ : value)
    (ids : list string) (found : list SearchResult) (av : list Video) (r : SearchResponse) :
  respond trim q page_ ids found av = {| body := ResultBody r; status := 200 |} ->
  follows r av
  /\ forall entry, In entry (sources r) ->
       responseTime entry = responseTime_of found (result_source entry).
Proof.
  unfold respond, json, follows. intros H. injection H as <-. cbn [sources]. repeat split.
  - rewrite map_map. unfold group.
    transitivity (map fst (fold_left group_step av [])); [apply map_ext; now intros [k vs]|].
    rewrite SearchRouteMoreFacts.keys_fold_group. cbn [map app].
    apply SearchRouteMoreFacts.filter_absent_nil.
  - intros entry Hentry. apply in_map_iff in Hentry as [[k vs] [<- Hin]].
    cbn [results result_source]. now apply SearchRouteMoreFacts.in_group_entry.
  - intros entry Hentry. apply in_map_iff in Hentry as [[k vs] [<- Hin]]. reflexivity.
Qed.

(** Entries that follow two orders of the same videos match. *)
Lemma follows_matched (found : list SearchResult) (r r' : SearchResponse)
    (av av' : list Video) :
  Permutation av av' ->
  follows r av -> follows r' av' ->
  (forall entry, In entry (sources r) ->
     responseTime entry = responseTime_of found (result_source entry)) ->
  (forall entry, In entry (sources r') ->
     responseTime entry = responseTime_of found (result_source entry)) ->
  matched (sources r) (sources r').
Proof.
  intros Hperm [Hk Hv] [Hk' Hv'] Ht Ht' entry Hentry.
  assert (Hin : In (result_source entry) (map result_source (sources r'))).
  { rewrite Hk'. apply in_first_occurrences.
    assert (H : In (result_source entry) (map result_source (sources r)))
      by now apply in_map.
    rewrite Hk in H. apply (proj1 (in_first_occurrences _ _)) in H.
    apply in_map_iff in H as [v [Hs H]]. apply in_map_iff. exists v. split; [exact Hs|].
    now apply (Permutation_in _ Hperm). }
  apply in_map_iff in Hin as [entry' [Hs Hin]]. exists entry'.
  split; [exact Hin|]. split; [exact Hs|]. split.
  - now rewrite (Ht _ Hentry), (Ht' _ Hin), Hs.
  - rewrite (Hv _ Hentry), (Hv' _ Hin), Hs.
    apply PipelineFacts.filter_perm. now symmetry.
Qed.

(** C7 (amended): two runs of the handler on one request that passes
    validation, with the same registry, the same answer of [searchVideos],
    the same verdicts of the availability check, and the checks completing
    in two different orders.  Both answer 200; both verified lists are the
    available candidates, in some order; the two bodies have equal
    [success], [query], [page], [totalResults] and [sourceStats]; their
    [sources] name every source at most once and match entry by entry (same
    source, same [responseTime], the same videos up to order).  The order
    of the entries and of the videos in them is the order in which
    [checkMultipleVideos] returned the videos; the bodies are equal when
    that order is. *)
Theorem runs_agree_up_to_order
    (trim : string -> string) (getSourceById : string -> option VideoSource)
    (searchVideos : string -> list VideoSource -> value -> outcome (list SearchResult))
    (available : Video -> bool) (order1 order2 : list nat)
    (q ids page_ : value) (found : list SearchResult) :
  invalid_query trim q = false -> invalid_sources ids = false ->
  defined_only (map getSourceById (items_of ids)) <> [] ->
  searchVideos (trim (text_of q)) (defined_only (map getSourceById (items_of ids)))
    (page_or_1 page_) = Returns found ->
  exists r1 r2 av1 av2,
    fst (POST trim getSourceById searchVideos (Pipeline.checkMultipleVideos available order1)
           (Returns (BodyObject q ids page_)))
    = {| body := ResultBody r1; status := 200 |}
    /\ fst (POST trim getSourceById searchVideos (Pipeline.checkMultipleVideos available order2)
              (Returns (BodyObject q ids page_)))
       = {| body := ResultBody r2; status := 200 |}
    /\ Pipeline.checkMultipleVideos available order1 (flat_map results found) 8 = Returns av1
    /\ Pipeline.checkMultipleVideos available order2 (flat_map results found) 8 = Returns av2
    /\ Permutation av1 (filter available (flat_map results found))
    /\ Permutation av2 (filter available (flat_map results found))
    /\ Permutation (listed r1) av1
    /\ Permutation (listed r2) av2
    /\ Permutation (listed r1) (listed r2)
    /\ success r1 = success r2
    /\ query r1 = query r2
    /\ page r1 = page r2
    /\ totalResults r1 = totalResults r2
    /\ sourceStats r1 = sourceStats r2
    /\ NoDup (map result_source (sources r1))
    /\ NoDup (map result_source (sources r2))
    /\ matched (sources r1) (sources r2)
    /\ matched (sources r2) (sources r1)
    /\ follows r1 av1
    /\ follows r2 av2
    /\ (av1 = av2 -> r1 = r2).
Proof.
  intros Hq Hs Hn Hfound.
  destruct (PipelineFacts.checkMultipleVideos_passes available 8 order1
              (flat_map results found) ltac:(lia)) as [av1 [Hav1 Hp1]].
  destruct (PipelineFacts.checkMultipleVideos_passes available 8 order2
              (flat_map results found) ltac:(lia)) as [av2 [Hav2 Hp2]].
  assert (Hperm : Permutation av1 av2) by (rewrite Hp1; now symmetry).
  rewrite (SearchRouteFacts.POST_valid _ _ _ _ q ids page_ found av1 Hq Hs Hn Hfound Hav1).
  rewrite (SearchRouteFacts.POST_valid _ _ _ _ q ids page_ found av2 Hq Hs Hn Hfound Hav2).
  destruct (SearchRouteFacts.respond_fields trim (text_of q) (page_or_1 page_)
              (items_of ids) found av1) as [r1 [E1 [S1 [Q1 [P1 [T1 [St1 [_ L1]]]]]]]].
  destruct (SearchRouteFacts.respond_fields trim (text_of q) (page_or_1 page_)
              (items_of ids) found av2) as [r2 [E2 [S2 [Q2 [P2 [T2 [St2 [_ L2]]]]]]]].
  destruct (respond_entries _ _ _ _ _ _ _ E1) as [F1 R1].
  destruct (respond_entries _ _ _ _ _ _ _ E2) as [F2 R2].
  exists r1, r2, av1, av2. cbn [fst].
  repeat match goal with |- _ /\ _ => split end; try assumption; try congruence.
  - now rewrite L1, L2.
  - rewrite T1, T2. now apply Permutation_length.
  - rewrite St1, St2. apply map_ext. intros i. f_equal.
    now apply RunFacts.filter_length_perm.
  - destruct F1 as [-> _]. apply first_occurrences_distinct.
  - destruct F2 as [-> _]. apply first_occurrences_distinct.
  - now apply (follows_matched found r1 r2 av1 av2).
  - apply (follows_matched found r2 r1 av2 av1); try assumption. now symmetry.
Qed.

(** The theorem on a request for two sources: the checks complete in the
    order in which they were started, and in another order. *)
Lemma runs_agree_up_to_order_witness :
  exists r1 r2,
    fst (Scenario.POST Scenario.client [] (Scenario.request "matrix" ["ruyi"; "dytt"]))
    = {| body := ResultBody r1; status := 200 |}
    /\ fst (Scenario.POST Scenario.client [1; 0; 0] (Scenario.request "matrix" ["ruyi"; "dytt"]))
       = {| body := ResultBody r2; status := 200 |}
    /\ Permutation (listed r1) (listed r2)
    /\ sourceStats r1 = sourceStats r2
    /\ matched (sources r1) (sources r2)
    /\ matched (sources r2) (sources r1).
Proof.
  destruct (runs_agree_up_to_order trim_ascii Scenario.getSourceById
              (Pipeline.searchVideos Scenario.client) Scenario.all_available [] [1; 0; 0]
              (Text "matrix") (Array ["ruyi"; "dytt"]) Undefined _
              eq_refl eq_refl ltac:(discriminate) eq_refl)
    as (r1 & r2 & av1 & av2 & H1 & H2 & _ & _ & _ & _ & _ & _ & Hl & _ & _ & _ & _ & Hst
        & _ & _ & Hm & Hm' & _).
  exists r1, r2. repeat split; assumption.
Defined.

End TwoRunsFacts.

(* ------------------------------------------------------------------ *)
(** ** The search-stream client with its timers *)

Module SearchStreamTimersFacts.

Import JS Types SearchStream SearchStreamMore SearchStreamTimers SearchStreamMoreFacts.

Lemma expire_aged (added_ prev : list ShownVideo) :
  map aged (expire added_ prev) = map aged prev.
Proof.
  unfold expire. rewrite map_map. apply map_ext. intros v.
  now destruct (existsb _ added_).
Qed.

Lemma similar_refl (r : Run) : similar r r.
Proof. repeat split. Qed.

(** The callback of a timer changes flags only. *)
Lemma fire_similar (now : Z) (k : nat) (t : Timed) (b : Run) :
  similar (run t) b -> similar (run (fire now k t)) b.
Proof.
  intros H. unfold fire. destruct (nth_error (timers t) k) as [timer|]; [|exact H].
  destruct (due timer <=? now)%Z; [|exact H].
  destruct H as [Hs [Hr [Ha [Hc [Hca Hu]]]]]. cbn [run].
  destruct (run t) as [sa alla ca cachea urlsa].
  unfold similar.
  cbn [with_state state setResults results allVideos sourceVideoCounts cache urls] in *.
  repeat split; try assumption. now rewrite expire_aged.
Qed.

(** The loop never reads [results]: similar runs stay similar. *)
Lemma processLine_similar (searchQuery : string) (a b : Run) (timed : Z * Line) :
  similar a b -> similar (processLine searchQuery a timed) (processLine searchQuery b timed).
Proof.
  destruct timed as [now l]. intros [Hs [Hr [Ha [Hc [Hca Hu]]]]].
  destruct a as [[la ra ava csa ssa cva tva cura] alla ca cachea urlsa].
  destruct b as [[lb rb avb csb ssb cvb tvb curb] allb cb cacheb urlsb].
  cbn in Hs, Hr, Ha, Hc, Hca, Hu. injection Hs as -> -> -> -> -> -> ->. subst.
  destruct l as [| |data]; try (repeat split; assumption).
  by_record_type data; cbn; repeat split; assumption.
Qed.

Lemma play_similar (searchQuery : string) (events : list Event) (t : Timed) (b : Run) :
  similar (run t) b ->
  similar (run (play searchQuery events t)) (processLines searchQuery (arrivals events) b).
Proof.
  unfold play, processLines. revert t b.
  induction events as [|[now l|now k] events IH]; intros t b H; cbn [fold_left arrivals flat_map app].
  - exact H.
  - apply IH. cbn [step arrive run]. now apply processLine_similar.
  - apply IH. cbn [step]. now apply fire_similar.
Qed.

Lemma fireAll_similar (later : list (Z * nat)) (t : Timed) (b : Run) :
  similar (run t) b -> similar (run (fireAll later t)) b.
Proof.
  unfold fireAll. revert t. induction later as [|[now k] later IH]; intros t H; cbn [fold_left].
  - exact H.
  - apply IH. now apply fire_similar.
Qed.

Lemma setLoading_similar (flag : bool) (a b : Run) :
  similar a b -> similar (with_state (setLoading flag) a) (with_state (setLoading flag) b).
Proof.
  intros [Hs [Hr [Ha [Hc [Hca Hu]]]]].
  destruct a as [[la ra ava csa ssa cva tva cura] alla ca cachea urlsa].
  destruct b as [[lb rb avb csb ssb cvb tvb curb] allb cb cacheb urlsb].
  cbn in *. injection Hs as -> -> -> -> -> -> ->. subst. repeat split; assumption.
Qed.

Lemma setCurrentSource_similar (c : string) (a b : Run) :
  similar a b ->
  similar (with_state (setCurrentSource c) a) (with_state (setCurrentSource c) b).
Proof.
  intros [Hs [Hr [Ha [Hc [Hca Hu]]]]].
  destruct a as [[la ra ava csa ssa cva tva cura] alla ca cachea urlsa].
  destruct b as [[lb rb avb csb ssb cvb tvb curb] allb cb cacheb urlsb].
  cbn in *. injection Hs as -> -> -> -> -> -> ->. subst. repeat split; assumption.
Qed.

(** With its timers the search differs from the loop alone at most in the
    [isNew] flags of [results]. *)
Lemma performSearchTimed_similar (trim : string -> string) (searchQuery : string)
    (events : list Event) (ending : Ending) (t0 : Timed) :
  similar (run (performSearchTimed trim searchQuery events ending t0))
          (performSearch trim searchQuery (Stream (arrivals events) ending) (run t0)).
Proof.
  unfold performSearchTimed, performSearch.
  destruct (negb (truthy (trim searchQuery)) || loading (state (run t0)));
    [apply similar_refl|].
  destruct ending; cbn [on_run run].
  - apply setCurrentSource_similar, play_similar, similar_refl.
  - apply setCurrentSource_similar, setLoading_similar, play_similar, similar_refl.
Qed.

(** Without any callback the search with timers is the loop alone. *)
Lemma performSearchTimed_without_callbacks (trim : string -> string) (searchQuery : string)
    (lines : list (Z * Line)) (ending : Ending) (r0 : Run) :
  run (performSearchTimed trim searchQuery
         (map (fun timed => Arrives (fst timed) (snd timed)) lines) ending (idle r0))
  = performSearch trim searchQuery (Stream lines ending) r0.
Proof.
  assert (H : forall t', run (play searchQuery
                                (map (fun timed => Arrives (fst timed) (snd timed)) lines) t')
                         = processLines searchQuery lines (run t')).
  { unfold play, processLines. induction lines as [|[now l] lines IH]; intros t';
      cbn [map fold_left fst snd]; [reflexivity|]. now rewrite IH. }
  unfold performSearchTimed, performSearch. cbn [idle run timers].
  destruct (negb (truthy (trim searchQuery)) || loading (state r0)); [reflexivity|].
  destruct ending; cbn [on_run run]; now rewrite H.
Qed.

(** The loop flags every video it takes up as new. *)
Lemma processLine_flags (searchQuery : string) (r : Run) (timed : Z * Line) :
  Forall (fun v => isNew v = true) (allVideos r) ->
  Forall (fun v => isNew v = true) (allVideos (processLine searchQuery r timed)).
Proof.
  destruct timed as [now l]. intros H. destruct l as [| |data]; try exact H.
  by_record_type data; cbn [allVideos with_state]; try exact H.
  apply Forall_app. split; [exact H|]. apply Forall_forall. intros v Hv.
  apply in_map_iff in Hv as [w [<- _]]. reflexivity.
Qed.

Lemma performSearch_flags (trim : string -> string) (searchQuery : string)
    (lines : list (Z * Line)) (ending : Ending) (r0 : Run) :
  truthy (trim searchQuery) = true -> loading (state r0) = false ->
  Forall (fun v => isNew v = true)
         (allVideos (performSearch trim searchQuery (Stream lines ending) r0)).
Proof.
  intros Hq Hl. unfold performSearch. rewrite Hq, Hl. cbn [negb orb].
  match goal with |- context [processLines searchQuery lines ?r] =>
    assert (H : Forall (fun v => isNew v = true)
                       (allVideos (processLines searchQuery lines r))) end.
  { unfold processLines.
    match goal with |- context [fold_left _ lines ?r] =>
      assert (H0 : Forall (fun v => isNew v = true) (allVideos r)) by constructor;
      revert H0; generalize r end.
    induction lines as [|timed lines IH]; intros r H0; cbn [fold_left]; [exact H0|].
    apply IH. now apply processLine_flags. }
  destruct ending; exact H.
Qed.

(** When the last line of the stream is a 'complete' record, the search
    ends not loading, whatever timer callbacks have run meanwhile or run
    afterwards.  The last call on the cache has the query, the local array
    [allVideos], in which every video received is still flagged [isNew],
    and the source list of the final state.  What the final state shows
    are the same videos in the same order, but for the [isNew] flags, which
    the callbacks have turned off in the state only. *)
Theorem complete_caches_the_videos_received
    (trim : string -> string) (searchQuery : string)
    (events : list Event) (now : Z) (l : Line) (ending : Ending)
    (later : list (Z * nat)) (t0 : Timed) :
  truthy (trim searchQuery) = true -> loading (state (run t0)) = false ->
  completes l = true ->
  let final :=
    run (fireAll later
           (performSearchTimed trim searchQuery (events ++ [Arrives now l]) ending t0)) in
  loading (state final) = false
  /\ (exists earlier,
        cache final
        = earlier ++ [ {| cached_query := searchQuery;
                          cached_results := allVideos final;
                          cached_sources := availableSources (state final) |} ])
  /\ Forall (fun v => isNew v = true) (allVideos final)
  /\ map video (allVideos final) = delivered (arrivals (events ++ [Arrives now l]))
  /\ map aged (results (state final)) = map aged (allVideos final).
Proof.
  intros Hq Hl Hc final.
  pose proof (fireAll_similar later _ _
                (performSearchTimed_similar trim searchQuery (events ++ [Arrives now l])
                   ending t0)) as Hsim.
  fold final in Hsim.
  assert (Hlines : arrivals (events ++ [Arrives now l]) = arrivals events ++ [(now, l)]).
  { unfold arrivals. rewrite flat_map_app. reflexivity. }
  rewrite Hlines in *.
  destruct Hsim as [Hs [Hr [Ha [Hn [Hca _]]]]].
  destruct (complete_caches_allVideos trim searchQuery (arrivals events) now l ending
              (run t0) Hq Hl Hc) as [Hload [earlier Hcache]].
  destruct (performSearch_consistent trim searchQuery (arrivals events ++ [(now, l)]) ending
              (run t0) Hq Hl) as [Hres [Hav _]].
  pose proof (performSearch_flags trim searchQuery (arrivals events ++ [(now, l)]) ending
                (run t0) Hq Hl) as Hflags.
  pose proof (SearchStreamFacts.performSearch_results trim searchQuery
                (arrivals events ++ [(now, l)]) ending (run t0) Hq Hl) as Hdel.
  repeat split.
  - rewrite <- Hload. exact (f_equal loading Hs).
  - exists earlier. rewrite Hca, Hcache, Ha. do 3 f_equal.
    rewrite <- Hav. symmetry. exact (f_equal availableSources Hs).
  - rewrite Ha. exact Hflags.
  - rewrite Ha, <- Hres. exact Hdel.
  - rewrite Hr, Hres, Ha. reflexivity.
Qed.

(** The theorem on a search in which the callback of the first record's
    timer runs before the 'complete' record arrives: the video is shown
    with [isNew] off and cached with [isNew] on. *)
Lemma complete_caches_the_videos_received_witness :
  let final :=
    run (fireAll []
           (performSearchTimed trim_ascii "matrix"
              ([ Arrives 1 (Parsed (videos_found [Scenario.matrix1] 1 1)); Fires 400 0 ]
               ++ [ Arrives 500 (Parsed (complete 1)) ])
              Done (idle fresh))) in
  (loading (state final) = false
   /\ (exists earlier,
         cache final
         = earlier ++ [ {| cached_query := "matrix";
                           cached_results := allVideos final;
                           cached_sources := availableSources (state final) |} ])
   /\ Forall (fun v => isNew v = true) (allVideos final)
   /\ map video (allVideos final)
      = delivered (arrivals ([ Arrives 1 (Parsed (videos_found [Scenario.matrix1] 1 1));
                               Fires 400 0 ]
                             ++ [ Arrives 500 (Parsed (complete 1)) ]))
   /\ map aged (results (state final)) = map aged (allVideos final))
  /\ map isNew (results (state final)) = [false]
  /\ map isNew (allVideos final) = [true].
Proof.
  intros final. split; [|split; reflexivity].
  apply (complete_caches_the_videos_received trim_ascii "matrix"); reflexivity.
Defined.

End SearchStreamTimersFacts.
